(** * Numerical integration on uniform grids: [numint_uniform_grid.c]

    A shallow embedding of pyscf/lib/dft/numint_uniform_grid.c and the
    properties of it that the design document states.

    Conventions of the embedding.
    - A C [double] is a value of [double] below: a real number or one of
      the IEEE-754 special values.  In the module [Dbl] arithmetic on
      finite values is exact: rounding, overflow and underflow of finite
      results and the sign of zero are outside it.  Where a property
      depends on rounding, on the range of [double] or on the range of
      [int] (the sign and finiteness of [gto_rcut], the image range of
      [_cartesian_components]), the function is defined a second time
      over an arbitrary rounding of the exact results, in the module
      [Rounded]; the module [Binary64] has the rounding of the binary64
      format.
    - A C [int] is a [Z]; signed overflow is undefined in C and outside the
      model.  Arithmetic in [size_t] wraps modulo 2^64 and is written out
      where the source computes a size.
    - Memory reached through a [double *] is a function from element
      offsets to [double]; pointers into one buffer are offsets in [Z].
      Stateful functions take the memory and return the new one.
    - A C loop is one of the iterators [for_lt], [for_le], [for_ge] applied
      to its body, a function on the variables the loop changes.

    What is embedded.  [gto_rcut], the image range and grid slice of
    [_cartesian_components], the layout, the y stage and the z stage of
    [GTOnumint_3d_orth], [GTOnumint_3d_nonorth], [plain_prim_to_ctr],
    [max_pgto_coeff], [GTOnumint1e_loop], [_cache_size],
    [GTO_numint1e_drv], the two [NUMINT1e_ovlp] entry points,
    [_max_cache_size] and [NUMINT1e_fill2c].  The exponential tables of
    [_cartesian_components], the x stage of [GTOnumint_3d_orth] and the
    engine as a whole follow, and the rounded arithmetic closes the
    definitions.  Callees from other files
    ([dgemm_], libcint, np_helper, ft_ao) are modelled by their contract or
    taken as parameters, as said at each of them. *)

From Stdlib Require Import ZArith List Bool Lia Reals Lra String Ascii.
Import ListNotations.

Set Implicit Arguments.

(** ** The model of [double] *)

Module Dbl.

Local Open Scope R_scope.

Inductive double : Type :=
| Fin (r : R)
| PInf
| MInf
| NaN.

Definition Rltb (a b : R) : bool := if Rlt_dec a b then true else false.
Definition Reqb (a b : R) : bool := if Req_dec_T a b then true else false.

(** the infinity with the sign of [r], for [r <> 0] *)
Definition inf_of_sign (r : R) : double := if Rltb 0 r then PInf else MInf.

Definition dneg (x : double) : double :=
  match x with
  | Fin r => Fin (- r)
  | PInf => MInf
  | MInf => PInf
  | NaN => NaN
  end.

Definition dadd (x y : double) : double :=
  match x, y with
  | Fin a, Fin b => Fin (a + b)
  | NaN, _ | _, NaN => NaN
  | PInf, MInf | MInf, PInf => NaN
  | PInf, _ | _, PInf => PInf
  | MInf, _ | _, MInf => MInf
  end.

Definition dsub (x y : double) : double := dadd x (dneg y).

Definition dmul (x y : double) : double :=
  match x, y with
  | Fin a, Fin b => Fin (a * b)
  | NaN, _ | _, NaN => NaN
  | Fin a, PInf | PInf, Fin a => if Reqb a 0 then NaN else inf_of_sign a
  | Fin a, MInf | MInf, Fin a => if Reqb a 0 then NaN else inf_of_sign (- a)
  | PInf, PInf | MInf, MInf => PInf
  | PInf, MInf | MInf, PInf => MInf
  end.

Definition ddiv (x y : double) : double :=
  match x, y with
  | Fin a, Fin b =>
      if Reqb b 0 then (if Reqb a 0 then NaN else inf_of_sign a)
      else Fin (a / b)
  | NaN, _ | _, NaN => NaN
  | Fin _, PInf | Fin _, MInf => Fin 0
  | PInf, Fin b => if Rltb b 0 then MInf else PInf
  | MInf, Fin b => if Rltb b 0 then PInf else MInf
  | _, _ => NaN
  end.

(** [fabs], [log], [sqrt], [exp], [floor] and [ceil] of <math.h> *)
Definition dfabs (x : double) : double :=
  match x with
  | Fin r => Fin (Rabs r)
  | PInf | MInf => PInf
  | NaN => NaN
  end.

Definition dlog (x : double) : double :=
  match x with
  | Fin r => if Rltb 0 r then Fin (ln r) else if Reqb r 0 then MInf else NaN
  | PInf => PInf
  | MInf | NaN => NaN
  end.

Definition dsqrt (x : double) : double :=
  match x with
  | Fin r => if Rltb r 0 then NaN else Fin (sqrt r)
  | PInf => PInf
  | MInf | NaN => NaN
  end.

Definition dexp (x : double) : double :=
  match x with
  | Fin r => Fin (exp r)
  | PInf => PInf
  | MInf => Fin 0
  | NaN => NaN
  end.

Definition dfloor (x : double) : double :=
  match x with Fin r => Fin (IZR (Zfloor r)) | _ => x end.

Definition dceil (x : double) : double :=
  match x with Fin r => Fin (IZR (Zceil r)) | _ => x end.

(** the C comparison [x > y]; false as soon as one side is a NaN *)
Definition dgt (x y : double) : bool :=
  match x, y with
  | Fin a, Fin b => Rltb b a
  | NaN, _ | _, NaN => false
  | PInf, PInf | MInf, MInf => false
  | PInf, _ | _, MInf => true
  | MInf, _ | _, PInf => false
  end.

(** the C comparison [x != y] *)
Definition dne (x y : double) : bool :=
  match x, y with
  | Fin a, Fin b => negb (Reqb a b)
  | PInf, PInf | MInf, MInf => false
  | _, _ => true
  end.

(** the conversion [(int)x]: truncation toward zero; undefined on the
    special values ([None]) and, in C, on a value outside the range of
    [int], where the model keeps the integer *)
Definition to_int (x : double) : option Z :=
  match x with
  | Fin r => Some (if Rltb r 0 then Zceil r else Zfloor r)
  | _ => None
  end.

(** the conversion of an [int] to [double] *)
Definition of_int (z : Z) : double := Fin (IZR z).

(** the macros [MAX] and [MIN] of the configuration header, at [double] *)
Definition MAX (x y : double) : double := if dgt x y then x else y.

End Dbl.

Import Dbl.

Declare Scope dbl_scope.
Delimit Scope dbl_scope with dbl.
Infix "+" := dadd : dbl_scope.
Infix "-" := dsub : dbl_scope.
Infix "*" := dmul : dbl_scope.
Infix "/" := ddiv : dbl_scope.
Infix ">?" := dgt (at level 70, no associativity) : dbl_scope.

(** the macros [MAX] and [MIN] at [int] *)
Definition MAXz (x y : Z) : Z := if (x >? y)%Z then x else y.
Definition MINz (x y : Z) : Z := if (x <? y)%Z then x else y.

(** ** The cutoff radius: [gto_rcut] *)

Section Rcut.

Local Open Scope dbl_scope.

(** [static double gto_rcut(double alpha, int l, double c, double log_prec)] *)
Definition gto_rcut (alpha : double) (l : Z) (c log_prec : double) : double :=
  let log_prec := log_prec - Fin 7 in
  let log_c := dlog (dfabs c) in
  let prod := Fin 0 in
  let r := Fin 5 in
  let prod := prod + (log_c - log_prec) in
  if prod >? Fin 0 then dsqrt (prod / alpha) else Fin 0.

(** The estimator as the design document words it: an 8-unit margin on
    [log_prec], then [r = sqrt((log|c| - log_prec) / alpha)] when the
    numerator is positive and 0 otherwise. *)
Definition gto_rcut_margin8 (alpha : double) (l : Z) (c log_prec : double)
  : double :=
  let lhs := dlog (dfabs c) - (log_prec - Fin 8) in
  if lhs >? Fin 0 then dsqrt (lhs / alpha) else Fin 0.

End Rcut.

(** ** Tables, memory and loops *)

Local Open Scope Z_scope.

Definition _LEN_CART : list Z :=
  [1; 3; 6; 10; 15; 21; 28; 36; 45; 55; 66; 78; 91; 105; 120; 136].

Definition _CUM_LEN_CART : list Z :=
  [1; 4; 10; 20; 35; 56; 84; 120; 165; 220; 286; 364; 455; 560; 680; 816].

(** [t[i]] for a constant table.  An index outside the table is undefined
    in C; the model reads 0 there and no property below relies on it. *)
Definition tbl (t : list Z) (i : Z) : Z :=
  if i <? 0 then 0 else nth (Z.to_nat i) t 0.

(** An [int *] argument ([mesh], [shls_slice], [ao_loc], [bas]) is the
    function from index to element. *)
Definition ints := Z -> Z.

Definition ints_of (l : list Z) : ints := tbl l.

(** A buffer of [double]. *)
Definition mem := Z -> double.

Definition upd (m : mem) (p : Z) (v : double) : mem :=
  fun q => if q =? p then v else m q.

Definition mem_of (l : list double) : mem :=
  fun q => if q <? 0 then Fin 0 else nth (Z.to_nat q) l (Fin 0).

Section Loops.

Variable S : Type.

(** [k] iterations of [body] at [i], [i+1], ... *)
Fixpoint iter_up (k : nat) (i : Z) (body : Z -> S -> S) (s : S) : S :=
  match k with
  | O => s
  | Datatypes.S k' => iter_up k' (i + 1) body (body i s)
  end.

(** [k] iterations of [body] at [i], [i-1], ... *)
Fixpoint iter_down (k : nat) (i : Z) (body : Z -> S -> S) (s : S) : S :=
  match k with
  | O => s
  | Datatypes.S k' => iter_down k' (i - 1) body (body i s)
  end.

(** [for (i = lo; i < hi; i++) body] *)
Definition for_lt (lo hi : Z) (body : Z -> S -> S) (s : S) : S :=
  iter_up (Z.to_nat (hi - lo)) lo body s.

(** [for (i = lo; i <= hi; i++) body] *)
Definition for_le (lo hi : Z) (body : Z -> S -> S) (s : S) : S :=
  iter_up (Z.to_nat (hi + 1 - lo)) lo body s.

(** [for (i = hi; i >= lo; i--) body] *)
Definition for_ge (hi lo : Z) (body : Z -> S -> S) (s : S) : S :=
  iter_down (Z.to_nat (hi + 1 - lo)) hi body s.

End Loops.

(** ** The image range and grid slice of one axis: [_cartesian_components] *)

Record axis_slice : Type := {
  nimg0 : Z;  (* img_slice[0] *)
  nimg1 : Z;  (* img_slice[1] *)
  nx0 : Z;    (* grid_slice[0] *)
  nx1 : Z     (* grid_slice[1] *)
}.

(** Lines 104-129 of [_cartesian_components]: what it stores in [img_slice]
    and [grid_slice].  The rest of the function fills the exponential
    tables [xs_exp]; their values enter no property below.  [None] is the
    undefined conversion of an infinity or a NaN to [int]; [%] is C's
    remainder, [Z.rem]. *)
Definition _cartesian_components_slices (periodic : bool) (nx_per_cell : Z)
    (x_frac cutoff heights_inv : double) : option axis_slice :=
  let edge0 := (x_frac - cutoff * heights_inv)%dbl in
  let edge1 := (x_frac + cutoff * heights_inv)%dbl in
  match (if periodic then to_int (dfloor edge0) else Some 0),
        (if periodic then to_int (dceil edge1) else Some 1),
        to_int (dfloor (edge0 * of_int nx_per_cell)%dbl),
        to_int (dceil (edge1 * of_int nx_per_cell)%dbl) with
  | Some nimg0, Some nimg1, Some nx0, Some nx1 =>
      let nx0 :=
        if periodic then Z.rem (nx0 + nimg1 * nx_per_cell) nx_per_cell
        else MAXz (MINz nx0 nx_per_cell) 0 in
      let nx1 :=
        if periodic then Z.rem (nx1 + nimg1 * nx_per_cell) nx_per_cell
        else MAXz (MINz nx1 nx_per_cell) 0 in
      Some {| nimg0 := nimg0; nimg1 := nimg1; nx0 := nx0; nx1 := nx1 |}
  | _, _, _, _ => None
  end.

(** [int nimg = nimg1 - nimg0] *)
Definition nimg (s : axis_slice) : Z := nimg1 s - nimg0 s.

Definition _has_overlap (nx0 nx1 nx_per_cell : Z) : bool := nx0 <? nx1.

(** ** The contraction engine: [GTOnumint_3d_orth] *)

(** The pointers [GTOnumint_3d_orth] carves out of its [cache] argument
    (lines 224-227 and 262-266). *)
Record orth_layout : Type := {
  xs_exp : Z;
  ys_exp : Z;
  zs_exp : Z;
  weightyz : Z;
  weightz : Z
}.

Definition GTOnumint_3d_orth_layout (topl : Z) (mesh : ints) (cache : Z)
  : orth_layout :=
  let xs_exp := cache in
  let ys_exp := xs_exp + (topl + 1) * mesh 0 in
  let zs_exp := ys_exp + (topl + 1) * mesh 1 in
  let cache := zs_exp + (topl + 1) * mesh 2 in
  let l1 := topl + 1 in
  let xcols := mesh 1 * mesh 2 in
  let weightyz := cache in
  let weightz := weightyz + l1 * xcols in
  {| xs_exp := xs_exp; ys_exp := ys_exp; zs_exp := zs_exp;
     weightyz := weightyz; weightz := weightz |}.

(** [f 0 + f 1 + ... + f (k-1)] *)
Fixpoint dsum (k : nat) (f : Z -> double) : double :=
  match k with
  | O => Fin 0
  | Datatypes.S k' => (dsum k' f + f (Z.of_nat k'))%dbl
  end.

(** BLAS [dgemm_] with both transposition flags ['N'], by its contract:
    [C := alpha*A*B + beta*C] for the column-major [m] by [k] matrix at
    [a] (leading dimension [lda]), the [k] by [n] matrix at [b] and the
    [m] by [n] matrix at [c]; with [beta = 0] the old [C] is not read.
    [A] and [B] are read in the memory of the call.  The contract is for
    dimensions that are not negative: [dgemm_] reports a negative [k] as
    an error of the call, where the model has the empty sum. *)
Definition dgemm_NN (m n k : Z) (alpha : double) (a lda b ldb : Z)
    (beta : double) (c ldc : Z) (M : mem) : mem :=
  fun q =>
    let off := q - c in
    let j := off / ldc in
    let i := off mod ldc in
    if (0 <=? off) && (0 <? ldc) && (i <? m) && (j <? n) then
      ((if dne beta (Fin 0) then beta * M q else Fin 0)
       + alpha * dsum (Z.to_nat k)
                   (fun l => M (a + i + l * lda)%Z * M (b + l + j * ldb)%Z))%dbl
    else M q.

Definition D0 : double := Fin 0.
Definition D1 : double := Fin 1.

(** Lines 292-315: the contraction of the y axis, once per x power. *)
Definition GTOnumint_3d_orth_y (topl : Z) (mesh : ints) (L : orth_layout)
    (nimgy ny0 ny1 : Z) (M : mem) : mem :=
  let l1 := topl + 1 in
  let xcols := mesh 1 * mesh 2 in
  let ycols := mesh 2 in
  if nimgy =? 1 then
    let ngridy := ny1 - ny0 in
    for_le 0 topl (fun lx M =>
      dgemm_NN ycols l1 ngridy
               D1 (weightyz L + lx * xcols + ny0 * ycols) ycols
               (ys_exp L + ny0) (mesh 1)
               D0 (weightz L + lx * l1 * ycols) ycols M) M
  else if (nimgy =? 2) && negb (_has_overlap ny0 ny1 (mesh 1)) then
    let ngridy := mesh 1 - ny0 in
    for_le 0 topl (fun lx M =>
      let M :=
        dgemm_NN ycols l1 ny1
                 D1 (weightyz L + lx * xcols) ycols
                 (ys_exp L) (mesh 1)
                 D0 (weightz L + lx * l1 * ycols) ycols M in
      dgemm_NN ycols l1 ngridy
               D1 (weightyz L + lx * xcols + ny0 * ycols) ycols
               (ys_exp L + ny0) (mesh 1)
               D1 (weightz L + lx * l1 * ycols) ycols M) M
  else
    for_le 0 topl (fun lx M =>
      dgemm_NN ycols l1 (mesh 1)
               D1 (weightyz L + lx * xcols) ycols
               (ys_exp L + ny0) (mesh 1)
               D0 (weightz L + lx * l1 * ycols) ycols M) M.

(** The full-range contraction of the y axis as the design document has
    it: for the x power [lx], the y power [ly] and the z index [iz], the
    sum over all [mesh[1]] grid points [iy] of
    [weightyz[lx][iy][iz] * ys_exp[ly*mesh[1]+iy]]. *)
Definition y_contraction_full (topl : Z) (mesh : ints) (L : orth_layout)
    (M : mem) (lx ly iz : Z) : double :=
  let xcols := mesh 1 * mesh 2 in
  let ycols := mesh 2 in
  dsum (Z.to_nat (mesh 1))
       (fun iy => M (weightyz L + lx * xcols + iy * ycols + iz)%Z
                  * M (ys_exp L + ly * mesh 1 + iy)%Z)%dbl.

(** The loop nest of lines 318-320 and 332-334,
    [for (n = 0, l = floorl; l <= topl; l++)
       for (lx = l; lx >= 0; lx--)
         for (ly = l - lx; ly >= 0; ly--, n++) { lz = l - lx - ly; body }],
    over a state [S]; the result carries the final [n]. *)
Definition cart_loop (S : Type) (floorl topl : Z)
    (body : Z -> Z -> Z -> Z -> S -> S) (s : S) : Z * S :=
  for_le floorl topl (fun l =>
    for_ge l 0 (fun lx =>
      for_ge (l - lx) 0 (fun ly (st : Z * S) =>
        let (n, s) := st in
        let lz := l - lx - ly in
        (n + 1, body n lx ly lz s))))
    (0, s).

(** [val = 0; for (i = lo; i < hi; i++) val += pweightz[i] * pz[i];] *)
Definition zdot (M : mem) (pweightz pz lo hi : Z) : double :=
  for_lt lo hi (fun i val => (val + M (pweightz + i)%Z * M (pz + i)%Z)%dbl)
         (Fin 0).

(** One iteration of the loop nest: [out[n] = val]. *)
Definition z_body (out : Z) (topl : Z) (mesh : ints) (L : orth_layout)
    (lo hi : Z) (n lx ly lz : Z) (M : mem) : mem :=
  let l1 := topl + 1 in
  let pz := zs_exp L + lz * mesh 2 in
  let pweightz := weightz L + (lx * l1 + ly) * mesh 2 in
  upd M (out + n) (zdot M pweightz pz lo hi).

(** Lines 317-344: the contraction of the z axis into [out]. *)
Definition GTOnumint_3d_orth_z (out floorl topl : Z) (mesh : ints)
    (L : orth_layout) (nimgz nz0 nz1 : Z) (M : mem) : mem :=
  if nimgz =? 1 then
    snd (cart_loop floorl topl (z_body out topl mesh L nz0 nz1) M)
  else
    snd (cart_loop floorl topl (z_body out topl mesh L 0 (mesh 2)) M).

(** The (lx, ly, lz) triples in the order of the design document: total
    [l] ascending from [floorl] to [topl], then [lx] descending from [l]
    to 0, then [ly] descending from [l - lx] to 0, [lz = l - lx - ly]. *)
Definition zrange_up (lo hi : Z) : list Z :=
  map (fun k => lo + Z.of_nat k) (seq 0 (Z.to_nat (hi + 1 - lo))).

Definition zrange_down (hi : Z) : list Z :=
  map (fun k => hi - Z.of_nat k) (seq 0 (Z.to_nat (hi + 1))).

Definition cart_triples (floorl topl : Z) : list (Z * Z * Z) :=
  flat_map (fun l =>
    flat_map (fun lx =>
      map (fun ly => (lx, ly, l - lx - ly)) (zrange_down (l - lx)))
      (zrange_down l))
    (zrange_up floorl topl).

(** The position of each element of a list, from [n]. *)
Fixpoint numbered (A : Type) (n : Z) (l : list A) : list (Z * A) :=
  match l with
  | [] => []
  | x :: l' => (n, x) :: numbered (n + 1) l'
  end.

(** ** The variant for non-orthogonal lattices: [GTOnumint_3d_nonorth] *)

(** What a call can do to the process: write to [stderr], write to memory,
    and end the process with [exit]. *)
Record process : Type := {
  stderr : string;
  heap : mem
}.

Inductive outcome (A : Type) : Type :=
| Returns (a : A) (p : process)
| Exits (status : Z) (p : process).

Arguments Returns {A} a p.
Arguments Exits {A} status p.

Definition fprintf_stderr (msg : string) (p : process) : process :=
  {| stderr := stderr p ++ msg; heap := heap p |}.

Definition newline : string := String (ascii_of_nat 10) EmptyString.

(** The lattice and the grid: the arguments [a], [b], [mesh] and
    [weights] that every entry point passes on unchanged. *)
Record grid : Type := {
  lat_a : mem;
  lat_b : mem;
  mesh : ints;
  weights : mem
}.

(** The arguments of the two contraction variants. *)
Record orth_args : Type := {
  arg_out : Z;
  arg_floorl : Z;
  arg_topl : Z;
  arg_ai : double;
  arg_aj : double;
  arg_fac : double;
  arg_log_prec : double;
  arg_dimension : Z;
  arg_grid : grid;
  arg_cache : Z
}.

Definition GTOnumint_3d_nonorth (args : orth_args) (p : process)
  : outcome unit :=
  let p := fprintf_stderr ("GTOnumint_3d_nonorth not available" ++ newline) p in
  Exits 1 p.

(** ** The shell-pair environment *)

(** The fields of libcint's [CINTEnvVars] that this file reads.  [ri] and
    [rj] point into [env]. *)
Record CINTEnvVars : Type := {
  shls : ints;
  bas : ints;
  env : mem;
  i_l : Z;
  j_l : Z;
  x_ctr : ints;
  nfi : Z;
  nfj : Z;
  nf : Z;
  ncomp_e1 : Z;
  ncomp_tensor : Z;
  ri : Z;
  rj : Z
}.

(** The slots of [bas] and [atm] and the positions in [ng], from libcint's
    header. *)
Definition BAS_SLOTS := 8.
Definition ATM_SLOTS := 6.
Definition PTR_COORD := 1.
Definition ATOM_OF := 0.
Definition ANG_OF := 1.
Definition NPRIM_OF := 2.
Definition NCTR_OF := 3.
Definition PTR_EXP := 5.
Definition PTR_COEFF := 6.
Definition POS_E1 := 5.
Definition TENSOR := 7.

(** the macros [bas(SLOT, I)] and [atm(SLOT, I)] *)
Definition bas_ (b : ints) (slot i : Z) : Z := b (BAS_SLOTS * i + slot).
Definition atm_ (a : ints) (slot i : Z) : Z := a (ATM_SLOTS * i + slot).

(** libcint's [CINTinit_int1e_EnvVars], for the fields above: the angular
    momenta and contraction counts of the two shells from [bas], the
    numbers of Cartesian functions [(l+1)(l+2)/2] and their product, the
    component counts from [ng], and the centres of the two atoms. *)
Definition CINTinit_int1e_EnvVars (ng : ints) (shls : ints) (atm : ints)
    (natm : Z) (bas : ints) (nbas : Z) (env : mem) : CINTEnvVars :=
  let i_sh := shls 0 in
  let j_sh := shls 1 in
  let i_l := bas_ bas ANG_OF i_sh in
  let j_l := bas_ bas ANG_OF j_sh in
  let nfi := (i_l + 1) * (i_l + 2) / 2 in
  let nfj := (j_l + 1) * (j_l + 2) / 2 in
  {| shls := shls; bas := bas; env := env;
     i_l := i_l; j_l := j_l;
     x_ctr := ints_of [bas_ bas NCTR_OF i_sh; bas_ bas NCTR_OF j_sh];
     nfi := nfi; nfj := nfj; nf := nfi * nfj;
     ncomp_e1 := ng POS_E1; ncomp_tensor := ng TENSOR;
     ri := atm_ atm PTR_COORD (bas_ bas ATOM_OF i_sh);
     rj := atm_ atm PTR_COORD (bas_ bas ATOM_OF j_sh) |}.

(** libcint's [CINTsquare_dist]: the squared distance of two points. *)
Definition CINTsquare_dist (e : mem) (r1 r2 : Z) : double :=
  let d := fun k => (e (r1 + k)%Z - e (r2 + k)%Z)%dbl in
  (d 0 * d 0 + d 1 * d 1 + d 2 * d 2)%dbl.

(** ** Contraction over primitives: [GTOnumint1e_loop] *)

Definition EXPCUTOFF15 : double := Fin 40.
Definition OF_CMPLX := 2.
Definition PLAIN := 0.
Definition HERMITIAN := 1.
Definition ANTIHERMI := 2.
Definition SYMMETRIC := 3.

(** [plain_prim_to_ctr]; [coeff] points into [e]. *)
Definition plain_prim_to_ctr (gc nf gp nprim nctr : Z) (e : mem) (coeff : Z)
    (empty : bool) (M : mem) : mem :=
  if empty then
    snd (for_lt 0 nctr (fun n (st : Z * mem) =>
           let (gc, M) := st in
           let c := e (coeff + nprim * n) in
           let M := for_lt 0 nf (fun i M =>
                      upd M (gc + i) (M (gp + i)%Z * c)%dbl) M in
           (gc + nf, M))
         (gc, M))
  else
    snd (for_lt 0 nctr (fun n (st : Z * mem) =>
           let (gc, M) := st in
           let c := e (coeff + nprim * n) in
           let M :=
             if dne c (Fin 0) then
               for_lt 0 nf (fun i M =>
                 upd M (gc + i) (M (gc + i)%Z + M (gp + i)%Z * c)%dbl) M
             else M in
           (gc + nf, M))
         (gc, M)).

Definition max_pgto_coeff (e : mem) (coeff nprim nctr prim_id : Z) : double :=
  for_lt 0 nctr (fun i maxc => MAX maxc (dfabs (e (coeff + i * nprim + prim_id))))
         (Fin 0).

(** The pointers [GTOnumint1e_loop] carves out of its [cache] argument
    (lines 424-433); [cache_rest] is [cache] after line 433. *)
Record loop_layout : Type := {
  len_g1d : Z;
  gctrj : Z;
  gctri : Z;
  g : Z;
  log_iprim_max : Z;
  log_jprim_max : Z;
  cache_rest : Z
}.

Definition GTOnumint1e_loop_layout (envs : CINTEnvVars) (cache : Z)
  : loop_layout :=
  let i_sh := shls envs 0 in
  let j_sh := shls envs 1 in
  let i_ctr := x_ctr envs 0 in
  let j_ctr := x_ctr envs 1 in
  let i_prim := bas_ (bas envs) NPRIM_OF i_sh in
  let j_prim := bas_ (bas envs) NPRIM_OF j_sh in
  let offset_g1d := tbl _CUM_LEN_CART (i_l envs) - tbl _LEN_CART (i_l envs) in
  let len_g1d := tbl _CUM_LEN_CART (i_l envs + j_l envs) - offset_g1d in
  let leni := len_g1d * i_ctr in
  let lenj := len_g1d * i_ctr * j_ctr in
  let gctrj := cache in
  let gctri := gctrj + lenj in
  let g := gctri + leni in
  let log_iprim_max := g + len_g1d in
  let log_jprim_max := log_iprim_max + i_prim in
  {| len_g1d := len_g1d; gctrj := gctrj; gctri := gctri; g := g;
     log_iprim_max := log_iprim_max; log_jprim_max := log_jprim_max;
     cache_rest := cache + lenj + leni + len_g1d + i_prim + j_prim |}.

(** libcint's [CINTcommon_fac_sp]. *)
Definition CINTcommon_fac_sp (l : Z) : double :=
  if l =? 0 then Fin 0.282094791773878143
  else if l =? 1 then Fin 0.488602511902919921
  else Fin 1.

(** The screening of one primitive pair (lines 450-453): [eij], [logcc]
    and the test [eij - logcc > EXPCUTOFF15]. *)
Definition prim_eij (envs : CINTEnvVars) (ip jp : Z) : double :=
  let e := env envs in
  let ai := bas_ (bas envs) PTR_EXP (shls envs 0) in
  let aj := bas_ (bas envs) PTR_EXP (shls envs 1) in
  let rrij := CINTsquare_dist e (ri envs) (rj envs) in
  let aij := (e (ai + ip)%Z + e (aj + jp)%Z)%dbl in
  ((e (ai + ip)%Z * e (aj + jp)%Z / aij) * rrij)%dbl.

Definition prim_logcc (L : loop_layout) (M : mem) (ip jp : Z) : double :=
  (M (log_iprim_max L + ip)%Z + M (log_jprim_max L + jp)%Z)%dbl.

Definition screened (envs : CINTEnvVars) (L : loop_layout) (M : mem)
    (ip jp : Z) : bool :=
  (prim_eij envs ip jp - prim_logcc L M ip jp >? EXPCUTOFF15)%dbl.

(** Lines 435-440: the tables of the logarithms of the largest
    coefficient magnitude of each primitive. *)
Definition log_prim_tables (envs : CINTEnvVars) (L : loop_layout) (M : mem)
  : mem :=
  let e := env envs in
  let i_sh := shls envs 0 in
  let j_sh := shls envs 1 in
  let i_ctr := x_ctr envs 0 in
  let j_ctr := x_ctr envs 1 in
  let i_prim := bas_ (bas envs) NPRIM_OF i_sh in
  let j_prim := bas_ (bas envs) NPRIM_OF j_sh in
  let ci := bas_ (bas envs) PTR_COEFF i_sh in
  let cj := bas_ (bas envs) PTR_COEFF j_sh in
  let M := for_lt 0 i_prim (fun ip M =>
             upd M (log_iprim_max L + ip)
                 (dlog (max_pgto_coeff e ci i_prim i_ctr ip))) M in
  for_lt 0 j_prim (fun jp M =>
    upd M (log_jprim_max L + jp)
        (dlog (max_pgto_coeff e cj j_prim j_ctr jp))) M.

Record state : Type := {
  cachem : mem;  (* the scratch buffer [cache] *)
  outm : mem     (* the buffer of the result, [out] or [mat] *)
}.

Inductive c2s_fn : Type := c2s_sph_1e | c2s_cart_1e.

Definition c2s_fn_eqb (f1 f2 : c2s_fn) : bool :=
  match f1, f2 with
  | c2s_sph_1e, c2s_sph_1e | c2s_cart_1e, c2s_cart_1e => true
  | _, _ => false
  end.

Section ShellPair.

(** The callees that are not part of this file: the contraction engine as
    a whole (its stages are above), the recurrence of ft_ao and the two
    transformations of libcint. *)
Variable GTOnumint_3d_orth : orth_args -> CINTEnvVars -> mem -> mem.
Variable GTOplain_vrr2d : Z -> Z -> Z -> CINTEnvVars -> mem -> mem.
Variable c2s_call :
  c2s_fn -> Z -> Z -> ints -> CINTEnvVars -> Z -> state -> state.

(** The body of the loop over [ip] (lines 449-464); the state is
    [*iempty] and the cache. *)
Definition loop_ip_body (fac1 log_prec : double) (dimension : Z) (G : grid)
    (envs : CINTEnvVars) (L : loop_layout) (jp ip : Z) (st : bool * mem)
  : bool * mem :=
  let (iempty, M) := st in
  let e := env envs in
  let i_sh := shls envs 0 in
  let j_sh := shls envs 1 in
  let i_ctr := x_ctr envs 0 in
  let i_prim := bas_ (bas envs) NPRIM_OF i_sh in
  let ai := bas_ (bas envs) PTR_EXP i_sh in
  let aj := bas_ (bas envs) PTR_EXP j_sh in
  let ci := bas_ (bas envs) PTR_COEFF i_sh in
  let eij := prim_eij envs ip jp in
  let logcc := prim_logcc L M ip jp in
  if screened envs L M ip jp then (iempty, M)
  else
    let fac1i := (fac1 * dexp (dneg eij))%dbl in
    let M := GTOnumint_3d_orth
               {| arg_out := g L; arg_floorl := i_l envs;
                  arg_topl := i_l envs + j_l envs;
                  arg_ai := e (ai + ip); arg_aj := e (aj + jp);
                  arg_fac := fac1i; arg_log_prec := (logcc + log_prec)%dbl;
                  arg_dimension := dimension; arg_grid := G;
                  arg_cache := cache_rest L |} envs M in
    let M := plain_prim_to_ctr (gctri L) (len_g1d L) (g L) i_prim i_ctr
                               e (ci + ip) iempty M in
    (false, M).

(** The body of the loop over [jp] (lines 447-470); the state is
    [*jempty] and the cache. *)
Definition loop_jp_body (fac1 log_prec : double) (dimension : Z) (G : grid)
    (envs : CINTEnvVars) (L : loop_layout) (jp : Z) (st : bool * mem)
  : bool * mem :=
  let (jempty, M) := st in
  let e := env envs in
  let i_sh := shls envs 0 in
  let j_sh := shls envs 1 in
  let i_ctr := x_ctr envs 0 in
  let j_ctr := x_ctr envs 1 in
  let i_prim := bas_ (bas envs) NPRIM_OF i_sh in
  let j_prim := bas_ (bas envs) NPRIM_OF j_sh in
  let cj := bas_ (bas envs) PTR_COEFF j_sh in
  let (iempty, M) :=
    for_lt 0 i_prim (loop_ip_body fac1 log_prec dimension G envs L jp)
           (true, M) in
  if negb iempty then
    (false, plain_prim_to_ctr (gctrj L) (i_ctr * len_g1d L) (gctri L)
                              j_prim j_ctr e (cj + jp) jempty M)
  else (jempty, M).

(** [GTOnumint1e_loop]; [out] points into the cache buffer, as it does for
    the only caller.  The result is the returned flag and the cache. *)
Definition GTOnumint1e_loop (out : Z) (fac log_prec : double) (dimension : Z)
    (G : grid) (envs : CINTEnvVars) (cache : Z) (M : mem) : bool * mem :=
  let i_ctr := x_ctr envs 0 in
  let j_ctr := x_ctr envs 1 in
  let j_prim := bas_ (bas envs) NPRIM_OF (shls envs 1) in
  let L := GTOnumint1e_loop_layout envs cache in
  let cache := cache_rest L in
  let M := log_prim_tables envs L M in
  let fac1 := (fac * CINTcommon_fac_sp (i_l envs)
               * CINTcommon_fac_sp (j_l envs))%dbl in
  let (jempty, M) :=
    for_lt 0 j_prim (loop_jp_body fac1 log_prec dimension G envs L)
           (true, M) in
  let M :=
    if negb jempty then
      for_lt 0 (i_ctr * j_ctr) (fun n M =>
        GTOplain_vrr2d (out + n * nf envs) (gctrj L + n * len_g1d L)
                       cache envs M) M
    else M in
  (negb jempty, M).

(** ** The shell-pair driver and the size of its scratch buffer *)

(** the conversions to [size_t] and from [size_t] to [int] *)
Definition size_t (x : Z) : Z := x mod 2 ^ 64.
Definition int_of_size_t (x : Z) : Z := (x + 2 ^ 31) mod 2 ^ 32 - 2 ^ 31.

Definition _cache_size (mesh : ints) (envs : CINTEnvVars) : Z :=
  let i_ctr := x_ctr envs 0 in
  let j_ctr := x_ctr envs 1 in
  let n_comp := ncomp_e1 envs * ncomp_tensor envs in
  let nc := size_t (nf envs * i_ctr * j_ctr) in
  let l := i_l envs + j_l envs in
  let l1 := l + 1 in
  let cache_size := 0 in
  let cache_size :=
    size_t (cache_size
            + size_t (tbl _CUM_LEN_CART l * (1 + i_ctr + i_ctr * j_ctr))) in
  let cache_size :=
    size_t (cache_size + size_t (l1 * (mesh 0 + mesh 1 + mesh 2))) in
  let cache_size := size_t (cache_size + size_t (l1 * mesh 1 * mesh 2)) in
  let cache_size := size_t (cache_size + size_t (l1 * l1 * mesh 2)) in
  let cache_size := size_t (cache_size + 20) in
  int_of_size_t
    (size_t (size_t (nc * size_t n_comp)
             + MAXz cache_size (size_t (nf envs * 8 * OF_CMPLX)))).

(** [GTO_numint1e_drv]; [out = None] is the call with [out == NULL], and
    [dims = None] the call with [dims == NULL]. *)
Definition GTO_numint1e_drv (out : option Z) (dims : option ints)
    (f_c2s : c2s_fn) (fac log_prec : double) (dimension : Z) (G : grid)
    (envs : CINTEnvVars) (cache : Z) (st : state) : Z * state :=
  match out with
  | None => (_cache_size (mesh G) envs, st)
  | Some out =>
      let i_ctr := x_ctr envs 0 in
      let j_ctr := x_ctr envs 1 in
      let n_comp := ncomp_e1 envs * ncomp_tensor envs in
      let nc := nf envs * i_ctr * j_ctr in
      let gctr := cache in
      let cache := cache + nc * n_comp in
      let (has_value, M) :=
        GTOnumint1e_loop gctr fac log_prec dimension G envs cache
                         (cachem st) in
      let M :=
        if negb has_value then
          for_lt 0 (nc * n_comp) (fun n M => upd M (gctr + n) (Fin 0)) M
        else M in
      let counts :=
        if c2s_fn_eqb f_c2s c2s_sph_1e then
          ints_of [(i_l envs * 2 + 1) * i_ctr; (j_l envs * 2 + 1) * j_ctr]
        else
          ints_of [nfi envs * i_ctr; nfj envs * j_ctr] in
      let dims := match dims with None => counts | Some d => d end in
      let nout := dims 0 * dims 1 in
      let st := {| cachem := M; outm := outm st |} in
      let st :=
        if has_value then
          for_lt 0 n_comp (fun n st =>
            c2s_call f_c2s (out + nout * n) (gctr + nc * n) dims envs
                     cache st) st
        else st in
      ((if has_value then 1 else 0), st)
  end.

(** The basis: the arguments [atm], [natm], [bas], [nbas] and [env]. *)
Record basis : Type := {
  b_atm : ints;
  b_natm : Z;
  b_bas : ints;
  b_nbas : Z;
  b_env : mem
}.

Definition ng_ovlp : ints := ints_of [0; 0; 0; 0; 0; 1; 0; 1].

Definition NUMINT1e_ovlp_cart (out : option Z) (dims : option ints)
    (shls : ints) (B : basis) (log_prec : double) (dimension : Z) (G : grid)
    (cache : Z) (st : state) : Z * state :=
  let envs := CINTinit_int1e_EnvVars ng_ovlp shls (b_atm B) (b_natm B)
                                     (b_bas B) (b_nbas B) (b_env B) in
  GTO_numint1e_drv out dims c2s_cart_1e (Fin 1) log_prec dimension G
                   envs cache st.

Definition NUMINT1e_ovlp_sph (out : option Z) (dims : option ints)
    (shls : ints) (B : basis) (log_prec : double) (dimension : Z) (G : grid)
    (cache : Z) (st : state) : Z * state :=
  let envs := CINTinit_int1e_EnvVars ng_ovlp shls (b_atm B) (b_natm B)
                                     (b_bas B) (b_nbas B) (b_env B) in
  GTO_numint1e_drv out dims c2s_sph_1e (Fin 1) log_prec dimension G
                   envs cache st.

End ShellPair.

(** ** The matrix of all shell pairs: [NUMINT1e_fill2c] *)

(** The type of the argument [intor]: [NUMINT1e_ovlp_cart] and
    [NUMINT1e_ovlp_sph] once their callees are fixed. *)
Definition intor_t : Type :=
  option Z -> option ints -> ints -> basis -> double -> Z -> grid -> Z ->
  state -> Z * state.

(** [_max_cache_size]: the sizing call [intor(NULL, NULL, shls, ...)] on
    the pairs (i, i). *)
Definition _max_cache_size (intor : intor_t) (shls_slice : ints) (B : basis)
    (G : grid) (st : state) : Z * state :=
  let i0 := MINz (shls_slice 0) (shls_slice 2) in
  let i1 := MAXz (shls_slice 1) (shls_slice 3) in
  for_lt i0 i1 (fun i (acc : Z * state) =>
    let (cache_size, st) := acc in
    let shls := ints_of [i; i] in
    let (n, st) := intor None None shls B (Fin 0) 3 G 0 st in
    (MAXz cache_size n, st))
    (0, st).

(** Modelled from the spec: [NPdsymm_triu] of np_helper is not part of this
    file.  The design document has the fill "mirror into the lower
    triangle using the matching symmetry (symmetric copy or antisymmetric
    negation)": with M[i,j] the element at [mat + j*n + i], where the
    fill stores the pair block (i, j), every M[i,j] with i > j becomes
    M[j,i] for HERMITIAN and SYMMETRIC and -M[j,i] for ANTIHERMI. *)
Definition NPdsymm_triu (n : Z) (mat : Z) (hermi : Z) (M : mem) : mem :=
  fun q =>
    let off := q - mat in
    let i := off mod n in
    let j := off / n in
    if (0 <=? off) && (off <? n * n) && (j <? i) then
      let mirrored := M (mat + i * n + j) in
      if (hermi =? HERMITIAN) || (hermi =? SYMMETRIC) then mirrored
      else if hermi =? ANTIHERMI then dneg mirrored
      else M q
    else M q.

(** The loop over the shell pairs (lines 613-629) for any action [call] on
    the pairs it does not skip; [/] and [%] are C's, [Z.quot] and
    [Z.rem].  The iterations are independent and are run in the order of
    [ij]. *)
Definition fill2c_pairs (S : Type) (hermi : Z) (shls_slice : ints)
    (call : Z -> Z -> S -> S) (s : S) : S :=
  let ish0 := shls_slice 0 in
  let ish1 := shls_slice 1 in
  let jsh0 := shls_slice 2 in
  let jsh1 := shls_slice 3 in
  let nish := ish1 - ish0 in
  let njsh := jsh1 - jsh0 in
  for_lt 0 (nish * njsh) (fun ij s =>
    let ish := Z.quot ij njsh in
    let jsh := Z.rem ij njsh in
    if negb (hermi =? PLAIN) && (ish >? jsh) then s
    else
      let ish := ish + ish0 in
      let jsh := jsh + jsh0 in
      call ish jsh s) s.

(** The call of the integral kernel for one pair (lines 623-628). *)
Definition fill2c_call (intor : intor_t) (mat : Z) (shls_slice ao_loc : ints)
    (log_prec : double) (dimension : Z) (G : grid) (B : basis) (cache : Z)
    (ish jsh : Z) (st : state) : state :=
  let ish0 := shls_slice 0 in
  let ish1 := shls_slice 1 in
  let jsh0 := shls_slice 2 in
  let jsh1 := shls_slice 3 in
  let naoi := ao_loc ish1 - ao_loc ish0 in
  let naoj := ao_loc jsh1 - ao_loc jsh0 in
  let dims := ints_of [naoi; naoj] in
  let shls := ints_of [ish; jsh] in
  let i0 := ao_loc ish - ao_loc ish0 in
  let j0 := ao_loc jsh - ao_loc jsh0 in
  snd (intor (Some (mat + j0 * naoi + i0)) (Some dims) shls B
             log_prec dimension G cache st).

(** The parallel region of [NUMINT1e_fill2c] (lines 603-631); the scratch
    buffer of a worker is the cache of the state, at offset 0. *)
Definition fill2c_kernels (intor : intor_t) (mat : Z) (hermi : Z)
    (shls_slice ao_loc : ints) (log_prec : double) (dimension : Z)
    (G : grid) (B : basis) (st : state) : state :=
  let (cache_size, st) := _max_cache_size intor shls_slice B G st in
  let cache := 0 in
  fill2c_pairs hermi shls_slice
    (fill2c_call intor mat shls_slice ao_loc log_prec dimension G B cache)
    st.

(** The mirror of lines 632-637. *)
Definition fill2c_mirror (mat comp hermi naoi : Z) (st : state) : state :=
  if negb (hermi =? PLAIN) then
    for_lt 0 comp (fun ic st =>
      {| cachem := cachem st;
         outm := NPdsymm_triu naoi (mat + ic * naoi * naoi) hermi (outm st) |})
      st
  else st.

Definition NUMINT1e_fill2c (intor : intor_t) (mat : Z) (comp hermi : Z)
    (shls_slice ao_loc : ints) (log_prec : double) (dimension : Z)
    (G : grid) (B : basis) (st : state) : state :=
  let ish0 := shls_slice 0 in
  let ish1 := shls_slice 1 in
  let naoi := ao_loc ish1 - ao_loc ish0 in
  let st := fill2c_kernels intor mat hermi shls_slice ao_loc log_prec
                           dimension G B st in
  fill2c_mirror mat comp hermi naoi st.

(** The pairs for which [NUMINT1e_fill2c] calls the kernel, in order. *)
Definition fill2c_calls (hermi : Z) (shls_slice : ints) : list (Z * Z) :=
  fill2c_pairs hermi shls_slice (fun ish jsh l => l ++ [(ish, jsh)]) [].

(** The element M[i,j] of component [ic] of the result matrix. *)
Definition mat_elt (st : state) (mat naoi ic i j : Z) : double :=
  outm st (mat + ic * naoi * naoi + j * naoi + i).

(** ** Inputs of the examples and notions of the statements *)

(** One step of the loop nest on the triple [t], and the store number [n]
    of a numbered triple. *)
Definition cart_step (S : Type) (body : Z -> Z -> Z -> Z -> S -> S)
    (st : Z * S) (t : Z * Z * Z) : Z * S :=
  let (n, s) := st in
  let '(lx, ly, lz) := t in
  (n + 1, body n lx ly lz s).

Definition cart_store (S : Type) (body : Z -> Z -> Z -> Z -> S -> S)
    (s : S) (w : Z * (Z * Z * Z)) : S :=
  let '(n, (lx, ly, lz)) := w in body n lx ly lz s.

(** The number of the triples against the length [len_g1d] that
    [GTOnumint1e_loop] gives the buffer [g]. *)
Definition count_agrees (floorl topl : Z) : bool :=
  Z.of_nat (List.length (cart_triples floorl topl))
  =? tbl _CUM_LEN_CART topl - (tbl _CUM_LEN_CART floorl - tbl _LEN_CART floorl).

(** An input of the contraction of the y axis: one power ([topl = 0]),
    the mesh (1, 2, 1), the cache at offset 0, and the cache contents
    [xs_exp = {1}], [ys_exp = {2, 3}], [zs_exp = {5}],
    [weightyz = {1, 1}], [weightz = {0}]. *)
Definition mesh_121 : ints := ints_of [1; 2; 1].
Definition layout_121 : orth_layout := GTOnumint_3d_orth_layout 0 mesh_121 0.
Definition cache_121 : mem :=
  mem_of [Fin 1; Fin 2; Fin 3; Fin 5; Fin 1; Fin 1; Fin 0].

(** A shell pair with 22 primitives: one atom with one s shell of 11
    primitives and one contraction, paired with itself, on the mesh
    (2, 2, 2); every element of [env] is 1. *)
Definition atm_one : ints := ints_of [0; 0; 0; 0; 0; 0].
Definition bas_s11 : ints := ints_of [0; 0; 11; 1; 0; 3; 14; 0].
Definition mesh_222 : ints := ints_of [2; 2; 2].
Definition grid_222 : grid :=
  {| lat_a := fun _ => Fin 1; lat_b := fun _ => Fin 1;
     mesh := mesh_222; weights := fun _ => Fin 1 |}.
Definition envs_s11 : CINTEnvVars :=
  CINTinit_int1e_EnvVars ng_ovlp (ints_of [0; 0]) atm_one 1 bas_s11 1
                         (fun _ => Fin 1).

(** The layout of the execution path for a pair: [GTO_numint1e_drv] gives
    the first [nc * n_comp] elements of the cache to [gctr],
    [GTOnumint1e_loop] lays its buffers out after them and hands the rest
    to [GTOnumint_3d_orth]. *)
Definition drv_loop_layout (envs : CINTEnvVars) (cache : Z) : loop_layout :=
  let nc := nf envs * x_ctr envs 0 * x_ctr envs 1 in
  let n_comp := ncomp_e1 envs * ncomp_tensor envs in
  GTOnumint1e_loop_layout envs (cache + nc * n_comp).

Definition drv_orth_layout (mesh : ints) (envs : CINTEnvVars) (cache : Z)
  : orth_layout :=
  GTOnumint_3d_orth_layout (i_l envs + j_l envs) mesh
                           (cache_rest (drv_loop_layout envs cache)).

(** Two shells of different kinds: an s shell of 8 primitives and 8
    contractions (shell 0) and a p shell of 2 primitives and 2
    contractions (shell 1); the slice is the block of shell 0 against
    shell 1, and [envs_s8_p2] the environment of that pair. *)
Definition bas_s8_p2 : ints :=
  ints_of [0; 0; 8; 8; 0; 3; 11; 0;
           0; 1; 2; 2; 0; 3; 11; 0].
Definition basis_s8_p2 : basis :=
  {| b_atm := atm_one; b_natm := 1; b_bas := bas_s8_p2; b_nbas := 2;
     b_env := fun _ => Fin 1 |}.
Definition slice_0_1 : ints := ints_of [0; 1; 1; 2].
Definition envs_s8_p2 : CINTEnvVars :=
  CINTinit_int1e_EnvVars ng_ovlp (ints_of [0; 1]) atm_one 1 bas_s8_p2 2
                         (fun _ => Fin 1).

(** Every primitive pair of the shell pair fails the test of line 453,
    with the tables of logarithms in [M]. *)
Definition all_screened (envs : CINTEnvVars) (L : loop_layout) (M : mem)
  : Prop :=
  forall ip jp,
    0 <= ip < bas_ (bas envs) NPRIM_OF (shls envs 0) ->
    0 <= jp < bas_ (bas envs) NPRIM_OF (shls envs 1) ->
    screened envs L M ip jp = true.

(** A shell pair that is screened out: two atoms at a distance of 10, an
    s shell with one primitive of exponent 1 and coefficient 1 on each;
    the block of the result holds 7 before the call. *)
Definition atm_two : ints := ints_of [0; 0; 0; 0; 0; 0;  0; 3; 0; 0; 0; 0].
Definition bas_two_s : ints :=
  ints_of [0; 0; 1; 1; 0; 6; 7; 0;
           1; 0; 1; 1; 0; 6; 7; 0].
Definition env_two_s : mem :=
  mem_of [Fin 0; Fin 0; Fin 0;  Fin 10; Fin 0; Fin 0;  Fin 1;  Fin 1].
Definition basis_two_s : basis :=
  {| b_atm := atm_two; b_natm := 2; b_bas := bas_two_s; b_nbas := 2;
     b_env := env_two_s |}.
Definition envs_two_s : CINTEnvVars :=
  CINTinit_int1e_EnvVars ng_ovlp (ints_of [0; 1]) atm_two 2 bas_two_s 2
                         env_two_s.
Definition state_sevens : state :=
  {| cachem := fun _ => Fin 7; outm := fun _ => Fin 7 |}.

(** A kernel that stores 1 in the first element of the block it is given
    and asks for no scratch. *)
Definition intor_one : intor_t :=
  fun out dims shls B log_prec dimension G cache st =>
    match out with
    | None => (0, st)
    | Some o => (1, {| cachem := cachem st; outm := upd (outm st) o (Fin 1) |})
    end.


(** * The rest of the contraction engine

    The parts of [GTOnumint_3d_orth] and [_cartesian_components] that the
    definitions above leave aside: the x stage, the tables of the
    Gaussians and their powers, the sum over the images, and the engine
    as the composition of the tables and the three stages. *)

(** ** The contraction of the x axis *)

(** [dgemm_] as in [dgemm_NN], for a call whose matrix [A] lies in the
    buffer [W] of the weights, which no call writes; as there, the
    contract is for [k >= 0]. *)
Definition dgemm_NN_weights (W : mem) (m n k : Z) (alpha : double)
    (a lda b ldb : Z) (beta : double) (c ldc : Z) (M : mem) : mem :=
  fun q =>
    let off := q - c in
    let j := off / ldc in
    let i := off mod ldc in
    if (0 <=? off) && (0 <? ldc) && (i <? m) && (j <? n) then
      ((if dne beta (Fin 0) then beta * M q else Fin 0)
       + alpha * dsum (Z.to_nat k)
                   (fun l => W (a + i + l * lda)%Z * M (b + l + j * ldb)%Z))%dbl
    else M q.

(** Lines 273-290: the contraction of the x axis; [W] is the buffer at
    [weights]. *)
Definition GTOnumint_3d_orth_x (fac : double) (topl : Z) (mesh : ints)
    (W : mem) (L : orth_layout) (nimgx nx0 nx1 : Z) (M : mem) : mem :=
  let l1 := topl + 1 in
  let xcols := mesh 1 * mesh 2 in
  if nimgx =? 1 then
    let ngridx := nx1 - nx0 in
    dgemm_NN_weights W xcols l1 ngridx
                     fac (nx0 * xcols) xcols (xs_exp L + nx0) (mesh 0)
                     D0 (weightyz L) xcols M
  else if (nimgx =? 2) && negb (_has_overlap nx0 nx1 (mesh 0)) then
    let M :=
      dgemm_NN_weights W xcols l1 nx1
                       fac 0 xcols (xs_exp L) (mesh 0)
                       D0 (weightyz L) xcols M in
    let ngridx := mesh 0 - nx0 in
    dgemm_NN_weights W xcols l1 ngridx
                     fac (nx0 * xcols) xcols (xs_exp L + nx0) (mesh 0)
                     D1 (weightyz L) xcols M
  else
    dgemm_NN_weights W xcols l1 (mesh 0)
                     fac 0 xcols (xs_exp L) (mesh 0)
                     D0 (weightyz L) xcols M.

(** ** The tables of one axis: lines 131-190 of [_cartesian_components] *)

(** Lines 148-162: the Gaussian at the grid points of the images, by the
    recurrence from the grid point [g = grid_close_to_xij] upward and
    downward; the state of each loop is the memory and [exp_x0]. *)
Definition _cartesian_components_gaussians (xs_all g nmx : Z)
    (aij x0xij dx : double) (M : mem) : mem :=
  let exp_dxdx := dexp (dneg aij * dx * dx)%dbl in
  let exp_2dxdx := (exp_dxdx * exp_dxdx)%dbl in
  let exp_x0 := (dexp (Fin (-2) * aij * x0xij * dx) * exp_dxdx)%dbl in
  let M := upd M (xs_all + g) (dexp (dneg aij * x0xij * x0xij)%dbl) in
  let M :=
    fst (for_lt (g + 1) nmx (fun i (st : mem * double) =>
           let (M, exp_x0) := st in
           (upd M (xs_all + i) (M (xs_all + (i - 1))%Z * exp_x0)%dbl,
            (exp_x0 * exp_2dxdx)%dbl))
         (M, exp_x0)) in
  let exp_x0 := (dexp (Fin 2 * aij * x0xij * dx) * exp_dxdx)%dbl in
  fst (for_ge (g - 1) 0 (fun i (st : mem * double) =>
         let (M, exp_x0) := st in
         (upd M (xs_all + i) (M (xs_all + (i + 1))%Z * exp_x0)%dbl,
          (exp_x0 * exp_2dxdx)%dbl))
       (M, exp_x0)).

(** Lines 165-174, the body of [if (topl > 0)]: the grid positions from
    the centre of the shell, and the rows of the powers 1..topl. *)
Definition _cartesian_components_powers (xs_all gridx nmx topl : Z)
    (x0xi dx : double) (M : mem) : mem :=
  let M :=
    for_lt 0 nmx (fun i M =>
      upd M (gridx + i) (x0xi + of_int i * dx)%dbl) M in
  for_le 1 topl (fun l M =>
    let px0 := xs_all + (l - 1) * nmx in
    for_lt 0 nmx (fun i M =>
      upd M (px0 + nmx + i) (M (px0 + i)%Z * M (gridx + i)%Z)%dbl) M) M.

(** Lines 178-189, the body of [if (periodic)]: the images of every
    power are added up into the cell. *)
Definition _cartesian_components_fold (xs_exp xs_all nx_per_cell nimg nmx
    topl : Z) (M : mem) : mem :=
  for_le 0 topl (fun l M =>
    let px0 := xs_all + l * nmx in
    let M :=
      for_lt 0 nx_per_cell (fun i M =>
        upd M (xs_exp + i) (M (px0 + i)%Z)) M in
    for_lt 1 nimg (fun m M =>
      let px0 := xs_all + l * nmx + m * nx_per_cell in
      for_lt 0 nx_per_cell (fun i M =>
        upd M (xs_exp + l * nx_per_cell + i)
            (M (xs_exp + l * nx_per_cell + i)%Z + M (px0 + i)%Z)%dbl) M) M) M.

(** [_cartesian_components]: the slices and the memory with the tables;
    [a0] is [*a].  [None] is an undefined conversion to [int]. *)
Definition _cartesian_components (xs_exp : Z) (a0 xi xij aij : double)
    (periodic : bool) (nx_per_cell topl : Z)
    (x_frac cutoff heights_inv : double) (cache : Z) (M : mem)
  : option (axis_slice * mem) :=
  match _cartesian_components_slices periodic nx_per_cell x_frac cutoff
                                     heights_inv,
        to_int (x_frac * of_int nx_per_cell)%dbl with
  | Some s, Some grid_close_to_xij =>
      let nimg := nimg1 s - nimg0 s in
      let nmx := nimg * nx_per_cell in
      let gridx := cache in
      let xs_all := if periodic then cache + nimg * nx_per_cell else xs_exp in
      let img0_x := (a0 * of_int (nimg0 s))%dbl in
      let dx := (a0 / of_int nx_per_cell)%dbl in
      let base_x := (img0_x + dx * of_int grid_close_to_xij)%dbl in
      let x0xij := (base_x - xij)%dbl in
      let M := _cartesian_components_gaussians xs_all grid_close_to_xij nmx
                                               aij x0xij dx M in
      let M :=
        if 0 <? topl then
          let x0xi := (img0_x - xi)%dbl in
          _cartesian_components_powers xs_all gridx nmx topl x0xi dx M
        else M in
      let M :=
        if periodic then
          _cartesian_components_fold xs_exp xs_all nx_per_cell nimg nmx
                                     topl M
        else M in
      Some (s, M)
  | _, _ => None
  end.

(** ** The contraction engine as a whole *)

(** [GTOnumint_3d_orth]: the centre of the pair and the cutoff radius
    (lines 202-222), the three tables (lines 224-239) and the three
    stages.  The result buffer [out] is in the same memory as the cache,
    as it is for the only caller.  [None] is an undefined conversion to
    [int] in [_cartesian_components]. *)
Definition GTOnumint_3d_orth (args : orth_args) (envs : CINTEnvVars)
    (M : mem) : option mem :=
  let topl := arg_topl args in
  let ai := arg_ai args in
  let aj := arg_aj args in
  let fac := arg_fac args in
  let dimension := arg_dimension args in
  let a := lat_a (arg_grid args) in
  let b := lat_b (arg_grid args) in
  let mesh := mesh (arg_grid args) in
  let aij := (ai + aj)%dbl in
  let ri := fun k => env envs (ri envs + k) in
  let rj := fun k => env envs (rj envs + k) in
  let rij := fun k => ((ai * ri k + aj * rj k) / aij)%dbl in
  let cutoff := gto_rcut aij topl fac (arg_log_prec args) in
  let x_frac := (rij 0 * b 0)%dbl in
  let y_frac := (rij 1 * b 4)%dbl in
  let z_frac := (rij 2 * b 8)%dbl in
  let xheights_inv := b 0 in
  let yheights_inv := b 4 in
  let zheights_inv := b 8 in
  let L := GTOnumint_3d_orth_layout topl mesh (arg_cache args) in
  let cache := zs_exp L + (topl + 1) * mesh 2 in
  match _cartesian_components (xs_exp L) (a 0) (ri 0) (rij 0) aij
          (1 <=? dimension) (mesh 0) topl x_frac cutoff xheights_inv
          cache M with
  | None => None
  | Some (sx, M) =>
  match _cartesian_components (ys_exp L) (a 4) (ri 1) (rij 1) aij
          (2 <=? dimension) (mesh 1) topl y_frac cutoff yheights_inv
          cache M with
  | None => None
  | Some (sy, M) =>
  match _cartesian_components (zs_exp L) (a 8) (ri 2) (rij 2) aij
          (3 <=? dimension) (mesh 2) topl z_frac cutoff zheights_inv
          cache M with
  | None => None
  | Some (sz, M) =>
      let M := GTOnumint_3d_orth_x fac topl mesh (weights (arg_grid args)) L
                 (nimg sx) (nx0 sx) (nx1 sx) M in
      let M := GTOnumint_3d_orth_y topl mesh L (nimg sy) (nx0 sy) (nx1 sy) M in
      Some (GTOnumint_3d_orth_z (arg_out args) (arg_floorl args) topl mesh L
              (nimg sz) (nx0 sz) (nx1 sz) M)
  end end end.

(** ** Notions of the further properties *)

(** The entry [l] of the two tables against the counts of Cartesian
    functions: [(l+1)(l+2)/2] of angular momentum [l], and their running
    total. *)
Definition table_entry_ok (l : Z) : bool :=
  (tbl _LEN_CART l =? (l + 1) * (l + 2) / 2)
  && (tbl _CUM_LEN_CART l =? (l + 1) * (l + 2) * (l + 3) / 6)
  && (tbl _CUM_LEN_CART l =? tbl _CUM_LEN_CART (l - 1) + tbl _LEN_CART l).

(** What [plain_prim_to_ctr] makes of an element [old] of the contracted
    buffer, from the primitive value [p] and the coefficient [c]. *)
Definition ctr_value (empty : bool) (old p c : double) : double :=
  if empty then (p * c)%dbl
  else if dne c (Fin 0) then (old + p * c)%dbl else old.

(** The size that [_cache_size] computes, without the wrap-around of
    [size_t] and [int]. *)
Definition cache_size_exact (mesh : ints) (envs : CINTEnvVars) : Z :=
  let i_ctr := x_ctr envs 0 in
  let j_ctr := x_ctr envs 1 in
  let n_comp := ncomp_e1 envs * ncomp_tensor envs in
  let l1 := i_l envs + j_l envs + 1 in
  nf envs * i_ctr * j_ctr * n_comp
  + Z.max (tbl _CUM_LEN_CART (i_l envs + j_l envs)
             * (1 + i_ctr + i_ctr * j_ctr)
           + l1 * (mesh 0 + mesh 1 + mesh 2)
           + l1 * mesh 1 * mesh 2
           + l1 * l1 * mesh 2
           + 20)
          (nf envs * 8 * OF_CMPLX).

(** The counts of a shell pair and of the mesh are not negative. *)
Definition counts_nonneg (mesh : ints) (envs : CINTEnvVars) : Prop :=
  0 <= x_ctr envs 0 /\ 0 <= x_ctr envs 1 /\ 0 <= nf envs /\
  0 <= ncomp_e1 envs * ncomp_tensor envs /\
  0 <= mesh 0 /\ 0 <= mesh 1 /\ 0 <= mesh 2 /\
  0 <= i_l envs /\ 0 <= j_l envs.

(** The eleven buffers that the execution path of a shell pair lays out
    in the cache one after the other, in the order of their pointers:
    [gctr] of [GTO_numint1e_drv] at [cache], the five buffers of
    [GTOnumint1e_loop], and the five of [GTOnumint_3d_orth]; each is
    given with its length.  The scratch rows of [_cartesian_components]
    are not among them: they lie over [weightyz] and [weightz], see
    [axis_scratch]. *)
Definition exec_buffers (mesh : ints) (envs : CINTEnvVars) (cache : Z)
  : list (Z * Z) :=
  let L1 := drv_loop_layout envs cache in
  let L2 := drv_orth_layout mesh envs cache in
  let i_ctr := x_ctr envs 0 in
  let j_ctr := x_ctr envs 1 in
  let l1 := i_l envs + j_l envs + 1 in
  [ (cache, nf envs * i_ctr * j_ctr * (ncomp_e1 envs * ncomp_tensor envs));
    (gctrj L1, len_g1d L1 * i_ctr * j_ctr);
    (gctri L1, len_g1d L1 * i_ctr);
    (g L1, len_g1d L1);
    (log_iprim_max L1, bas_ (bas envs) NPRIM_OF (shls envs 0));
    (log_jprim_max L1, bas_ (bas envs) NPRIM_OF (shls envs 1));
    (xs_exp L2, l1 * mesh 0);
    (ys_exp L2, l1 * mesh 1);
    (zs_exp L2, l1 * mesh 2);
    (weightyz L2, l1 * (mesh 1 * mesh 2));
    (weightz L2, l1 * l1 * mesh 2) ].

(** The buffers of a list follow one another from [p] without overlap and
    end at or before [top]. *)
Fixpoint buffers_fit (p : Z) (l : list (Z * Z)) (top : Z) : Prop :=
  match l with
  | [] => p <= top
  | (start, len) :: l' => p <= start /\ 0 <= len /\ buffers_fit (start + len) l' top
  end.

(** The scratch rows of one call of [_cartesian_components] at the
    pointer [cache] that it is given (lines 137-141), for an axis of [n]
    grid points with [nimg] images, each with its length: [gridx], of
    [nimg * n] elements, and on a periodic axis the row [xs_all] of the
    [topl + 1] powers of all images after it.  On an axis that is not
    periodic there is one image, [xs_all] is the table itself and
    [gridx] is used for [topl > 0] only.  [GTOnumint_3d_orth] passes the
    pointer [weightyz] (lines 227 and 231-239). *)
Definition axis_scratch (periodic : bool) (topl n nimg cache : Z)
  : list (Z * Z) :=
  if periodic then
    [ (cache, nimg * n); (cache + nimg * n, (topl + 1) * (nimg * n)) ]
  else if 0 <? topl then [ (cache, n) ]
  else [].

(** The length of the scratch rows of an axis. *)
Definition axis_scratch_length (periodic : bool) (topl n nimg : Z) : Z :=
  if periodic then (topl + 2) * (nimg * n)
  else if 0 <? topl then n
  else 0.

(** A kernel whose sizing call, [intor(NULL, NULL, shls, ...)], changes
    nothing. *)
Definition sizing_is_pure (intor : intor_t) (B : basis) (G : grid) : Prop :=
  forall (shls : ints) (st : state),
    snd (intor None None shls B (Fin 0) 3 G 0 st) = st.

(** The size that a kernel asks for the pair (i, i). *)
Definition diagonal_size (intor : intor_t) (B : basis) (G : grid)
    (st : state) (i : Z) : Z :=
  fst (intor None None (ints_of [i; i]) B (Fin 0) 3 G 0 st).

(** The pairs of a slice, row by row, that the mode [hermi] keeps: all of
    them for PLAIN, else those with [ish - ish0 <= jsh - jsh0]. *)
Definition slice_pairs (hermi : Z) (shls_slice : ints) : list (Z * Z) :=
  filter (fun p => (hermi =? PLAIN)
                   || (fst p - shls_slice 0 <=? snd p - shls_slice 2))
         (list_prod (zrange_up (shls_slice 0) (shls_slice 1 - 1))
                    (zrange_up (shls_slice 2) (shls_slice 3 - 1))).

(** The contraction of the x axis over the grid points [lo <= ix < hi]:
    for the x power [lx] and the column [col] of the [mesh[1]*mesh[2]]
    points of a plane, the sum of
    [weights[ix*xcols+col] * xs_exp[lx*mesh[0]+ix]]. *)
Definition x_contraction (mesh : ints) (W : mem) (L : orth_layout) (M : mem)
    (lo hi : Z) (lx col : Z) : double :=
  dsum (Z.to_nat (hi - lo))
       (fun t => W ((lo + t) * (mesh 1 * mesh 2) + col)%Z
                 * M (xs_exp L + lx * mesh 0 + (lo + t))%Z)%dbl.

(** The contraction of the y axis over the grid points [lo <= iy < hi]:
    for the x power [lx], the y power [ly] and the z index [iz], the sum
    of [weightyz[lx][iy][iz] * ys_exp[ly*mesh[1]+iy]]. *)
Definition y_contraction (mesh : ints) (L : orth_layout) (M : mem)
    (lo hi : Z) (lx ly iz : Z) : double :=
  dsum (Z.to_nat (hi - lo))
       (fun t => M (weightyz L + lx * (mesh 1 * mesh 2)
                    + (lo + t) * mesh 2 + iz)%Z
                 * M (ys_exp L + ly * mesh 1 + (lo + t))%Z)%dbl.

(** [x] times [g], [n] times over: the product that the rows of the
    powers build up. *)
Fixpoint dtimes (n : nat) (x g : double) : double :=
  match n with
  | O => x
  | Datatypes.S n' => (dtimes n' x g * g)%dbl
  end.

(** The element [k] steps away from the start of one of the two
    recurrences of lines 149-162: every step multiplies the last element
    by the factor [exp_x0], which is [e0] at the first step and is
    multiplied by [e2] after every step; [s] is the start value. *)
Fixpoint recurrence_value (s e0 e2 : double) (k : nat) : double :=
  match k with
  | O => s
  | Datatypes.S k' => (recurrence_value s e0 e2 k' * dtimes k' e0 e2)%dbl
  end.

(** What lines 148-162 store at the index [i] of the row [xs_all], in
    the operations of the code: the start value at
    [g = grid_close_to_xij], the recurrence upward above it and the
    recurrence downward below it. *)
Definition gaussian_row (aij x0xij dx : double) (g i : Z) : double :=
  let exp_dxdx := dexp (dneg aij * dx * dx)%dbl in
  let exp_2dxdx := (exp_dxdx * exp_dxdx)%dbl in
  let start := dexp (dneg aij * x0xij * x0xij)%dbl in
  if g <=? i then
    recurrence_value start
      (dexp (Fin (-2) * aij * x0xij * dx) * exp_dxdx)%dbl exp_2dxdx
      (Z.to_nat (i - g))
  else
    recurrence_value start
      (dexp (Fin 2 * aij * x0xij * dx) * exp_dxdx)%dbl exp_2dxdx
      (Z.to_nat (g - i)).

(** The sum, image after image, of the elements [i] of the images
    [lo <= m < hi] of a row of [xs_all] onto [acc]. *)
Definition image_sum (M : mem) (row nx_per_cell i : Z) (acc : double)
    (lo hi : Z) : double :=
  for_lt lo hi (fun m acc => (acc + M (row + m * nx_per_cell + i)%Z)%dbl) acc.

(** [f 0 + f 1 + ... + f (k-1)] in the reals. *)
Fixpoint Rsum (k : nat) (f : Z -> R) : R :=
  match k with
  | O => 0%R
  | Datatypes.S k' => (Rsum k' f + f (Z.of_nat k'))%R
  end.

(** The sum over the images that lines 178-189 leave for [topl = 0] at
    the element [i] of the cell table, when [f j] is the element [j] of
    the row of all images: the image 0, then the images
    [m = 1 .. nimg-1] added one after the other. *)
Definition images_added (f : Z -> double) (n i nimg : Z) : double :=
  for_lt 1 nimg (fun m acc => (acc + f (m * n + i)%Z)%dbl) (f i).

(** The element [i] of the row of the power [l] of the table of an axis
    that is not periodic, in the operations of the code: the element [i]
    of the row of the Gaussians, multiplied [l] times by the grid
    position [gridx[i]].  [a0] is [*a], [n] the number of grid points
    and [g = grid_close_to_xij]; the image range is [0, 1). *)
Definition open_axis_table (a0 xi xij aij : double) (n g : Z) (l i : Z)
  : double :=
  let img0_x := (a0 * of_int 0)%dbl in
  let dx := (a0 / of_int n)%dbl in
  let x0xij := (img0_x + dx * of_int g - xij)%dbl in
  let x0xi := (img0_x - xi)%dbl in
  dtimes (Z.to_nat l) (gaussian_row aij x0xij dx g i)
         (x0xi + of_int i * dx)%dbl.

(** What the three stages leave in [out] for the triple (lx, ly, lz)
    on a lattice without periodic axes, in the operations and the order
    of the code: [X], [Y] and [Zt] are the tables of the three axes
    (power, grid point), [W] the weights, and the slices of the three
    axes bound the sums.  The x stage gives [fac] times the sum over
    [ix]; the y stage the sum over [iy] of that times [Y]; the z stage
    adds up, from 0, the products with [Zt]. *)
Definition open_cell_value (fac : double) (mesh : ints) (W : mem)
    (X Y Zt : Z -> Z -> double) (sx sy sz : axis_slice) (lx ly lz : Z)
  : double :=
  let xcols := mesh 1 * mesh 2 in
  let wyz := fun iy iz =>
    (fac * dsum (Z.to_nat (nx1 sx - nx0 sx))
                (fun t => W ((nx0 sx + t) * xcols + (iy * mesh 2 + iz))%Z
                          * X lx (nx0 sx + t)%Z))%dbl in
  let wz := fun iz =>
    dsum (Z.to_nat (nx1 sy - nx0 sy))
         (fun t => wyz (nx0 sy + t)%Z iz * Y ly (nx0 sy + t)%Z)%dbl in
  for_lt (nx0 sz) (nx1 sz) (fun iz val => (val + wz iz * Zt lz iz)%dbl)
         (Fin 0).

(** The arguments of the call of [GTOnumint_3d_orth] for the primitive
    pair (ip, jp) (lines 457-460); [M] holds the tables of the
    logarithms. *)
Definition loop_orth_args (fac log_prec : double) (dimension : Z) (G : grid)
    (envs : CINTEnvVars) (L : loop_layout) (M : mem) (ip jp : Z)
  : orth_args :=
  let e := env envs in
  let ai := bas_ (bas envs) PTR_EXP (shls envs 0) in
  let aj := bas_ (bas envs) PTR_EXP (shls envs 1) in
  let fac1 := (fac * CINTcommon_fac_sp (i_l envs)
               * CINTcommon_fac_sp (j_l envs))%dbl in
  {| arg_out := g L; arg_floorl := i_l envs;
     arg_topl := i_l envs + j_l envs;
     arg_ai := e (ai + ip); arg_aj := e (aj + jp);
     arg_fac := (fac1 * dexp (dneg (prim_eij envs ip jp)))%dbl;
     arg_log_prec := (prim_logcc L M ip jp + log_prec)%dbl;
     arg_dimension := dimension; arg_grid := G;
     arg_cache := cache_rest L |}.

(** The contraction of the primitive values [gv ip jp] with the
    coefficients of the two shells, over the primitive pairs that pass
    the screening: the element of the contraction [ni] of the first
    shell and [nj] of the second. *)
Definition contracted (envs : CINTEnvVars) (ec : Z -> R)
    (pass : Z -> Z -> bool) (gv : Z -> Z -> R) (nj ni : Z) : R :=
  let i_prim := bas_ (bas envs) NPRIM_OF (shls envs 0) in
  let j_prim := bas_ (bas envs) NPRIM_OF (shls envs 1) in
  let ci := bas_ (bas envs) PTR_COEFF (shls envs 0) in
  let cj := bas_ (bas envs) PTR_COEFF (shls envs 1) in
  Rsum (Z.to_nat j_prim) (fun jp =>
    (Rsum (Z.to_nat i_prim) (fun ip =>
       if pass ip jp then (gv ip jp * ec (ci + ip + i_prim * ni)%Z)%R
       else 0%R)
     * ec (cj + jp + j_prim * nj)%Z)%R).

(** ** Inputs of the further examples *)

(** A cell of length 2 on every axis with the mesh (2, 2, 2) and unit
    weights; with every element of [env] equal to 1 the centre of a pair
    is in the middle of the cell. *)
Definition grid_open : grid :=
  {| lat_a := fun _ => Fin 2; lat_b := fun _ => Fin (1 / 2);
     mesh := mesh_222; weights := fun _ => Fin 1 |}.

(** An engine that stores the value 1 in [out[0]], for shells of
    angular momentum 0, where the pair has one Cartesian component. *)
Definition orth_ones (A : orth_args) (envs : CINTEnvVars) (M : mem) : mem :=
  upd M (arg_out A) (Fin 1).


(** * Arithmetic that rounds

    The definitions above compute exactly on finite values.  The
    arithmetic of C rounds the exact result of every operation to a
    [double]: a result that is too large becomes an infinity, a small
    one is absorbed by a large one, and the conversion to [int] is
    defined only inside the range of [int].  [gto_rcut] and the image
    range of [_cartesian_components], whose properties depend on it, are
    given here a second time: over an arbitrary rounding of the exact
    results in the module [Rounded], of which the exact arithmetic above
    is the instance that rounds nothing, and with the rounding of the
    binary64 format in the module [Binary64]. *)

Module Rounded.

Section Rounding.

(** [rnd] rounds the exact result of [+], [-], [*], [/] and [sqrt], which
    IEEE 754 rounds correctly; [rndm] rounds that of [log], which
    <math.h> need not round the same way.  Every operation rounds its own
    result: no wider intermediate format and no fused multiply-add. *)
Variables (rnd rndm : R -> double).

(** A finite exact result is rounded; an infinity or a NaN is kept. *)
Definition rounded (f : R -> double) (x : double) : double :=
  match x with
  | Fin r => f r
  | _ => x
  end.

Definition radd (x y : double) : double := rounded rnd (dadd x y).
Definition rsub (x y : double) : double := rounded rnd (dsub x y).
Definition rmul (x y : double) : double := rounded rnd (dmul x y).
Definition rdiv (x y : double) : double := rounded rnd (ddiv x y).
Definition rsqrt (x : double) : double := rounded rnd (dsqrt x).
Definition rlog (x : double) : double := rounded rndm (dlog x).

(** The ends of the range of a 32-bit [int]. *)
Definition INT_MIN : Z := - 2 ^ 31.
Definition INT_MAX : Z := 2 ^ 31 - 1.

(** the conversion [(int)x]: truncation toward zero; undefined ([None])
    on the special values and on a value outside the range of [int] *)
Definition to_int32 (x : double) : option Z :=
  match to_int x with
  | Some z => if (INT_MIN <=? z)%Z && (z <=? INT_MAX)%Z then Some z else None
  | None => None
  end.

(** [static double gto_rcut(double alpha, int l, double c, double log_prec)],
    lines 74-96; the constants 7 and 0 are doubles as they stand. *)
Definition gto_rcut (alpha : double) (l : Z) (c log_prec : double) : double :=
  let log_prec := rsub log_prec (Fin 7) in
  let log_c := rlog (dfabs c) in
  let prod := Fin 0 in
  let r := Fin 5 in
  let prod := radd prod (rsub log_c log_prec) in
  if dgt prod (Fin 0) then rsqrt (rdiv prod alpha) else Fin 0.

(** The two ends of the window of the cutoff in units of the cell, lines
    104-105 of [_cartesian_components]. *)
Definition edge0 (x_frac cutoff heights_inv : double) : double :=
  rsub x_frac (rmul cutoff heights_inv).

Definition edge1 (x_frac cutoff heights_inv : double) : double :=
  radd x_frac (rmul cutoff heights_inv).

(** Lines 104-129 of [_cartesian_components]: what it stores in
    [img_slice] and [grid_slice].  An [int] is converted to [double]
    without rounding; [floor] and [ceil] do not round either. *)
Definition _cartesian_components_slices (periodic : bool) (nx_per_cell : Z)
    (x_frac cutoff heights_inv : double) : option axis_slice :=
  let edge0 := rsub x_frac (rmul cutoff heights_inv) in
  let edge1 := radd x_frac (rmul cutoff heights_inv) in
  match (if periodic then to_int32 (dfloor edge0) else Some 0%Z),
        (if periodic then to_int32 (dceil edge1) else Some 1%Z),
        to_int32 (dfloor (rmul edge0 (of_int nx_per_cell))),
        to_int32 (dceil (rmul edge1 (of_int nx_per_cell))) with
  | Some nimg0, Some nimg1, Some nx0, Some nx1 =>
      let nx0 :=
        if periodic then Z.rem (nx0 + nimg1 * nx_per_cell) nx_per_cell
        else MAXz (MINz nx0 nx_per_cell) 0 in
      let nx1 :=
        if periodic then Z.rem (nx1 + nimg1 * nx_per_cell) nx_per_cell
        else MAXz (MINz nx1 nx_per_cell) 0 in
      Some {| nimg0 := nimg0; nimg1 := nimg1; nx0 := nx0; nx1 := nx1 |}
  | _, _, _, _ => None
  end.

End Rounding.

(** A value that is not negative: a finite one or plus infinity; not a
    NaN. *)
Definition not_negative (x : double) : Prop :=
  x = PInf \/ exists r : R, x = Fin r /\ (0 <= r)%R.

(** What the properties of [gto_rcut] need of a rounding: it makes no
    NaN, and the rounded value of an exact result that is not negative is
    not negative. *)
Definition keeps_sign (f : R -> double) : Prop :=
  (forall r : R, f r <> NaN) /\
  (forall r : R, (0 <= r)%R -> not_negative (f r)).

(** The order of the values of [double]: minus infinity, the finite
    values, plus infinity; a NaN is not in the order. *)
Definition dle (x y : double) : Prop :=
  match x, y with
  | Fin a, Fin b => (a <= b)%R
  | MInf, Fin _ | MInf, PInf | MInf, MInf => True
  | Fin _, PInf | PInf, PInf => True
  | _, _ => False
  end.

(** A rounding that keeps zero and the order of the exact results, as a
    rounding to the nearest does; that of [Binary64] below is one. *)
Definition monotone (f : R -> double) : Prop :=
  f 0%R = Fin 0 /\ forall a b : R, (a <= b)%R -> dle (f a) (f b).

End Rounded.

(** The conversions to [int] of a call of [_cartesian_components], lines
    110-111, 114-115 and 143, are defined: their arguments, computed as
    in [_cartesian_components_slices] above, are finite and inside the
    range of [int]. *)
Definition conversions_defined (periodic : bool) (nx_per_cell : Z)
    (x_frac cutoff heights_inv : double) : Prop :=
  let edge0 := (x_frac - cutoff * heights_inv)%dbl in
  let edge1 := (x_frac + cutoff * heights_inv)%dbl in
  (periodic = true ->
     Rounded.to_int32 (dfloor edge0) <> None /\
     Rounded.to_int32 (dceil edge1) <> None) /\
  Rounded.to_int32 (dfloor (edge0 * of_int nx_per_cell)%dbl) <> None /\
  Rounded.to_int32 (dceil (edge1 * of_int nx_per_cell)%dbl) <> None /\
  Rounded.to_int32 (x_frac * of_int nx_per_cell)%dbl <> None.

Module Binary64.

Local Open Scope R_scope.

(** [2^e] *)
Definition pow2 (e : Z) : R := powerRZ 2 e.

(** The exponent [k] of a real [r <> 0]: [2^k <= |r| < 2^(k+1)]. *)
Definition ilog2 (r : R) : Z := Zfloor (ln (Rabs r) / ln 2).

(** The exponent of the unit in the last place of [r]: a significand of
    53 bits, and no unit below that of the subnormal numbers, 2^-1074. *)
Definition ulp_exp (r : R) : Z := Z.max (ilog2 r - 52) (-1074).

(** The integer nearest to [x]; of the two nearest ones the even one. *)
Definition nearest_even (x : R) : Z :=
  let f := Zfloor x in
  if Rltb (x - IZR f) (1 / 2) then f
  else if Rltb (1 / 2) (x - IZR f) then (f + 1)%Z
  else if Z.even f then f else (f + 1)%Z.

(** The rounding of binary64 to the nearest, ties to even: the multiple
    of the unit in the last place nearest to [r], and an infinity when
    that is 2^1024 or more in magnitude.  The sign of a zero is not
    kept. *)
Definition round (r : R) : double :=
  if Reqb r 0 then Fin 0
  else
    let e := ulp_exp r in
    let v := IZR (nearest_even (r / pow2 e)) * pow2 e in
    if Rltb (Rabs v) (pow2 1024) then Fin v else inf_of_sign r.

End Binary64.

(** * Properties *)

(** ** Facts on the model of [double] *)

Section DblFacts.

Local Open Scope R_scope.

Lemma Rltb_true (x y : R) : x < y -> Rltb x y = true.
Proof. unfold Rltb; destruct (Rlt_dec x y); [reflexivity | contradiction]. Qed.

Lemma Rltb_false (x y : R) : ~ x < y -> Rltb x y = false.
Proof. unfold Rltb; destruct (Rlt_dec x y); [contradiction | reflexivity]. Qed.

Lemma Reqb_true (x y : R) : x = y -> Reqb x y = true.
Proof. unfold Reqb; destruct (Req_dec_T x y); [reflexivity | contradiction]. Qed.

Lemma Reqb_false (x y : R) : x <> y -> Reqb x y = false.
Proof. unfold Reqb; destruct (Req_dec_T x y); [contradiction | reflexivity]. Qed.

Lemma dneg_involutive (x : double) : dneg (dneg x) = x.
Proof. destruct x; simpl; try reflexivity. f_equal; lra. Qed.

Lemma Fin_inj (x y : R) : Fin x = Fin y -> x = y.
Proof. intros H; injection H; trivial. Qed.

Lemma dlog_fabs_nonzero (c : R) : c <> 0 -> dlog (dfabs (Fin c)) = Fin (ln (Rabs c)).
Proof.
  intros Hc. simpl. rewrite Rltb_true; [reflexivity |].
  apply Rabs_pos_lt; assumption.
Qed.

Lemma dlog_fabs_zero : dlog (dfabs (Fin 0)) = MInf.
Proof.
  simpl. rewrite Rabs_R0.
  rewrite Rltb_false by lra. rewrite Reqb_true by reflexivity. reflexivity.
Qed.

Lemma MAX_0_fabs_1 : MAX (Fin 0) (dfabs (Fin 1)) = Fin 1.
Proof.
  unfold MAX. cbn [dfabs dgt]. rewrite Rabs_R1.
  rewrite Rltb_false by lra. reflexivity.
Qed.

Lemma dlog_1 : dlog (Fin 1) = Fin 0.
Proof. cbn [dlog]. rewrite Rltb_true by lra. rewrite ln_1. reflexivity. Qed.

Lemma to_int_IZR (z : Z) : to_int (Fin (IZR z)) = Some z.
Proof.
  unfold to_int. f_equal.
  destruct (Rltb (IZR z) 0).
  - rewrite <- (Ropp_involutive (IZR z)), ZceilN, <- opp_IZR, ZfloorZ. lia.
  - apply ZfloorZ.
Qed.

Lemma to_int_floor (x : R) : to_int (dfloor (Fin x)) = Some (Zfloor x).
Proof. apply to_int_IZR. Qed.

Lemma to_int_ceil (x : R) : to_int (dceil (Fin x)) = Some (Zceil x).
Proof. apply to_int_IZR. Qed.

End DblFacts.

(** ** The cutoff radius *)

Section RcutFacts.

Local Open Scope R_scope.

(** The value of [gto_rcut] on finite arguments with a positive exponent. *)
Lemma gto_rcut_value (alpha : R) (l : Z) (c log_prec : R) :
  0 < alpha ->
  gto_rcut (Fin alpha) l (Fin c) (Fin log_prec) =
  if Reqb c 0 then Fin 0
  else if Rltb 0 (ln (Rabs c) - (log_prec - 7))
       then Fin (sqrt ((ln (Rabs c) - (log_prec - 7)) / alpha))
       else Fin 0.
Proof.
  intros Halpha. unfold gto_rcut.
  destruct (Req_dec_T c 0) as [Hc | Hc].
  - subst c. rewrite dlog_fabs_zero, Reqb_true by reflexivity. reflexivity.
  - rewrite dlog_fabs_nonzero, Reqb_false by assumption.
    cbn [dsub dadd dneg dgt].
    match goal with
    | |- context [Rltb 0 ?m] =>
        replace m with (ln (Rabs c) - (log_prec - 7)) by lra
    end.
    destruct (Rltb 0 (ln (Rabs c) - (log_prec - 7))) eqn:Hpos; [| reflexivity].
    cbn [ddiv dsqrt]. rewrite Reqb_false by lra.
    cbn [dsqrt]. rewrite Rltb_false; [reflexivity |].
    unfold Rltb in Hpos.
    destruct (Rlt_dec 0 (ln (Rabs c) - (log_prec - 7))) as [Hp | Hp];
      [| discriminate].
    apply Rle_not_lt. apply Rlt_le. apply Rdiv_lt_0_compat; assumption.
Qed.

(** C3, as amended: the margin is 7 units.  For a finite exponent
    [alpha > 0] and finite [c] and [log_prec], [gto_rcut] returns
    [sqrt((log|c| - (log_prec - 7)) / alpha)] when
    [log|c| - (log_prec - 7) > 0] (which needs [c <> 0]: [log 0] is minus
    infinity), and 0 otherwise. *)
Theorem gto_rcut_margin7 (alpha : R) (l : Z) (c log_prec : R) :
  0 < alpha ->
  (c <> 0 -> 0 < ln (Rabs c) - (log_prec - 7) ->
   gto_rcut (Fin alpha) l (Fin c) (Fin log_prec) =
   Fin (sqrt ((ln (Rabs c) - (log_prec - 7)) / alpha)))
  /\
  (c = 0 \/ ln (Rabs c) - (log_prec - 7) <= 0 ->
   gto_rcut (Fin alpha) l (Fin c) (Fin log_prec) = Fin 0).
Proof.
  intros Halpha. rewrite gto_rcut_value by assumption. split.
  - intros Hc Hpos. rewrite Reqb_false, Rltb_true by assumption. reflexivity.
  - intros [Hc | Hle].
    + rewrite Reqb_true by assumption. reflexivity.
    + rewrite Rltb_false by lra. destruct (Reqb c 0); reflexivity.
Qed.

Lemma gto_rcut_margin7_witness :
  gto_rcut (Fin 1) 0 (Fin 1) (Fin 0) = Fin (sqrt ((ln (Rabs 1) - (0 - 7)) / 1)).
Proof.
  apply (proj1 (@gto_rcut_margin7 1 0%Z 1 0 Rlt_0_1)).
  - lra.
  - rewrite Rabs_R1, ln_1. lra.
Defined.

(** C3, the counterexample: with [alpha = 1], [c = 1] and
    [log_prec = 7.5] the code returns 0, and the estimator with the
    8-unit margin returns [sqrt 0.5]. *)
Lemma gto_rcut_margin8_counterexample :
  gto_rcut (Fin 1) 0 (Fin 1) (Fin (15 / 2)) = Fin 0 /\
  gto_rcut_margin8 (Fin 1) 0 (Fin 1) (Fin (15 / 2)) = Fin (sqrt (1 / 2)) /\
  gto_rcut (Fin 1) 0 (Fin 1) (Fin (15 / 2))
  <> gto_rcut_margin8 (Fin 1) 0 (Fin 1) (Fin (15 / 2)).
Proof.
  assert (H7 : gto_rcut (Fin 1) 0 (Fin 1) (Fin (15 / 2)) = Fin 0).
  { rewrite gto_rcut_value by lra. rewrite Reqb_false by lra.
    rewrite Rltb_false; [reflexivity |]. rewrite Rabs_R1, ln_1. lra. }
  assert (H8 : gto_rcut_margin8 (Fin 1) 0 (Fin 1) (Fin (15 / 2))
               = Fin (sqrt (1 / 2))).
  { unfold gto_rcut_margin8. rewrite dlog_fabs_nonzero by lra.
    cbn [dsub dadd dneg dgt]. rewrite Rabs_R1, ln_1.
    match goal with
    | |- context [Rltb 0 ?m] => replace m with (1 / 2) by lra
    end.
    rewrite Rltb_true by lra. cbn [ddiv]. rewrite Reqb_false by lra.
    cbn [dsqrt]. rewrite Rltb_false by lra. f_equal. f_equal. lra. }
  split; [exact H7 | split; [exact H8 |]].
  rewrite H7, H8. intros H. apply Fin_inj in H.
  assert (Hs : 0 < sqrt (1 / 2)) by (apply sqrt_lt_R0; lra).
  lra.
Qed.

End RcutFacts.

(** ** Facts on the rounding of binary64 *)

Section Binary64Facts.

Import Binary64.

Local Open Scope R_scope.

Lemma pow2_pos (e : Z) : 0 < pow2 e.
Proof. unfold pow2. apply powerRZ_lt. lra. Qed.

Lemma pow2_add (a b : Z) : pow2 (a + b) = pow2 a * pow2 b.
Proof. unfold pow2. apply powerRZ_add. lra. Qed.

Lemma pow2_nonneg_IZR (k : Z) : (0 <= k)%Z -> pow2 k = IZR (2 ^ k).
Proof.
  intros Hk. unfold pow2.
  rewrite <- (Z2Nat.id k) at 1 by exact Hk.
  rewrite <- pow_powerRZ.
  rewrite pow_IZR. rewrite Z2Nat.id by exact Hk. reflexivity.
Qed.

Lemma pow2_neg (k : Z) : pow2 (- k) = / pow2 k.
Proof. unfold pow2. apply powerRZ_neg'. Qed.

Lemma pow2_le (a b : Z) : (a <= b)%Z -> pow2 a <= pow2 b.
Proof.
  intros H. replace b with (a + (b - a))%Z by lia. rewrite pow2_add.
  rewrite (pow2_nonneg_IZR (k := b - a)) by lia.
  assert (H0 : (0 < 2 ^ (b - a))%Z) by (apply Z.pow_pos_nonneg; lia).
  assert (H1 : (1 <= 2 ^ (b - a))%Z) by lia.
  apply IZR_le in H1. pose proof (pow2_pos a). nra.
Qed.


Lemma ln_2_pos : 0 < ln 2.
Proof. rewrite <- ln_1. apply ln_increasing; lra. Qed.


Lemma nearest_even_IZR (m : Z) : nearest_even (IZR m) = m.
Proof.
  unfold nearest_even. rewrite ZfloorZ.
  rewrite Rltb_true by lra. reflexivity.
Qed.

Lemma nearest_even_nonneg (x : R) : 0 <= x -> (0 <= nearest_even x)%Z.
Proof.
  intros Hx. unfold nearest_even.
  assert (H : (0 <= Zfloor x)%Z) by (apply Zfloor_lub; exact Hx).
  destruct (Rltb _ _); [exact H |].
  destruct (Rltb _ _); [lia |].
  destruct (Z.even _); lia.
Qed.


Lemma round_never_nan (r : R) : round r <> NaN.
Proof.
  unfold round. destruct (Reqb r 0); [discriminate |]. cbv zeta.
  destruct (Rltb _ _); [discriminate |].
  unfold inf_of_sign. destruct (Rltb 0 r); discriminate.
Qed.

Lemma round_keeps_sign : Rounded.keeps_sign round.
Proof.
  split; [exact round_never_nan |].
  intros r Hr. unfold round, Rounded.not_negative.
  destruct (Reqb r 0) eqn:E0.
  - right. exists 0. split; [reflexivity | lra].
  - cbv zeta. destruct (Rltb _ _).
    + right. eexists. split; [reflexivity |].
      pose proof (pow2_pos (ulp_exp r)) as P.
      apply Rmult_le_pos; [| lra].
      apply IZR_le. apply nearest_even_nonneg.
      apply Rmult_le_pos; [exact Hr |]. left. apply Rinv_0_lt_compat. exact P.
    + left. unfold inf_of_sign. rewrite Rltb_true; [reflexivity |].
      unfold Reqb in E0. destruct (Req_dec_T r 0); [discriminate | lra].
Qed.

End Binary64Facts.

(** ** Rounded arithmetic *)

Section RoundedFacts.

Local Open Scope R_scope.

(** The exact arithmetic is the rounding that keeps every result. *)
Lemma rounded_Fin (x : double) : Rounded.rounded Fin x = x.
Proof. destruct x; reflexivity. Qed.

Lemma gto_rcut_rounds_nothing (alpha : double) (l : Z) (c log_prec : double) :
  Rounded.gto_rcut Fin Fin alpha l c log_prec = gto_rcut alpha l c log_prec.
Proof.
  unfold Rounded.gto_rcut, gto_rcut, Rounded.radd, Rounded.rsub,
    Rounded.rdiv, Rounded.rsqrt, Rounded.rlog.
  rewrite !rounded_Fin. reflexivity.
Qed.


Lemma rsub_Fin (f : R -> double) (a b : R) :
  Rounded.rsub f (Fin a) (Fin b) = f (a - b).
Proof. reflexivity. Qed.


Lemma rdiv_Fin (f : R -> double) (a b : R) :
  b <> 0 -> Rounded.rdiv f (Fin a) (Fin b) = f (a / b).
Proof.
  intros Hb. unfold Rounded.rdiv. cbn [ddiv]. rewrite Reqb_false by exact Hb.
  reflexivity.
Qed.

Lemma not_negative_Fin (r : R) : 0 <= r -> Rounded.not_negative (Fin r).
Proof. intros H. right. exists r. split; [reflexivity | exact H]. Qed.

Lemma not_negative_PInf : Rounded.not_negative PInf.
Proof. left. reflexivity. Qed.

Variables (rnd rndm : R -> double).

Hypothesis rnd_sign : Rounded.keeps_sign rnd.

(** A rounded difference of a finite value and a value that is not a NaN
    is not a NaN. *)
Lemma rsub_finite_left (a : R) (y : double) :
  y <> NaN -> Rounded.rsub rnd (Fin a) y <> NaN.
Proof.
  destruct rnd_sign as [Hnan _].
  intros Hy. unfold Rounded.rsub. destruct y; cbn; try discriminate.
  - apply Hnan.
  - contradiction.
Qed.

Lemma radd_zero_left (y : double) :
  y <> NaN -> Rounded.radd rnd (Fin 0) y <> NaN.
Proof.
  destruct rnd_sign as [Hnan _].
  intros Hy. unfold Rounded.radd. destruct y; cbn; try discriminate.
  - apply Hnan.
  - contradiction.
Qed.

(** The quotient of a positive value by a positive finite one, and its
    square root. *)
Lemma rdiv_positive (p : double) (a : R) :
  dgt p (Fin 0) = true -> 0 < a ->
  Rounded.not_negative (Rounded.rdiv rnd p (Fin a)).
Proof.
  destruct rnd_sign as [_ Hsign].
  intros Hp Ha. unfold Rounded.rdiv. destruct p as [r | | |]; cbn in Hp.
  - cbn [ddiv]. rewrite Reqb_false by lra. cbn [Rounded.rounded].
    apply Hsign. unfold Rltb in Hp.
    destruct (Rlt_dec 0 r) as [Hr | Hr]; [| discriminate].
    left. apply Rdiv_lt_0_compat; assumption.
  - cbn [ddiv]. rewrite Rltb_false by lra. apply not_negative_PInf.
  - discriminate.
  - discriminate.
Qed.

Lemma rsqrt_not_negative (q : double) :
  Rounded.not_negative q -> Rounded.not_negative (Rounded.rsqrt rnd q).
Proof.
  destruct rnd_sign as [_ Hsign].
  intros [-> | (r & -> & Hr)]; unfold Rounded.rsqrt.
  - apply not_negative_PInf.
  - cbn [dsqrt]. rewrite Rltb_false by lra. cbn [Rounded.rounded].
    apply Hsign. apply sqrt_pos.
Qed.

Lemma gto_rcut_not_negative_gen (alpha : R) (l : Z) (c log_prec : double) :
  0 < alpha ->
  Rounded.not_negative (Rounded.gto_rcut rnd rndm (Fin alpha) l c log_prec).
Proof.
  intros Ha. unfold Rounded.gto_rcut. cbv zeta.
  destruct (dgt _ (Fin 0)) eqn:Hp.
  - apply rsqrt_not_negative. apply rdiv_positive; assumption.
  - apply not_negative_Fin. lra.
Qed.

End RoundedFacts.

Section Binary64Values.

Import Binary64.

Local Open Scope R_scope.



Lemma round_0 : round 0 = Fin 0.
Proof. unfold round. rewrite Reqb_true by reflexivity. reflexivity. Qed.




End Binary64Values.

Section RoundedRcut.

Import Binary64.

Local Open Scope R_scope.




End RoundedRcut.

(** ** The image range in rounded arithmetic *)

Section RoundedImageRange.

Local Open Scope R_scope.



Variable rnd : R -> double.


(** A product with a factor that is not finite is not finite, and a sum
    of a finite value and one that is not finite is not finite. *)
Lemma rmul_not_finite_left (x : double) (m : R) (t : R) :
  Rounded.rmul rnd x (Fin m) = Fin t -> exists r : R, x = Fin r.
Proof.
  unfold Rounded.rmul. destruct x as [r | | |]; cbn [dmul].
  - intros _. exists r. reflexivity.
  - destruct (Reqb m 0); [discriminate |].
    unfold inf_of_sign. destruct (Rltb 0 m); discriminate.
  - destruct (Reqb m 0); [discriminate |].
    unfold inf_of_sign. destruct (Rltb 0 (- m)); discriminate.
  - discriminate.
Qed.

Lemma rmul_not_finite_right (c : double) (h : R) (t : R) :
  h <> 0 -> Rounded.rmul rnd c (Fin h) = Fin t -> exists r : R, c = Fin r.
Proof. intros _. apply rmul_not_finite_left. Qed.

Lemma radd_not_finite_right (x : R) (y : double) (t : R) :
  Rounded.radd rnd (Fin x) y = Fin t -> exists r : R, y = Fin r.
Proof.
  unfold Rounded.radd. destruct y as [r | | |]; cbn [dadd]; try discriminate.
  intros _. exists r. reflexivity.
Qed.


End RoundedImageRange.

Section Binary64ImageRange.

Import Binary64.

Local Open Scope R_scope.








Lemma to_int32_small (z : Z) :
  (- 2 ^ 31 <= z < 2 ^ 31)%Z -> Rounded.to_int32 (Fin (IZR z)) = Some z.
Proof.
  intros Hz. unfold Rounded.to_int32. rewrite to_int_IZR.
  unfold Rounded.INT_MIN, Rounded.INT_MAX.
  replace (- 2 ^ 31 <=? z)%Z with true by (symmetry; apply Z.leb_le; lia).
  replace (z <=? 2 ^ 31 - 1)%Z with true by (symmetry; apply Z.leb_le; lia).
  reflexivity.
Qed.





End Binary64ImageRange.

(** ** The rounding of binary64 keeps the order *)

Section Binary64Order.

Import Binary64.

Local Open Scope R_scope.

Lemma Rltb_iff (a b : R) : Rltb a b = true <-> a < b.
Proof.
  unfold Rltb. destruct (Rlt_dec a b); split; intros H;
    try reflexivity; try assumption; try discriminate; contradiction.
Qed.

Lemma Rltb_iff_false (a b : R) : Rltb a b = false <-> b <= a.
Proof.
  unfold Rltb. destruct (Rlt_dec a b); split; intros H;
    try reflexivity; try discriminate; lra.
Qed.

Lemma nearest_even_monotone (x y : R) :
  x <= y -> (nearest_even x <= nearest_even y)%Z.
Proof.
  intros Hxy.
  pose proof (Zfloor_le x y Hxy) as Hf.
  pose proof (Zfloor_bound x) as [X0 X1].
  pose proof (Zfloor_bound y) as [Y0 Y1].
  assert (Hx : (Zfloor x <= nearest_even x <= Zfloor x + 1)%Z).
  { unfold nearest_even. cbv zeta.
    destruct (Rltb _ _); [lia |]. destruct (Rltb _ _); [lia |].
    destruct (Z.even _); lia. }
  assert (Hy : (Zfloor y <= nearest_even y <= Zfloor y + 1)%Z).
  { unfold nearest_even. cbv zeta.
    destruct (Rltb _ _); [lia |]. destruct (Rltb _ _); [lia |].
    destruct (Z.even _); lia. }
  destruct (Z.eq_dec (Zfloor x) (Zfloor y)) as [E | E]; [| lia].
  unfold nearest_even in *. cbv zeta in *. rewrite <- E in *.
  set (f := Zfloor x) in *.
  destruct (Rltb (x - IZR f) (1 / 2)) eqn:A1.
  - destruct (Rltb (y - IZR f) (1 / 2)); [lia |].
    destruct (Rltb (1 / 2) (y - IZR f)); [lia |].
    destruct (Z.even f); lia.
  - apply Rltb_iff_false in A1.
    destruct (Rltb (1 / 2) (x - IZR f)) eqn:A2.
    + apply Rltb_iff in A2.
      rewrite (proj2 (Rltb_iff_false (y - IZR f) (1 / 2))) by lra.
      rewrite (proj2 (Rltb_iff (1 / 2) (y - IZR f))) by lra. lia.
    + apply Rltb_iff_false in A2.
      rewrite (proj2 (Rltb_iff_false (y - IZR f) (1 / 2))) by lra.
      destruct (Rltb (1 / 2) (y - IZR f)); [destruct (Z.even f); lia |].
      lia.
Qed.

Lemma nearest_even_ge (m : Z) (x : R) :
  IZR m <= x -> (m <= nearest_even x)%Z.
Proof.
  intros H. pose proof (@nearest_even_monotone (IZR m) x H) as Hm.
  rewrite nearest_even_IZR in Hm. exact Hm.
Qed.

Lemma nearest_even_le (m : Z) (x : R) :
  x <= IZR m -> (nearest_even x <= m)%Z.
Proof.
  intros H. pose proof (@nearest_even_monotone x (IZR m) H) as Hm.
  rewrite nearest_even_IZR in Hm. exact Hm.
Qed.

(** The exponent of a real is that of its binade. *)
Lemma ilog2_spec (r : R) :
  r <> 0 -> pow2 (ilog2 r) <= Rabs r < pow2 (ilog2 r + 1).
Proof.
  intros Hr. pose proof (Rabs_pos_lt r Hr) as Hpos.
  unfold ilog2.
  pose proof (Zfloor_bound (ln (Rabs r) / ln 2)) as [H1 H2].
  set (k := Zfloor (ln (Rabs r) / ln 2)) in *.
  pose proof ln_2_pos as L2.
  assert (A : IZR k * ln 2 <= ln (Rabs r)).
  { apply Rmult_le_compat_r with (r := ln 2) in H1; [| lra].
    unfold Rdiv in H1. rewrite Rmult_assoc, Rinv_l, Rmult_1_r in H1 by lra.
    exact H1. }
  assert (B : ln (Rabs r) < (IZR k + 1) * ln 2).
  { apply Rmult_lt_compat_r with (r := ln 2) in H2; [| lra].
    unfold Rdiv in H2. rewrite Rmult_assoc, Rinv_l, Rmult_1_r in H2 by lra.
    exact H2. }
  assert (P : forall z : Z, pow2 z = exp (IZR z * ln 2)).
  { intros z. unfold pow2. rewrite powerRZ_Rpower by lra. reflexivity. }
  rewrite !P, plus_IZR. split.
  - rewrite <- (exp_ln (Rabs r) Hpos) at 1. destruct A as [A | A].
    + left. apply exp_increasing. exact A.
    + right. rewrite A. reflexivity.
  - rewrite <- (exp_ln (Rabs r) Hpos) at 1. apply exp_increasing. exact B.
Qed.

Lemma ilog2_monotone (a b : R) : 0 < a -> a <= b -> (ilog2 a <= ilog2 b)%Z.
Proof.
  intros Ha Hab. unfold ilog2. apply Zfloor_le.
  rewrite !Rabs_pos_eq by lra.
  pose proof ln_2_pos as L2.
  apply Rmult_le_compat_r; [left; apply Rinv_0_lt_compat; exact L2 |].
  destruct Hab as [Hlt | ->]; [| lra].
  left. apply ln_increasing; assumption.
Qed.

(** The multiple of the unit in the last place that [round] takes. *)
Let nearest (r : R) : R :=
  IZR (nearest_even (r / pow2 (ulp_exp r))) * pow2 (ulp_exp r).

Lemma round_nearest_value (r : R) :
  r <> 0 ->
  round r = if Rltb (Rabs (nearest r)) (pow2 1024) then Fin (nearest r)
            else inf_of_sign r.
Proof. intros Hr. unfold round. rewrite Reqb_false by exact Hr. reflexivity. Qed.

Lemma pow2_sub (a b : Z) : pow2 (a - b) = pow2 a / pow2 b.
Proof.
  unfold Z.sub. rewrite pow2_add, pow2_neg. reflexivity.
Qed.

Lemma nearest_monotone_pos (a b : R) :
  0 < a -> a <= b -> 0 <= nearest a <= nearest b.
Proof.
  intros Ha Hab. unfold nearest.
  pose proof (pow2_pos (ulp_exp a)) as Pa.
  pose proof (pow2_pos (ulp_exp b)) as Pb.
  assert (Hna : (0 <= nearest_even (a / pow2 (ulp_exp a)))%Z).
  { apply nearest_even_nonneg. apply Rmult_le_pos; [lra |].
    left. apply Rinv_0_lt_compat. exact Pa. }
  split.
  { apply Rmult_le_pos; [apply IZR_le; exact Hna | lra]. }
  pose proof (@ilog2_monotone a b Ha Hab) as Hk.
  assert (He : (ulp_exp a <= ulp_exp b)%Z) by (unfold ulp_exp; lia).
  destruct (Z.eq_dec (ulp_exp a) (ulp_exp b)) as [E | E].
  - rewrite <- E. apply Rmult_le_compat_r; [lra |].
    apply IZR_le. apply nearest_even_monotone.
    apply Rmult_le_compat_r; [| exact Hab].
    left. apply Rinv_0_lt_compat. exact Pa.
  - (* the binades differ: the power of 2 between them is between the
       two roundings *)
    assert (Hlt : (ulp_exp a < ulp_exp b)%Z) by lia.
    assert (Eb : ulp_exp b = (ilog2 b - 52)%Z) by (unfold ulp_exp in *; lia).
    assert (Hka : (ilog2 a + 1 <= ilog2 b)%Z) by (unfold ulp_exp in *; lia).
    destruct (@ilog2_spec a ltac:(lra)) as [_ A2].
    destruct (@ilog2_spec b ltac:(lra)) as [B1 _].
    rewrite Rabs_pos_eq in A2, B1 by lra.
    set (kb := ilog2 b) in *.
    apply Rle_trans with (pow2 kb).
    + (* nearest a <= 2^kb *)
      assert (Hd : (0 <= kb - ulp_exp a)%Z) by lia.
      assert (Hq : a / pow2 (ulp_exp a) <= IZR (2 ^ (kb - ulp_exp a))).
      { rewrite <- pow2_nonneg_IZR by exact Hd. rewrite pow2_sub.
        apply Rmult_le_compat_r; [left; apply Rinv_0_lt_compat; exact Pa |].
        apply Rle_trans with (pow2 (ilog2 a + 1)); [lra |].
        apply pow2_le. exact Hka. }
      apply nearest_even_le in Hq. apply IZR_le in Hq.
      rewrite <- pow2_nonneg_IZR in Hq by exact Hd.
      replace (pow2 kb) with (pow2 (kb - ulp_exp a) * pow2 (ulp_exp a)).
      * apply Rmult_le_compat_r; [lra | exact Hq].
      * rewrite <- pow2_add. f_equal. lia.
    + (* 2^kb <= nearest b *)
      assert (Hq : IZR (2 ^ 52) <= b / pow2 (ulp_exp b)).
      { rewrite <- pow2_nonneg_IZR by lia.
        replace 52%Z with (kb - ulp_exp b)%Z by lia. rewrite pow2_sub.
        apply Rmult_le_compat_r; [left; apply Rinv_0_lt_compat; exact Pb |].
        exact B1. }
      apply nearest_even_ge in Hq. apply IZR_le in Hq.
      rewrite <- pow2_nonneg_IZR in Hq by lia.
      replace (pow2 kb) with (pow2 52 * pow2 (ulp_exp b)).
      * apply Rmult_le_compat_r; [lra | exact Hq].
      * rewrite <- pow2_add. f_equal. lia.
Qed.

Lemma round_monotone_pos (a b : R) :
  0 < a -> a <= b -> Rounded.dle (round a) (round b).
Proof.
  intros Ha Hab.
  destruct (@nearest_monotone_pos a b Ha Hab) as [H0 H1].
  rewrite !round_nearest_value by lra.
  rewrite !Rabs_pos_eq by lra.
  unfold inf_of_sign. rewrite !(proj2 (Rltb_iff 0 _)) by lra.
  destruct (Rltb (nearest b) (pow2 1024)) eqn:Eb.
  - apply Rltb_iff in Eb.
    rewrite (proj2 (Rltb_iff (nearest a) (pow2 1024))) by lra.
    cbn. exact H1.
  - destruct (Rltb (nearest a) (pow2 1024)); cbn; exact I.
Qed.

Lemma nearest_even_opp (x : R) : nearest_even (- x) = (- nearest_even x)%Z.
Proof.
  unfold nearest_even. cbv zeta.
  pose proof (Zfloor_bound x) as [X0 X1].
  set (f := Zfloor x) in *.
  destruct (Req_dec x (IZR f)) as [Ei | Ei].
  - (* an integer *)
    assert (Ef : Zfloor (- x) = (- f)%Z).
    { rewrite Ei, <- opp_IZR. apply ZfloorZ. }
    rewrite Ef, opp_IZR.
    rewrite !(proj2 (Rltb_iff _ _)) by lra. reflexivity.
  - assert (Ef : Zfloor (- x) = (- f - 1)%Z).
    { apply Zfloor_eq. rewrite minus_IZR, opp_IZR. lra. }
    rewrite Ef, minus_IZR, opp_IZR.
    destruct (Rltb (x - IZR f) (1 / 2)) eqn:A1.
    + apply Rltb_iff in A1.
      rewrite (proj2 (Rltb_iff_false _ _)) by lra.
      rewrite (proj2 (Rltb_iff _ _)) by lra. lia.
    + apply Rltb_iff_false in A1.
      destruct (Rltb (1 / 2) (x - IZR f)) eqn:A2.
      * apply Rltb_iff in A2.
        rewrite (proj2 (Rltb_iff _ _)) by lra. lia.
      * apply Rltb_iff_false in A2.
        rewrite (proj2 (Rltb_iff_false (- x - (- IZR f - 1)) (1 / 2))) by lra.
        rewrite (proj2 (Rltb_iff_false (1 / 2) (- x - (- IZR f - 1)))) by lra.
        replace (- f - 1)%Z with (- (f + 1))%Z by lia.
        rewrite Z.even_opp.
        replace (f + 1)%Z with (Z.succ f) by lia.
        rewrite Z.even_succ, <- Z.negb_even.
        destruct (Z.even f); cbn [negb]; lia.
Qed.

Lemma round_opp (r : R) : round (- r) = dneg (round r).
Proof.
  destruct (Req_dec r 0) as [-> | Hr].
  - rewrite Ropp_0. unfold round. rewrite Reqb_true by reflexivity.
    cbn. f_equal. lra.
  - unfold round. rewrite !Reqb_false by lra. cbv zeta.
    assert (Eu : ulp_exp (- r) = ulp_exp r).
    { unfold ulp_exp, ilog2. rewrite Rabs_Ropp. reflexivity. }
    rewrite Eu.
    replace (- r / pow2 (ulp_exp r)) with (- (r / pow2 (ulp_exp r)))
      by (unfold Rdiv; ring).
    rewrite nearest_even_opp, opp_IZR.
    replace (- IZR (nearest_even (r / pow2 (ulp_exp r))) * pow2 (ulp_exp r))
      with (- (IZR (nearest_even (r / pow2 (ulp_exp r))) * pow2 (ulp_exp r)))
      by ring.
    rewrite Rabs_Ropp.
    destruct (Rltb _ (pow2 1024)); [reflexivity |].
    unfold inf_of_sign.
    destruct (Rlt_dec 0 r) as [Hp | Hn].
    + rewrite (proj2 (Rltb_iff 0 r)) by exact Hp.
      rewrite (proj2 (Rltb_iff_false 0 (- r))) by lra. reflexivity.
    + rewrite (proj2 (Rltb_iff_false 0 r)) by lra.
      rewrite (proj2 (Rltb_iff 0 (- r))) by lra. reflexivity.
Qed.

Lemma dle_dneg (x y : double) :
  Rounded.dle x y -> Rounded.dle (dneg y) (dneg x).
Proof.
  destruct x, y; cbn; intros H; try contradiction; try exact I. lra.
Qed.

Lemma dle_trans (x y z : double) :
  Rounded.dle x y -> Rounded.dle y z -> Rounded.dle x z.
Proof.
  destruct x, y, z; cbn; intros H1 H2; try contradiction; try exact I. lra.
Qed.

(** The rounding of binary64 keeps zero and the order. *)
Lemma round_monotone : Rounded.monotone round.
Proof.
  split; [exact round_0 |].
  intros a b Hab.
  assert (Hpos : forall r, 0 <= r -> Rounded.dle (Fin 0) (round r)).
  { intros r Hr. destruct round_keeps_sign as [_ Hs].
    destruct (Hs r Hr) as [-> | (v & -> & Hv)]; cbn; [exact I | exact Hv]. }
  assert (Hneg : forall r, r <= 0 -> Rounded.dle (round r) (Fin 0)).
  { intros r Hr. replace r with (- - r) by lra. rewrite round_opp.
    replace (Fin 0) with (dneg (Fin 0)) by (cbn; f_equal; lra).
    apply dle_dneg. apply Hpos. lra. }
  destruct (Rlt_dec 0 a) as [Ha | Ha].
  - apply round_monotone_pos; assumption.
  - destruct (Rlt_dec b 0) as [Hb | Hb].
    + replace a with (- - a) by lra. replace b with (- - b) by lra.
      rewrite (round_opp (- a)), (round_opp (- b)).
      apply dle_dneg. apply round_monotone_pos; lra.
    + apply dle_trans with (Fin 0); [apply Hneg | apply Hpos]; lra.
Qed.

End Binary64Order.

(** ** The variant for non-orthogonal lattices *)

(** C6: for every input [GTOnumint_3d_nonorth] ends the process with
    status 1 after reporting on [stderr] that it is not available; it
    never returns, and it leaves the memory, so also [out], as it was. *)
Theorem GTOnumint_3d_nonorth_exits (args : orth_args) (p : process) :
  (exists p' : process,
     GTOnumint_3d_nonorth args p = Exits 1 p' /\
     stderr p' = (stderr p ++ "GTOnumint_3d_nonorth not available" ++ newline)%string /\
     heap p' = heap p) /\
  (forall (u : unit) (p' : process),
     GTOnumint_3d_nonorth args p <> Returns u p').
Proof.
  split.
  - eexists. split; [reflexivity |]. split; reflexivity.
  - intros u p' H. discriminate H.
Qed.

(** ** Loops as folds *)

Section LoopFacts.

Variable S : Type.

Lemma iter_up_fold (k : nat) (i : Z) (body : Z -> S -> S) (s : S) :
  iter_up k i body s =
  fold_left (fun s j => body j s)
            (map (fun t => i + Z.of_nat t) (seq 0 k)) s.
Proof.
  revert i s. induction k as [| k IH]; intros i s; [reflexivity |].
  cbn [iter_up seq map fold_left]. rewrite IH, <- seq_shift, map_map.
  replace (i + Z.of_nat 0) with i by lia.
  f_equal. apply map_ext. intros t. lia.
Qed.

Lemma iter_down_fold (k : nat) (i : Z) (body : Z -> S -> S) (s : S) :
  iter_down k i body s =
  fold_left (fun s j => body j s)
            (map (fun t => i - Z.of_nat t) (seq 0 k)) s.
Proof.
  revert i s. induction k as [| k IH]; intros i s; [reflexivity |].
  cbn [iter_down seq map fold_left]. rewrite IH, <- seq_shift, map_map.
  replace (i - Z.of_nat 0) with i by lia.
  f_equal. apply map_ext. intros t. lia.
Qed.

Lemma for_le_fold (lo hi : Z) (body : Z -> S -> S) (s : S) :
  for_le lo hi body s = fold_left (fun s j => body j s) (zrange_up lo hi) s.
Proof. apply iter_up_fold. Qed.

Lemma for_ge_fold (hi : Z) (body : Z -> S -> S) (s : S) :
  for_ge hi 0 body s = fold_left (fun s j => body j s) (zrange_down hi) s.
Proof.
  unfold for_ge, zrange_down. rewrite iter_down_fold.
  replace (hi + 1 - 0) with (hi + 1) by lia. reflexivity.
Qed.

(** An invariant of [for (i = lo; i < hi; i++)]. *)
Lemma for_lt_invariant (P : Z -> S -> Prop) (lo hi : Z)
    (body : Z -> S -> S) (s : S) :
  lo <= hi ->
  P lo s ->
  (forall i t, lo <= i < hi -> P i t -> P (i + 1) (body i t)) ->
  P hi (for_lt lo hi body s).
Proof.
  intros Hle H0 Hstep. unfold for_lt.
  remember (Z.to_nat (hi - lo)) as k eqn:Hk.
  assert (Hhi : hi = lo + Z.of_nat k) by lia. clear Hk. subst hi.
  revert lo s Hle H0 Hstep. induction k as [| k IH]; intros lo s Hle H0 Hstep.
  - cbn [iter_up]. replace (lo + Z.of_nat 0) with lo by lia. exact H0.
  - cbn [iter_up].
    replace (lo + Z.of_nat (Datatypes.S k)) with (lo + 1 + Z.of_nat k) by lia.
    apply IH.
    + lia.
    + apply Hstep; [lia | exact H0].
    + intros i t Hi. apply Hstep. lia.
Qed.

Lemma for_lt_empty (lo hi : Z) (body : Z -> S -> S) (s : S) :
  hi <= lo -> for_lt lo hi body s = s.
Proof.
  intros H. unfold for_lt. replace (Z.to_nat (hi - lo)) with O by lia.
  reflexivity.
Qed.

End LoopFacts.

Lemma fold_left_flat_map (A B C : Type) (f : A -> C -> A) (h : B -> list C)
    (l : list B) (s : A) :
  fold_left f (flat_map h l) s = fold_left (fun s x => fold_left f (h x) s) l s.
Proof.
  revert s. induction l as [| x l IH]; intros s; [reflexivity |].
  cbn [flat_map fold_left]. rewrite fold_left_app. apply IH.
Qed.

Lemma fold_left_map (A B C : Type) (f : A -> C -> A) (h : B -> C)
    (l : list B) (s : A) :
  fold_left f (map h l) s = fold_left (fun s x => f s (h x)) l s.
Proof.
  revert s. induction l as [| x l IH]; intros s; [reflexivity |].
  cbn [map fold_left]. apply IH.
Qed.

Lemma fold_left_ext_eq (A B : Type) (f f' : A -> B -> A) (l : list B) (s : A) :
  (forall s x, f s x = f' s x) -> fold_left f l s = fold_left f' l s.
Proof.
  intros H. revert s. induction l as [| x l IH]; intros s; [reflexivity |].
  cbn [fold_left]. rewrite H. apply IH.
Qed.

(** ** The order of the Cartesian buffer *)

Section CartOrder.

Variable S : Type.
Variable body : Z -> Z -> Z -> Z -> S -> S.

Lemma cart_loop_triples (floorl topl : Z) (s : S) :
  cart_loop floorl topl body s
  = fold_left (cart_step body) (cart_triples floorl topl) (0, s).
Proof.
  unfold cart_loop, cart_triples.
  rewrite for_le_fold, fold_left_flat_map.
  apply fold_left_ext_eq. intros st l.
  rewrite for_ge_fold, fold_left_flat_map.
  apply fold_left_ext_eq. intros st' lx.
  rewrite for_ge_fold, fold_left_map.
  apply fold_left_ext_eq. intros [n s'] ly. reflexivity.
Qed.

Lemma cart_step_numbered (l : list (Z * Z * Z)) (n : Z) (s : S) :
  fold_left (cart_step body) l (n, s)
  = (n + Z.of_nat (List.length l),
     fold_left (cart_store body) (numbered n l) s).
Proof.
  revert n s. induction l as [| [[lx ly] lz] l IH]; intros n s.
  - cbn. f_equal. lia.
  - cbn [fold_left cart_step numbered cart_store List.length]. rewrite IH.
    f_equal. lia.
Qed.

Lemma cart_loop_numbered (floorl topl : Z) (s : S) :
  cart_loop floorl topl body s
  = (Z.of_nat (List.length (cart_triples floorl topl)),
     fold_left (cart_store body) (numbered 0 (cart_triples floorl topl)) s).
Proof. rewrite cart_loop_triples, cart_step_numbered. reflexivity. Qed.

End CartOrder.

(** C8: [GTOnumint_3d_orth] stores its values in the order of the triples
    (lx, ly, lz) with the total [l] ascending from [floorl] to [topl], then
    [lx] descending from [l] to 0, then [ly] descending from [l - lx] to 0
    and [lz = l - lx - ly]: the store number [n], from 0, goes to [out[n]]
    and holds the contraction of the z axis for the triple number [n]; the
    number of stores is the number of the triples. *)
Theorem GTOnumint_3d_orth_z_order (out floorl topl : Z) (mesh : ints)
    (L : orth_layout) (nimgz nz0 nz1 : Z) (M : mem) :
  let lo := if nimgz =? 1 then nz0 else 0 in
  let hi := if nimgz =? 1 then nz1 else mesh 2 in
  GTOnumint_3d_orth_z out floorl topl mesh L nimgz nz0 nz1 M
  = fold_left
      (fun M (w : Z * (Z * Z * Z)) =>
         let '(n, (lx, ly, lz)) := w in
         upd M (out + n)
             (zdot M (weightz L + (lx * (topl + 1) + ly) * mesh 2)
                   (zs_exp L + lz * mesh 2) lo hi))
      (numbered 0 (cart_triples floorl topl)) M
  /\
  fst (cart_loop floorl topl (z_body out topl mesh L lo hi) M)
  = Z.of_nat (List.length (cart_triples floorl topl)).
Proof.
  intros lo hi. split.
  - unfold GTOnumint_3d_orth_z. subst lo hi.
    destruct (nimgz =? 1); rewrite cart_loop_numbered; cbn [snd];
      apply fold_left_ext_eq; intros M' [n [[lx ly] lz]]; reflexivity.
  - rewrite cart_loop_numbered. reflexivity.
Qed.

(** The triples of the first totals, as the order has them. *)
Example cart_triples_0_1 :
  cart_triples 0 1 = [(0, 0, 0); (1, 0, 0); (0, 1, 0); (0, 0, 1)].
Proof. reflexivity. Qed.

Example cart_triples_2_2 :
  cart_triples 2 2
  = [(2, 0, 0); (1, 1, 0); (1, 0, 1); (0, 2, 0); (0, 1, 1); (0, 0, 2)].
Proof. reflexivity. Qed.

(** The number of the triples is the length [len_g1d] that
    [GTOnumint1e_loop] gives the buffer [g], for the angular momenta of
    the tables. *)
Lemma cart_triples_count (floorl topl : Z) :
  0 <= floorl <= topl -> topl <= 15 ->
  Z.of_nat (List.length (cart_triples floorl topl))
  = tbl _CUM_LEN_CART topl - (tbl _CUM_LEN_CART floorl - tbl _LEN_CART floorl).
Proof.
  intros H1 H2.
  assert (Hall : forallb (fun f => forallb (fun t => (t <? f) || count_agrees f t)
                                           (zrange_up 0 15))
                         (zrange_up 0 15) = true) by (vm_compute; reflexivity).
  rewrite forallb_forall in Hall.
  assert (Hin : forall x, 0 <= x <= 15 -> In x (zrange_up 0 15)).
  { intros x Hx. unfold zrange_up. apply in_map_iff.
    exists (Z.to_nat x). split; [lia |]. apply in_seq. lia. }
  specialize (Hall floorl (Hin floorl ltac:(lia))).
  rewrite forallb_forall in Hall.
  specialize (Hall topl (Hin topl ltac:(lia))).
  apply orb_true_iff in Hall. destruct Hall as [Hlt | Hc].
  - apply Z.ltb_lt in Hlt. lia.
  - unfold count_agrees in Hc. apply Z.eqb_eq in Hc. exact Hc.
Qed.

(** ** The contraction of the y axis *)

Section YContraction.

Local Open Scope R_scope.

Lemma dne_D0 : dne D0 (Fin 0) = false.
Proof. unfold D0. cbn [dne]. rewrite Reqb_true by reflexivity. reflexivity. Qed.

Lemma dne_D1 : dne D1 (Fin 0) = true.
Proof. unfold D1. cbn [dne]. rewrite Reqb_false by lra. reflexivity. Qed.

(** An axis of two grid points per cell, a pair centre in the middle of
    the cell and a cutoff of 0.9 cells: three images, and the populated
    slice starts at the grid point 1. *)
Lemma slices_three_images :
  _cartesian_components_slices true 2 (Fin (1 / 2)) (Fin (9 / 10)) (Fin 1)
  = Some {| nimg0 := -1; nimg1 := 2; nx0 := 1; nx1 := 1 |}.
Proof.
  unfold _cartesian_components_slices.
  cbn [dsub dadd dmul dneg of_int].
  rewrite !to_int_floor, !to_int_ceil.
  assert (E1 : Zfloor (1 / 2 + - (9 / 10 * 1)) = (-1)%Z)
    by (apply Zfloor_eq; lra).
  assert (E2 : Zceil (1 / 2 + 9 / 10 * 1) = 2%Z)
    by (apply Zceil_eq; lra).
  assert (E3 : Zfloor ((1 / 2 + - (9 / 10 * 1)) * 2) = (-1)%Z)
    by (apply Zfloor_eq; lra).
  assert (E4 : Zceil ((1 / 2 + 9 / 10 * 1) * 2) = 3%Z)
    by (apply Zceil_eq; lra).
  rewrite E1, E2, E3, E4. reflexivity.
Qed.

End YContraction.

(** C5, the code at the failing input: with three images on the y axis
    and the slice starting at the grid point 1, the code contracts
    [weightyz] with the y table read from [ys_exp + 1], so with
    [ys_exp[1]] and the element after the table, and stores
    1*3 + 1*5 = 8; the contraction over the whole cell with the table
    read from its start is 1*2 + 1*3 = 5. *)
Theorem GTOnumint_3d_orth_y_reads_shifted_table :
  _cartesian_components_slices true (mesh_121 1)
    (Fin (1 / 2)) (Fin (9 / 10)) (Fin 1)
  = Some {| nimg0 := -1; nimg1 := 2; nx0 := 1; nx1 := 1 |}
  /\
  GTOnumint_3d_orth_y 0 mesh_121 layout_121 3 1 1 cache_121
                      (weightz layout_121) = Fin 8
  /\
  y_contraction_full 0 mesh_121 layout_121 cache_121 0 0 0 = Fin 5
  /\
  GTOnumint_3d_orth_y 0 mesh_121 layout_121 3 1 1 cache_121
                      (weightz layout_121)
  <> y_contraction_full 0 mesh_121 layout_121 cache_121 0 0 0.
Proof.
  assert (Hcode : GTOnumint_3d_orth_y 0 mesh_121 layout_121 3 1 1 cache_121
                                      (weightz layout_121) = Fin 8);
    [| assert (Hfull : y_contraction_full 0 mesh_121 layout_121 cache_121
                                          0 0 0 = Fin 5);
       [| split; [exact slices_three_images |];
          split; [exact Hcode |]; split; [exact Hfull |];
          rewrite Hcode, Hfull; intros H; apply Fin_inj in H; lra ]].
  - assert (E : GTOnumint_3d_orth_y 0 mesh_121 layout_121 3 1 1 cache_121
                                    (weightz layout_121)
                = ((if dne D0 (Fin 0) then D0 * cache_121 6 else Fin 0)
                   + D1 * ((Fin 0 + Fin 1 * Fin 3) + Fin 1 * Fin 5))%dbl)
      by reflexivity.
    rewrite E, dne_D0. unfold D1. cbn [dadd dmul]. f_equal. lra.
  - assert (E : y_contraction_full 0 mesh_121 layout_121 cache_121 0 0 0
                = ((Fin 0 + Fin 1 * Fin 2) + Fin 1 * Fin 3)%dbl)
      by reflexivity.
    rewrite E. cbn [dadd dmul]. f_equal. lra.
Qed.

(** *** The full-range branch in general *)

Lemma dsum_ext (k : nat) (f f' : Z -> double) :
  (forall l, 0 <= l < Z.of_nat k -> f l = f' l) -> dsum k f = dsum k f'.
Proof.
  induction k as [| k IH]; intros H; [reflexivity |].
  cbn [dsum]. rewrite IH, H; [reflexivity | lia |].
  intros l Hl. apply H. lia.
Qed.

Lemma dgemm_NN_inside (m n k : Z) (alpha : double) (a lda b ldb : Z)
    (beta : double) (c ldc : Z) (M : mem) (i j : Z) :
  0 <= i < m -> m <= ldc -> 0 <= j < n ->
  dgemm_NN m n k alpha a lda b ldb beta c ldc M (c + i + j * ldc)
  = ((if dne beta (Fin 0) then beta * M (c + i + j * ldc)%Z else Fin 0)
     + alpha * dsum (Z.to_nat k)
                 (fun l => M (a + i + l * lda)%Z * M (b + l + j * ldb)%Z))%dbl.
Proof.
  intros Hi Hm Hj. unfold dgemm_NN.
  replace (c + i + j * ldc - c) with (i + j * ldc) by lia.
  rewrite Z.div_add, Z.mod_add, Z.div_small, Z.mod_small by lia.
  replace (0 <=? i + j * ldc) with true by (symmetry; apply Z.leb_le; nia).
  replace (0 <? ldc) with true by (symmetry; apply Z.ltb_lt; lia).
  replace (i <? m) with true by (symmetry; apply Z.ltb_lt; lia).
  replace (0 + j <? n) with true by (symmetry; apply Z.ltb_lt; lia).
  reflexivity.
Qed.

Lemma dgemm_NN_outside (m n k : Z) (alpha : double) (a lda b ldb : Z)
    (beta : double) (c ldc : Z) (M : mem) (q : Z) :
  q < c \/ c + n * ldc <= q ->
  dgemm_NN m n k alpha a lda b ldb beta c ldc M q = M q.
Proof.
  intros Hq. unfold dgemm_NN. cbv zeta.
  destruct Hq as [Hq | Hq].
  - replace (0 <=? q - c) with false by (symmetry; apply Z.leb_gt; lia).
    reflexivity.
  - destruct (0 <? ldc) eqn:H1.
    + apply Z.ltb_lt in H1.
      replace ((q - c) / ldc <? n) with false.
      * rewrite andb_false_r. reflexivity.
      * symmetry. apply Z.ltb_ge. apply Z.div_le_lower_bound; lia.
    + rewrite andb_false_r. reflexivity.
Qed.

Section YFullRange.

Variables (topl : Z) (mesh : ints) (cache : Z) (nimgy ny0 ny1 : Z) (M : mem).

Let L := GTOnumint_3d_orth_layout topl mesh cache.

Hypothesis topl_nonneg : 0 <= topl.
Hypothesis mesh1_pos : 0 < mesh 1.
Hypothesis mesh2_pos : 0 < mesh 2.
Hypothesis not_one_image : (nimgy =? 1) = false.
Hypothesis not_two_pieces :
  (nimgy =? 2) && negb (_has_overlap ny0 ny1 (mesh 1)) = false.
Hypothesis ny0_in_cell : 0 <= ny0 < mesh 1.

(** What the branch of lines 309-315 stores for the x power [lx], the y
    power [ly] and the z index [iz]: the contraction over all [mesh[1]]
    grid points with the y table read from [ys_exp + ny0]. *)
Lemma GTOnumint_3d_orth_y_full_branch (lx ly iz : Z) :
  0 <= lx <= topl -> 0 <= ly <= topl -> 0 <= iz < mesh 2 ->
  GTOnumint_3d_orth_y topl mesh L nimgy ny0 ny1 M
    (weightz L + lx * (topl + 1) * mesh 2 + ly * mesh 2 + iz)
  = (Fin 0
     + D1 * dsum (Z.to_nat (mesh 1))
              (fun iy =>
                 M (weightyz L + lx * (mesh 1 * mesh 2) + iy * mesh 2 + iz)%Z
                 * M (ys_exp L + ny0 + ly * mesh 1 + iy)%Z))%dbl.
Proof.
  unfold GTOnumint_3d_orth_y. rewrite not_one_image, not_two_pieces.
  set (body := fun (lx : Z) (M : mem) =>
    dgemm_NN (mesh 2) (topl + 1) (mesh 1) D1
             (weightyz L + lx * (mesh 1 * mesh 2)) (mesh 2)
             (ys_exp L + ny0) (mesh 1) D0
             (weightz L + lx * (topl + 1) * mesh 2) (mesh 2) M).
  change (for_le 0 topl body M) with (for_lt 0 (topl + 1) body M).
  assert (Hwz : weightz L = weightyz L + (topl + 1) * (mesh 1 * mesh 2))
    by reflexivity.
  assert (Hys : weightyz L
                = ys_exp L + (topl + 1) * mesh 1 + (topl + 1) * mesh 2).
  { unfold L, GTOnumint_3d_orth_layout. cbn [weightyz ys_exp]. lia. }
  pose (P := fun (k : Z) (Mk : mem) =>
    (forall q, q < weightz L -> Mk q = M q) /\
    (forall lx ly iz, 0 <= lx < k -> 0 <= ly <= topl -> 0 <= iz < mesh 2 ->
       Mk (weightz L + lx * (topl + 1) * mesh 2 + ly * mesh 2 + iz)
       = (Fin 0
          + D1 * dsum (Z.to_nat (mesh 1))
                   (fun iy =>
                      M (weightyz L + lx * (mesh 1 * mesh 2) + iy * mesh 2 + iz)%Z
                      * M (ys_exp L + ny0 + ly * mesh 1 + iy)%Z))%dbl)).
  assert (HP : P (topl + 1) (for_lt 0 (topl + 1) body M)).
  { apply for_lt_invariant; [lia | |].
    - split; [reflexivity | intros; lia].
    - intros k Mk Hk [Hlow Hdone]. split.
      + intros q Hq. unfold body. rewrite dgemm_NN_outside by nia.
        apply Hlow; exact Hq.
      + intros lx' ly' iz' Hlx Hly Hiz.
        destruct (Z.eq_dec lx' k) as [-> | Hne].
        * unfold body.
          replace (weightz L + k * (topl + 1) * mesh 2 + ly' * mesh 2 + iz')
            with (weightz L + k * (topl + 1) * mesh 2 + iz' + ly' * mesh 2)
            by lia.
          rewrite dgemm_NN_inside by lia.
          rewrite dne_D0. f_equal. f_equal.
          apply dsum_ext. intros iy Hiy.
          rewrite !Hlow by nia. f_equal; f_equal; lia.
        * unfold body. rewrite dgemm_NN_outside by nia.
          apply Hdone; lia. }
  intros Hlx Hly Hiz. apply (proj2 HP); lia.
Qed.

End YFullRange.

(** ** The size of the scratch buffer *)

(** At this input the first primitive pair passes the screening, so
    [GTOnumint_3d_orth] runs. *)
Lemma s11_first_pair_not_screened (M : mem) :
  let L := drv_loop_layout envs_s11 0 in
  screened envs_s11 L (log_prim_tables envs_s11 L M) 0 0 = false.
Proof.
  cbv zeta. unfold screened.
  assert (Ee : prim_eij envs_s11 0 0
               = ((Fin 1 * Fin 1 / (Fin 1 + Fin 1))
                  * ((Fin 1 - Fin 1) * (Fin 1 - Fin 1)
                     + (Fin 1 - Fin 1) * (Fin 1 - Fin 1)
                     + (Fin 1 - Fin 1) * (Fin 1 - Fin 1)))%dbl)
    by reflexivity.
  assert (El : prim_logcc (drv_loop_layout envs_s11 0)
                 (log_prim_tables envs_s11 (drv_loop_layout envs_s11 0) M) 0 0
               = (dlog (MAX (Fin 0) (dfabs (Fin 1)))
                  + dlog (MAX (Fin 0) (dfabs (Fin 1))))%dbl)
    by reflexivity.
  rewrite Ee, El, MAX_0_fabs_1, dlog_1.
  cbn [dmul dadd dsub dneg ddiv]. rewrite Reqb_false by lra.
  unfold EXPCUTOFF15. cbn [dmul dadd dsub dneg dgt].
  apply Rltb_false. lra.
Qed.

(** C1, the code at the failing input: the sizing query returns 36
    elements; on the execution path the first primitive pair is not
    screened out, the tables of the 11 + 11 primitives end at offset 26,
    [GTOnumint_3d_orth] puts [weightz] at offset 36, and for an axis of
    one image, whatever its grid slice, the contraction of the y axis
    stores a new value there, past the 36 elements. *)
Theorem cache_size_short_for_22_primitives
    (orth : orth_args -> CINTEnvVars -> mem -> mem)
    (vrr2d : Z -> Z -> Z -> CINTEnvVars -> mem -> mem)
    (c2s : c2s_fn -> Z -> Z -> ints -> CINTEnvVars -> Z -> state -> state)
    (log_prec : double) (dimension : Z) (st : state) (M : mem)
    (ny0 ny1 : Z) :
  fst (GTO_numint1e_drv orth vrr2d c2s None None c2s_cart_1e (Fin 1)
                        log_prec dimension grid_222 envs_s11 0 st) = 36
  /\
  screened envs_s11 (drv_loop_layout envs_s11 0)
           (log_prim_tables envs_s11 (drv_loop_layout envs_s11 0) M) 0 0
  = false
  /\
  log_jprim_max (drv_loop_layout envs_s11 0) + 11 = 26
  /\
  weightz (drv_orth_layout mesh_222 envs_s11 0) = 36
  /\
  GTOnumint_3d_orth_y 0 mesh_222 (drv_orth_layout mesh_222 envs_s11 0)
                      1 ny0 ny1 M 36
  = (Fin 0
     + D1 * dsum (Z.to_nat (ny1 - ny0))
              (fun l => M (32 + ny0 * 2 + 0 + l * 2)%Z
                        * M (28 + ny0 + l + 0 * 2)%Z))%dbl.
Proof.
  split; [reflexivity |]. split; [apply s11_first_pair_not_screened |].
  split; [reflexivity |]. split; [reflexivity |].
  assert (E : GTOnumint_3d_orth_y 0 mesh_222
                (drv_orth_layout mesh_222 envs_s11 0) 1 ny0 ny1 M
              = dgemm_NN 2 1 (ny1 - ny0) D1 (32 + ny0 * 2) 2 (28 + ny0) 2
                         D0 36 2 M)
    by reflexivity.
  rewrite E. change 36 with (36 + 0 + 0 * 2) at 2.
  rewrite dgemm_NN_inside by lia. rewrite dne_D0. reflexivity.
Qed.

(** C10, the code at the failing input: [_max_cache_size] asks the sizes
    of the pairs (0, 0) and (1, 1), 169 and 180, and returns 180; the
    slice has the pair (0, 1), and the sizing query asks 196 for it.  On
    the execution path of that pair [weightz], of 8 elements, starts at
    offset 178. *)
Theorem max_cache_size_below_mixed_pair
    (orth : orth_args -> CINTEnvVars -> mem -> mem)
    (vrr2d : Z -> Z -> Z -> CINTEnvVars -> mem -> mem)
    (c2s : c2s_fn -> Z -> Z -> ints -> CINTEnvVars -> Z -> state -> state)
    (st : state) :
  let intor := NUMINT1e_ovlp_cart orth vrr2d c2s in
  let size_of := fun i j =>
    fst (intor None None (ints_of [i; j]) basis_s8_p2 (Fin 0) 3 grid_222 0 st) in
  size_of 0 0 = 169 /\ size_of 1 1 = 180 /\
  _max_cache_size intor slice_0_1 basis_s8_p2 grid_222 st = (180, st) /\
  fill2c_calls PLAIN slice_0_1 = [(0, 1)] /\
  size_of 0 1 = 196 /\
  weightz (drv_orth_layout mesh_222 envs_s8_p2 0) = 178.
Proof.
  cbv zeta. repeat split; reflexivity.
Qed.

(** ** Screening and the empty shell pair *)

Lemma fill_const_spec (k base : Z) (v : double) (M : mem) (q : Z) :
  for_lt 0 k (fun n M => upd M (base + n) v) M q
  = if (base <=? q) && (q <? base + k) then v else M q.
Proof.
  destruct (Z.le_gt_cases k 0) as [Hk | Hk].
  - rewrite for_lt_empty by lia.
    destruct (base <=? q) eqn:H1; [| reflexivity].
    destruct (q <? base + k) eqn:H2; [| reflexivity].
    apply Z.leb_le in H1. apply Z.ltb_lt in H2. lia.
  - pose (P := fun (i : Z) (Mi : mem) =>
      Mi q = if (base <=? q) && (q <? base + i) then v else M q).
    assert (HP : P k (for_lt 0 k (fun n M => upd M (base + n) v) M)).
    { apply for_lt_invariant; [lia | |].
      - unfold P. destruct (base <=? q) eqn:H1; [| reflexivity].
        replace (q <? base + 0) with false; [reflexivity |].
        symmetry. apply Z.ltb_ge. apply Z.leb_le in H1. lia.
      - intros i Mi Hi HPi. unfold P in *. unfold upd.
        destruct (q =? base + i) eqn:Hq.
        + apply Z.eqb_eq in Hq.
          replace (base <=? q) with true by (symmetry; apply Z.leb_le; lia).
          replace (q <? base + (i + 1)) with true
            by (symmetry; apply Z.ltb_lt; lia).
          reflexivity.
        + apply Z.eqb_neq in Hq. rewrite HPi.
          destruct (base <=? q); [| reflexivity].
          cbn [andb].
          destruct (q <? base + i) eqn:H2.
          * replace (q <? base + (i + 1)) with true; [reflexivity |].
            symmetry. apply Z.ltb_lt. apply Z.ltb_lt in H2. lia.
          * replace (q <? base + (i + 1)) with false; [reflexivity |].
            symmetry. apply Z.ltb_ge. apply Z.ltb_ge in H2. lia. }
    exact HP.
Qed.

Section EmptyPair.

Variable orth : orth_args -> CINTEnvVars -> mem -> mem.
Variable vrr2d : Z -> Z -> Z -> CINTEnvVars -> mem -> mem.
Variable c2s : c2s_fn -> Z -> Z -> ints -> CINTEnvVars -> Z -> state -> state.

Variables (fac1 fac log_prec : double) (dimension : Z) (G : grid).
Variable envs : CINTEnvVars.

Let i_prim := bas_ (bas envs) NPRIM_OF (shls envs 0).
Let j_prim := bas_ (bas envs) NPRIM_OF (shls envs 1).

Lemma ip_loop_flag (L : loop_layout) (jp : Z) (M : mem) :
  let r := for_lt 0 i_prim
             (loop_ip_body orth fac1 log_prec dimension G envs L jp)
             (true, M) in
  fst r = true ->
  snd r = M /\ forall ip, 0 <= ip < i_prim -> screened envs L M ip jp = true.
Proof.
  cbv zeta.
  destruct (Z.le_gt_cases i_prim 0) as [Hle | Hgt].
  - rewrite for_lt_empty by lia. cbn [fst snd]. intros _.
    split; [reflexivity | intros; lia].
  - pose (P := fun (i : Z) (st : bool * mem) =>
      fst st = true ->
      snd st = M /\
      forall ip, 0 <= ip < i -> screened envs L M ip jp = true).
    apply (@for_lt_invariant _ P); [lia | |].
    + intros _. split; [reflexivity | intros; lia].
    + intros i [ie Mi] Hi HPi. unfold P in *. cbn [fst snd] in *.
      unfold loop_ip_body.
      destruct (screened envs L Mi i jp) eqn:Hs.
      * cbn [fst snd]. intros He. destruct (HPi He) as [HM Hprev].
        subst Mi. split; [reflexivity |].
        intros ip Hip. destruct (Z.eq_dec ip i) as [-> | Hne];
          [exact Hs | apply Hprev; lia].
      * cbn [fst]. discriminate.
Qed.

Lemma ip_loop_screened (L : loop_layout) (jp : Z) (M : mem) :
  (forall ip, 0 <= ip < i_prim -> screened envs L M ip jp = true) ->
  for_lt 0 i_prim (loop_ip_body orth fac1 log_prec dimension G envs L jp)
         (true, M) = (true, M).
Proof.
  intros Hall.
  destruct (Z.le_gt_cases i_prim 0) as [Hle | Hgt].
  - apply for_lt_empty. lia.
  - apply (@for_lt_invariant _ (fun _ st => st = (true, M))); [lia | reflexivity |].
    intros i st Hi ->. unfold loop_ip_body. rewrite Hall by lia. reflexivity.
Qed.

Lemma jp_loop_flag (L : loop_layout) (M : mem) :
  let r := for_lt 0 j_prim
             (loop_jp_body orth fac1 log_prec dimension G envs L)
             (true, M) in
  fst r = true -> snd r = M /\ all_screened envs L M.
Proof.
  cbv zeta.
  destruct (Z.le_gt_cases j_prim 0) as [Hle | Hgt].
  - rewrite for_lt_empty by lia. cbn [fst snd]. intros _.
    split; [reflexivity | intros ip jp _ Hjp; lia].
  - pose (P := fun (j : Z) (st : bool * mem) =>
      fst st = true ->
      snd st = M /\
      forall ip jp, 0 <= ip < i_prim -> 0 <= jp < j ->
        screened envs L M ip jp = true).
    apply (@for_lt_invariant _ P); [lia | |].
    + intros _. split; [reflexivity | intros; lia].
    + intros j [je Mj] Hj HPj. unfold P in *. cbn [fst snd] in *.
      unfold loop_jp_body. fold i_prim.
      pose proof (ip_loop_flag L j Mj) as Hin. cbv zeta in Hin.
      destruct (for_lt 0 i_prim
                  (loop_ip_body orth fac1 log_prec dimension G envs L j)
                  (true, Mj)) as [ie Mi].
      cbn [fst snd] in Hin.
      destruct ie; cbn [negb fst snd]; [| discriminate].
      intros He. destruct (HPj He) as [HM Hprev]. subst Mj.
      destruct (Hin eq_refl) as [HMi Hrow]. subst Mi.
      split; [reflexivity |].
      intros ip jp Hip Hjp. destruct (Z.eq_dec jp j) as [-> | Hne];
        [apply Hrow; exact Hip | apply Hprev; lia].
Qed.

Lemma jp_loop_screened (L : loop_layout) (M : mem) :
  all_screened envs L M ->
  for_lt 0 j_prim (loop_jp_body orth fac1 log_prec dimension G envs L)
         (true, M) = (true, M).
Proof.
  intros Hall.
  destruct (Z.le_gt_cases j_prim 0) as [Hle | Hgt].
  - apply for_lt_empty. lia.
  - apply (@for_lt_invariant _ (fun _ st => st = (true, M))); [lia | reflexivity |].
    intros j st Hj ->. unfold loop_jp_body. fold i_prim.
    rewrite ip_loop_screened; [reflexivity |].
    intros ip Hip. apply Hall; lia.
Qed.

End EmptyPair.

Section EmptyPairDriver.

Variable orth : orth_args -> CINTEnvVars -> mem -> mem.
Variable vrr2d : Z -> Z -> Z -> CINTEnvVars -> mem -> mem.
Variable c2s : c2s_fn -> Z -> Z -> ints -> CINTEnvVars -> Z -> state -> state.

Variables (fac log_prec : double) (dimension : Z) (G : grid).
Variable envs : CINTEnvVars.

(** [GTOnumint1e_loop] returns 0 exactly when every primitive pair is
    screened out, and then it leaves the cache as the tables of
    logarithms left it. *)
Lemma GTOnumint1e_loop_flag (out cache : Z) (M : mem) :
  let L := GTOnumint1e_loop_layout envs cache in
  let M1 := log_prim_tables envs L M in
  fst (GTOnumint1e_loop orth vrr2d out fac log_prec dimension G envs cache M)
  = false
  <-> all_screened envs L M1.
Proof.
  cbv zeta. unfold GTOnumint1e_loop.
  set (L := GTOnumint1e_loop_layout envs cache).
  set (M1 := log_prim_tables envs L M).
  set (fac1 := (fac * CINTcommon_fac_sp (i_l envs)
                * CINTcommon_fac_sp (j_l envs))%dbl).
  split.
  - intros Hret.
    pose proof (jp_loop_flag orth fac1 log_prec dimension G envs L M1) as Hj.
    cbv zeta in Hj.
    destruct (for_lt 0 (bas_ (bas envs) NPRIM_OF (shls envs 1))
                (loop_jp_body orth fac1 log_prec dimension G envs L)
                (true, M1)) as [je Mj].
    cbn [fst snd] in *. destruct je; [| discriminate].
    apply Hj. reflexivity.
  - intros Hall. rewrite jp_loop_screened by exact Hall. reflexivity.
Qed.

Lemma GTOnumint1e_loop_empty (out cache : Z) (M : mem) :
  let L := GTOnumint1e_loop_layout envs cache in
  let M1 := log_prim_tables envs L M in
  all_screened envs L M1 ->
  GTOnumint1e_loop orth vrr2d out fac log_prec dimension G envs cache M
  = (false, M1).
Proof.
  cbv zeta. intros Hall. unfold GTOnumint1e_loop.
  rewrite jp_loop_screened by exact Hall. reflexivity.
Qed.

(** For a shell pair with every primitive pair screened out,
    [GTO_numint1e_drv] returns 0, sets the [nc * n_comp] elements of
    [gctr], at the start of the cache, to zero, and does not store to
    [out]. *)
Lemma GTO_numint1e_drv_empty (out : Z) (dims : option ints) (f_c2s : c2s_fn)
    (cache : Z) (st : state) :
  let nc := nf envs * x_ctr envs 0 * x_ctr envs 1 in
  let n_comp := ncomp_e1 envs * ncomp_tensor envs in
  let L := GTOnumint1e_loop_layout envs (cache + nc * n_comp) in
  let M1 := log_prim_tables envs L (cachem st) in
  all_screened envs L M1 ->
  let r := GTO_numint1e_drv orth vrr2d c2s (Some out) dims f_c2s fac log_prec
                            dimension G envs cache st in
  fst r = 0 /\
  (forall n, 0 <= n < nc * n_comp -> cachem (snd r) (cache + n) = Fin 0) /\
  outm (snd r) = outm st.
Proof.
  cbv zeta. intros Hall. unfold GTO_numint1e_drv.
  rewrite GTOnumint1e_loop_empty by exact Hall.
  cbn [negb fst snd cachem outm].
  split; [reflexivity |]. split; [| reflexivity].
  intros n Hn. rewrite fill_const_spec.
  replace (cache <=? cache + n) with true by (symmetry; apply Z.leb_le; lia).
  replace (cache + n <? cache + _) with true by (symmetry; apply Z.ltb_lt; lia).
  reflexivity.
Qed.

End EmptyPairDriver.

Section EmptyPairInput.

Lemma two_s_all_screened (M : mem) :
  let L := GTOnumint1e_loop_layout envs_two_s 1 in
  all_screened envs_two_s L (log_prim_tables envs_two_s L M).
Proof.
  cbv zeta. intros ip jp Hip Hjp.
  change (bas_ (bas envs_two_s) NPRIM_OF (shls envs_two_s 0)) with 1 in Hip.
  change (bas_ (bas envs_two_s) NPRIM_OF (shls envs_two_s 1)) with 1 in Hjp.
  assert (ip = 0) by lia. assert (jp = 0) by lia. subst ip jp.
  unfold screened.
  assert (Ee : prim_eij envs_two_s 0 0
               = ((Fin 1 * Fin 1 / (Fin 1 + Fin 1))
                  * ((Fin 0 - Fin 10) * (Fin 0 - Fin 10)
                     + (Fin 0 - Fin 0) * (Fin 0 - Fin 0)
                     + (Fin 0 - Fin 0) * (Fin 0 - Fin 0)))%dbl)
    by reflexivity.
  assert (El : prim_logcc (GTOnumint1e_loop_layout envs_two_s 1)
                 (log_prim_tables envs_two_s
                    (GTOnumint1e_loop_layout envs_two_s 1) M) 0 0
               = (dlog (MAX (Fin 0) (dfabs (Fin 1)))
                  + dlog (MAX (Fin 0) (dfabs (Fin 1))))%dbl)
    by reflexivity.
  rewrite Ee, El, MAX_0_fabs_1, dlog_1.
  cbn [dmul dadd dsub dneg ddiv]. rewrite Reqb_false by lra.
  unfold EXPCUTOFF15. cbn [dmul dadd dsub dneg dgt].
  apply Rltb_true. lra.
Qed.

End EmptyPairInput.

(** C2, the code at the failing input: every primitive pair of the shell
    pair is screened out; the call returns 0 and has set [gctr], the
    first element of the cache, to zero, but the block of the result still
    holds the 7 from before the call. *)
Theorem empty_pair_leaves_out_block
    (orth : orth_args -> CINTEnvVars -> mem -> mem)
    (vrr2d : Z -> Z -> Z -> CINTEnvVars -> mem -> mem)
    (c2s : c2s_fn -> Z -> Z -> ints -> CINTEnvVars -> Z -> state -> state)
    (log_prec : double) (dimension : Z) (G : grid) :
  let r := NUMINT1e_ovlp_cart orth vrr2d c2s (Some 0) None (ints_of [0; 1])
                              basis_two_s log_prec dimension G 0
                              state_sevens in
  fst (GTOnumint1e_loop orth vrr2d 0 (Fin 1) log_prec dimension G
                        envs_two_s 1 (cachem state_sevens)) = false
  /\ fst r = 0
  /\ cachem (snd r) 0 = Fin 0
  /\ outm (snd r) 0 = Fin 7.
Proof.
  cbv zeta. split.
  - apply GTOnumint1e_loop_flag. apply two_s_all_screened.
  - unfold NUMINT1e_ovlp_cart.
    change (CINTinit_int1e_EnvVars ng_ovlp (ints_of [0; 1]) (b_atm basis_two_s)
              (b_natm basis_two_s) (b_bas basis_two_s) (b_nbas basis_two_s)
              (b_env basis_two_s)) with envs_two_s.
    pose proof (@GTO_numint1e_drv_empty orth vrr2d c2s (Fin 1) log_prec
                  dimension G envs_two_s 0 None c2s_cart_1e 0 state_sevens)
      as H.
    cbv zeta in H. specialize (H (two_s_all_screened _)).
    destruct H as (Hret & Hzero & Hout).
    split; [exact Hret |]. split.
    + apply (Hzero 0). change (0 <= 0 < 1). lia.
    + rewrite Hout. reflexivity.
Qed.

(** ** The matrix of all shell pairs *)

Lemma iter_up_related (S1 S2 : Type) (R : S1 -> S2 -> Prop) (k : nat) (i : Z)
    (b1 : Z -> S1 -> S1) (b2 : Z -> S2 -> S2) (s1 : S1) (s2 : S2) :
  R s1 s2 ->
  (forall j t1 t2, R t1 t2 -> R (b1 j t1) (b2 j t2)) ->
  R (iter_up k i b1 s1) (iter_up k i b2 s2).
Proof.
  intros H0 Hstep. revert i s1 s2 H0.
  induction k as [| k IH]; intros i s1 s2 H0; [exact H0 |].
  cbn [iter_up]. apply IH. apply Hstep. exact H0.
Qed.

(** The loop over the pairs runs its action on the pairs of
    [fill2c_calls], in their order. *)
Lemma fill2c_pairs_calls (S : Type) (hermi : Z) (shls_slice : ints)
    (call : Z -> Z -> S -> S) (s : S) :
  fill2c_pairs hermi shls_slice call s
  = fold_left (fun s p => call (fst p) (snd p) s)
              (fill2c_calls hermi shls_slice) s.
Proof.
  unfold fill2c_calls, fill2c_pairs, for_lt.
  apply (@iter_up_related S (list (Z * Z))
           (fun t l => t = fold_left (fun s p => call (fst p) (snd p) s) l s)).
  - reflexivity.
  - intros ij t l ->.
    destruct (negb (hermi =? PLAIN)
              && (Z.quot ij (shls_slice 3 - shls_slice 2)
                  >? Z.rem ij (shls_slice 3 - shls_slice 2))).
    + reflexivity.
    + rewrite fold_left_app. reflexivity.
Qed.

(** In a mode other than PLAIN the kernel is called only for pairs whose
    indices from the start of the slice are in the upper triangle. *)
Lemma fill2c_calls_upper (hermi : Z) (shls_slice : ints) :
  hermi <> PLAIN ->
  Forall (fun p => fst p - shls_slice 0 <= snd p - shls_slice 2)
         (fill2c_calls hermi shls_slice).
Proof.
  intros Hh. unfold fill2c_calls, fill2c_pairs, for_lt.
  apply (@iter_up_related (list (Z * Z)) unit
           (fun l _ => Forall (fun p => fst p - shls_slice 0
                                        <= snd p - shls_slice 2) l)
           _ _ _ (fun _ u => u) _ tt).
  - constructor.
  - intros ij l _ Hl.
    replace (hermi =? PLAIN) with false by (symmetry; apply Z.eqb_neq; exact Hh).
    cbn [negb andb].
    destruct (Z.quot ij (shls_slice 3 - shls_slice 2)
              >? Z.rem ij (shls_slice 3 - shls_slice 2)) eqn:Hgt.
    + exact Hl.
    + apply Forall_app. split; [exact Hl |].
      constructor; [| constructor]. cbn [fst snd].
      rewrite Z.gtb_ltb in Hgt. apply Z.ltb_ge in Hgt. lia.
Qed.

Lemma NPdsymm_triu_outside (n mat hermi : Z) (M : mem) (q : Z) :
  q < mat \/ mat + n * n <= q -> NPdsymm_triu n mat hermi M q = M q.
Proof.
  intros Hq. unfold NPdsymm_triu. cbv zeta.
  destruct (0 <=? q - mat) eqn:H0; [| reflexivity].
  destruct (q - mat <? n * n) eqn:H1; [| reflexivity].
  apply Z.leb_le in H0. apply Z.ltb_lt in H1. lia.
Qed.

Lemma NPdsymm_triu_upper (n mat hermi : Z) (M : mem) (i j : Z) :
  0 <= i <= j -> j < n ->
  NPdsymm_triu n mat hermi M (mat + j * n + i) = M (mat + j * n + i).
Proof.
  intros Hi Hj. unfold NPdsymm_triu. cbv zeta.
  replace (mat + j * n + i - mat) with (i + j * n) by lia.
  rewrite Z.div_add, Z.mod_add, Z.div_small, Z.mod_small by lia.
  replace (0 + j <? i) with false by (symmetry; apply Z.ltb_ge; lia).
  rewrite andb_false_r. reflexivity.
Qed.

Lemma NPdsymm_triu_lower (n mat hermi : Z) (M : mem) (i j : Z) :
  0 <= j < i -> i < n ->
  NPdsymm_triu n mat hermi M (mat + j * n + i)
  = if (hermi =? HERMITIAN) || (hermi =? SYMMETRIC) then M (mat + i * n + j)
    else if hermi =? ANTIHERMI then dneg (M (mat + i * n + j))
    else M (mat + j * n + i).
Proof.
  intros Hj Hi. unfold NPdsymm_triu. cbv zeta.
  replace (mat + j * n + i - mat) with (i + j * n) by lia.
  rewrite Z.div_add, Z.mod_add, Z.div_small, Z.mod_small by lia.
  replace (0 <=? i + j * n) with true by (symmetry; apply Z.leb_le; nia).
  replace (i + j * n <? n * n) with true by (symmetry; apply Z.ltb_lt; nia).
  replace (0 + j <? i) with true by (symmetry; apply Z.ltb_lt; lia).
  cbn [andb]. replace (0 + j) with j by lia. reflexivity.
Qed.

(** The mirror handles the components one by one and keeps them apart. *)
Lemma fill2c_mirror_component (mat comp hermi n : Z) (st : state)
    (ic i j : Z) :
  hermi <> PLAIN ->
  0 <= ic < comp -> 0 <= i < n -> 0 <= j < n ->
  mat_elt (fill2c_mirror mat comp hermi n st) mat n ic i j
  = NPdsymm_triu n (mat + ic * n * n) hermi (outm st)
                 (mat + ic * n * n + j * n + i).
Proof.
  intros Hh Hic Hi Hj. unfold fill2c_mirror, mat_elt.
  replace (hermi =? PLAIN) with false by (symmetry; apply Z.eqb_neq; exact Hh).
  cbn [negb].
  set (body := fun (ic : Z) (st : state) =>
    {| cachem := cachem st;
       outm := NPdsymm_triu n (mat + ic * n * n) hermi (outm st) |}).
  pose (P := fun (k : Z) (sk : state) =>
    (forall q, mat + k * n * n <= q -> outm sk q = outm st q) /\
    (forall ic i j, 0 <= ic < k -> 0 <= i < n -> 0 <= j < n ->
       outm sk (mat + ic * n * n + j * n + i)
       = NPdsymm_triu n (mat + ic * n * n) hermi (outm st)
                      (mat + ic * n * n + j * n + i))).
  assert (HP : P comp (for_lt 0 comp body st)).
  { apply for_lt_invariant; [lia | |].
    - split; [reflexivity | intros; lia].
    - intros k sk Hk [Hhigh Hdone]. split.
      + intros q Hq. unfold body. cbn [outm].
        rewrite NPdsymm_triu_outside by nia. apply Hhigh. nia.
      + intros ic' i' j' Hic' Hi' Hj'. unfold body. cbn [outm].
        destruct (Z.eq_dec ic' k) as [-> | Hne].
        * destruct (Z_le_gt_dec i' j') as [Hle | Hgt].
          -- rewrite !NPdsymm_triu_upper by lia. apply Hhigh. nia.
          -- rewrite !NPdsymm_triu_lower by lia.
             rewrite !Hhigh by nia. reflexivity.
        * rewrite NPdsymm_triu_outside by nia. apply Hdone; lia. }
  apply (proj2 HP); assumption.
Qed.

(** C4, as amended.  In the modes HERMITIAN, ANTIHERMI and SYMMETRIC the
    kernel is called only for pairs whose shell indices, counted from the
    start of their ranges of the slice, satisfy i <= j; after all the
    calls the mirror leaves the elements M[i,j] with i < j as the calls
    left them and makes each M[i,j] with i > j the copy (HERMITIAN,
    SYMMETRIC) or the negation (ANTIHERMI) of M[j,i]; so M[i,j] = M[j,i]
    for all i and j in the first two modes, and M[i,j] = -M[j,i] for all
    i <> j in ANTIHERMI. *)
Theorem NUMINT1e_fill2c_mirrors_upper (intor : intor_t) (mat comp hermi : Z)
    (shls_slice ao_loc : ints) (log_prec : double) (dimension : Z)
    (G : grid) (B : basis) (st : state) :
  hermi = HERMITIAN \/ hermi = ANTIHERMI \/ hermi = SYMMETRIC ->
  let naoi := ao_loc (shls_slice 1) - ao_loc (shls_slice 0) in
  let computed := fill2c_kernels intor mat hermi shls_slice ao_loc log_prec
                                 dimension G B st in
  let final := NUMINT1e_fill2c intor mat comp hermi shls_slice ao_loc
                               log_prec dimension G B st in
  Forall (fun p => fst p - shls_slice 0 <= snd p - shls_slice 2)
         (fill2c_calls hermi shls_slice)
  /\
  final = fill2c_mirror mat comp hermi naoi computed
  /\
  forall ic i j, 0 <= ic < comp -> 0 <= i < naoi -> 0 <= j < naoi ->
    (i < j -> mat_elt final mat naoi ic i j = mat_elt computed mat naoi ic i j)
    /\
    (hermi <> ANTIHERMI ->
     mat_elt final mat naoi ic i j = mat_elt final mat naoi ic j i)
    /\
    (hermi = ANTIHERMI -> i <> j ->
     mat_elt final mat naoi ic i j = dneg (mat_elt final mat naoi ic j i)).
Proof.
  intros Hmode naoi computed final.
  assert (Hh : hermi <> PLAIN)
    by (unfold PLAIN, HERMITIAN, ANTIHERMI, SYMMETRIC in *; lia).
  split; [apply fill2c_calls_upper; exact Hh |].
  split; [reflexivity |].
  intros ic i j Hic Hi Hj.
  assert (Hel : forall i j, 0 <= i < naoi -> 0 <= j < naoi ->
            mat_elt final mat naoi ic i j
            = NPdsymm_triu naoi (mat + ic * naoi * naoi) hermi (outm computed)
                           (mat + ic * naoi * naoi + j * naoi + i)).
  { intros i' j' Hi' Hj'. unfold final, NUMINT1e_fill2c.
    apply fill2c_mirror_component; assumption. }
  split; [| split].
  - intros Hlt. rewrite Hel by assumption.
    rewrite NPdsymm_triu_upper by lia. reflexivity.
  - intros Hna. rewrite !Hel by assumption.
    assert (Hcopy : (hermi =? HERMITIAN) || (hermi =? SYMMETRIC) = true).
    { destruct Hmode as [-> | [-> | ->]];
        [reflexivity | contradiction | reflexivity]. }
    destruct (Z.lt_trichotomy i j) as [Hlt | [-> | Hgt]].
    + rewrite (@NPdsymm_triu_upper naoi _ hermi _ i j) by lia.
      rewrite (@NPdsymm_triu_lower naoi _ hermi _ j i) by lia.
      rewrite Hcopy. reflexivity.
    + reflexivity.
    + rewrite (@NPdsymm_triu_lower naoi _ hermi _ i j) by lia.
      rewrite (@NPdsymm_triu_upper naoi _ hermi _ j i) by lia.
      rewrite Hcopy. reflexivity.
  - intros -> Hne. rewrite !Hel by assumption.
    destruct (Z.lt_trichotomy i j) as [Hlt | [-> | Hgt]].
    + rewrite (@NPdsymm_triu_upper naoi _ ANTIHERMI _ i j) by lia.
      rewrite (@NPdsymm_triu_lower naoi _ ANTIHERMI _ j i) by lia.
      change ((ANTIHERMI =? HERMITIAN) || (ANTIHERMI =? SYMMETRIC)) with false.
      change (ANTIHERMI =? ANTIHERMI) with true. cbv iota.
      rewrite dneg_involutive. reflexivity.
    + contradiction.
    + rewrite (@NPdsymm_triu_lower naoi _ ANTIHERMI _ i j) by lia.
      rewrite (@NPdsymm_triu_upper naoi _ ANTIHERMI _ j i) by lia.
      reflexivity.
Qed.

Lemma NUMINT1e_fill2c_mirrors_upper_witness :
  let final := NUMINT1e_fill2c intor_one 0 1 HERMITIAN (ints_of [0; 2; 0; 2])
                 (ints_of [0; 1; 2]) (Fin 0) 3 grid_222 basis_two_s
                 state_sevens in
  mat_elt final 0 2 0 1 0 = mat_elt final 0 2 0 0 1.
Proof.
  cbv zeta.
  pose proof (@NUMINT1e_fill2c_mirrors_upper intor_one 0 1 HERMITIAN
                (ints_of [0; 2; 0; 2]) (ints_of [0; 1; 2]) (Fin 0) 3
                grid_222 basis_two_s state_sevens (or_introl eq_refl)) as H.
  cbv zeta in H. destruct H as (_ & _ & H).
  specialize (H 0 1 0).
  change (ints_of [0; 1; 2] (ints_of [0; 2; 0; 2] 1)
          - ints_of [0; 1; 2] (ints_of [0; 2; 0; 2] 0)) with 2 in H.
  destruct (H ltac:(lia) ltac:(lia) ltac:(lia)) as (_ & Hsym & _).
  apply Hsym. unfold HERMITIAN, ANTIHERMI. lia.
Defined.

(** C4, the counterexample.  For the slice of shell 1 against shell 0 the
    kernel is called for the pair (1, 0), whose shell index i is the
    larger one; and in the mode ANTIHERMI, with a kernel that stores 1,
    the diagonal element M[0,0] is not -M[0,0]. *)
Lemma NUMINT1e_fill2c_counterexample :
  fill2c_calls HERMITIAN (ints_of [1; 2; 0; 1]) = [(1, 0)]
  /\
  (let final := NUMINT1e_fill2c intor_one 0 1 ANTIHERMI (ints_of [0; 1; 0; 1])
                  (ints_of [0; 1]) (Fin 0) 3 grid_222 basis_two_s
                  state_sevens in
   mat_elt final 0 1 0 0 0 <> dneg (mat_elt final 0 1 0 0 0)).
Proof.
  split; [reflexivity |]. cbv zeta.
  assert (E : mat_elt (NUMINT1e_fill2c intor_one 0 1 ANTIHERMI
                         (ints_of [0; 1; 0; 1]) (ints_of [0; 1]) (Fin 0) 3
                         grid_222 basis_two_s state_sevens) 0 1 0 0 0
              = Fin 1) by reflexivity.
  rewrite E. cbn [dneg]. intros H.
  apply Fin_inj in H. lra.
Qed.

(** * Further properties of the code *)

(** ** The tables of Cartesian counts *)

Lemma in_zrange_up (lo hi x : Z) : lo <= x <= hi -> In x (zrange_up lo hi).
Proof.
  intros Hx. unfold zrange_up. apply in_map_iff.
  exists (Z.to_nat (x - lo)). split; [lia |]. apply in_seq. lia.
Qed.

Lemma cart_tables_entries (l : Z) :
  0 <= l <= 15 ->
  tbl _LEN_CART l = (l + 1) * (l + 2) / 2 /\
  tbl _CUM_LEN_CART l = (l + 1) * (l + 2) * (l + 3) / 6 /\
  tbl _CUM_LEN_CART l = tbl _CUM_LEN_CART (l - 1) + tbl _LEN_CART l.
Proof.
  intros Hl.
  assert (Hall : forallb table_entry_ok (zrange_up 0 15) = true)
    by (vm_compute; reflexivity).
  rewrite forallb_forall in Hall.
  specialize (Hall l (in_zrange_up Hl)).
  unfold table_entry_ok in Hall.
  apply andb_true_iff in Hall. destruct Hall as [Hall H3].
  apply andb_true_iff in Hall. destruct Hall as [H1 H2].
  apply Z.eqb_eq in H1, H2, H3. auto.
Qed.

(** X1: for every angular momentum of the tables, 0 to 15, [_LEN_CART]
    holds the number (l+1)(l+2)/2 of Cartesian functions and
    [_CUM_LEN_CART] the total of the entries of [_LEN_CART] up to [l],
    which is (l+1)(l+2)(l+3)/6. *)
Theorem cart_tables_closed_form (l : Z) :
  0 <= l <= 15 ->
  tbl _LEN_CART l = (l + 1) * (l + 2) / 2 /\
  tbl _CUM_LEN_CART l = (l + 1) * (l + 2) * (l + 3) / 6 /\
  tbl _CUM_LEN_CART l = tbl _CUM_LEN_CART (l - 1) + tbl _LEN_CART l.
Proof. exact (@cart_tables_entries l). Qed.

Lemma cart_tables_closed_form_witness :
  tbl _LEN_CART 3 = (3 + 1) * (3 + 2) / 2 /\
  tbl _CUM_LEN_CART 3 = (3 + 1) * (3 + 2) * (3 + 3) / 6 /\
  tbl _CUM_LEN_CART 3 = tbl _CUM_LEN_CART (3 - 1) + tbl _LEN_CART 3.
Proof. apply (@cart_tables_closed_form 3). lia. Defined.

(** X2: the values that the contraction engine stores for a shell pair
    fill the buffer [g] of [GTOnumint1e_loop] exactly: called with
    [floorl = i_l] and [topl = i_l + j_l], as the loop calls it, the loop
    nest of the z stage makes [len_g1d] stores, for all angular momenta of
    the tables. *)
Theorem orth_stores_fill_g (envs : CINTEnvVars) (cache : Z) (S : Type)
    (body : Z -> Z -> Z -> Z -> S -> S) (s : S) :
  0 <= i_l envs -> 0 <= j_l envs -> i_l envs + j_l envs <= 15 ->
  fst (cart_loop (i_l envs) (i_l envs + j_l envs) body s)
  = len_g1d (GTOnumint1e_loop_layout envs cache).
Proof.
  intros Hi Hj Hl. rewrite cart_loop_numbered. cbn [fst].
  rewrite cart_triples_count by lia. reflexivity.
Qed.

Lemma orth_stores_fill_g_witness :
  fst (cart_loop (i_l envs_s8_p2) (i_l envs_s8_p2 + j_l envs_s8_p2)
                 (fun _ _ _ _ (u : unit) => u) tt)
  = len_g1d (GTOnumint1e_loop_layout envs_s8_p2 0).
Proof.
  apply (@orth_stores_fill_g envs_s8_p2 0 unit (fun _ _ _ _ u => u) tt);
    [ change (0 <= 0); lia | change (0 <= 1); lia | change (0 + 1 <= 15); lia ].
Defined.

(** ** The cutoff radius, continued *)

Section RcutMore.

Local Open Scope R_scope.

(** X3: a coefficient that is zero or a NaN gives the radius 0, whatever
    the exponent and the precision are, special values included. *)
Theorem gto_rcut_zero_coefficient (alpha : double) (l : Z) (log_prec : double) :
  gto_rcut alpha l (Fin 0) log_prec = Fin 0 /\
  gto_rcut alpha l NaN log_prec = Fin 0.
Proof.
  split.
  - unfold gto_rcut. rewrite dlog_fabs_zero. destruct log_prec; reflexivity.
  - unfold gto_rcut. cbn [dfabs dlog]. destruct log_prec; reflexivity.
Qed.

Lemma dle_refl (x : double) : x <> NaN -> Rounded.dle x x.
Proof. destruct x; cbn; intros H; try exact I; [lra | contradiction]. Qed.

Lemma dle_PInf (x : double) : x <> NaN -> Rounded.dle x PInf.
Proof. destruct x; cbn; intros H; try exact I. contradiction. Qed.

Lemma dle_MInf (y : double) : y <> NaN -> Rounded.dle MInf y.
Proof. destruct y; cbn; intros H; try exact I. contradiction. Qed.

Lemma dle_not_nan (x y : double) : Rounded.dle x y -> x <> NaN /\ y <> NaN.
Proof. destruct x, y; cbn; intros H; try contradiction; split; discriminate. Qed.

Lemma monotone_keeps_sign (f : R -> double) :
  Rounded.monotone f -> Rounded.keeps_sign f.
Proof.
  intros [H0 Hm]. split.
  - intros r. apply (@dle_not_nan (f r) (f r) (Hm r r (Rle_refl r))).
  - intros r Hr. specialize (Hm 0 r Hr). rewrite H0 in Hm.
    unfold Rounded.not_negative. destruct (f r) as [v | | |]; cbn in Hm.
    + right. exists v. split; [reflexivity | exact Hm].
    + left. reflexivity.
    + contradiction.
    + contradiction.
Qed.

Lemma not_negative_dle (x : double) :
  Rounded.not_negative x -> Rounded.dle (Fin 0) x.
Proof. intros [-> | (r & -> & Hr)]; cbn; [exact I | exact Hr]. Qed.

Section RoundedOrder.

Variable rnd : R -> double.

Hypothesis rnd_monotone : Rounded.monotone rnd.

Lemma rnd_never_nan (r : R) : rnd r <> NaN.
Proof. apply (@monotone_keeps_sign rnd rnd_monotone). Qed.

Lemma rounded_never_nan (x : double) :
  x <> NaN -> Rounded.rounded rnd x <> NaN.
Proof. destruct x; cbn; intros H; try discriminate; [apply rnd_never_nan | contradiction]. Qed.

(** The rounded operations keep the order of their exact results. *)
Lemma rounded_dle (x y : double) :
  Rounded.dle x y ->
  Rounded.dle (Rounded.rounded rnd x) (Rounded.rounded rnd y).
Proof.
  destruct rnd_monotone as [_ Hm].
  destruct x as [a | | |], y as [b | | |]; cbn; intros H;
    try contradiction; try exact I.
  - apply Hm. exact H.
  - apply dle_PInf. apply rnd_never_nan.
  - apply dle_MInf. apply rnd_never_nan.
Qed.

(** The difference [L - u] does not grow with [u]. *)
Lemma dsub_antitone (x : R) (u1 u2 : double) :
  Rounded.dle u1 u2 -> Rounded.dle (dsub (Fin x) u2) (dsub (Fin x) u1).
Proof.
  destruct u1 as [a | | |], u2 as [b | | |]; cbn; intros H;
    try contradiction; try exact I. lra.
Qed.

(** The sum [0 + d] grows with [d]. *)
Lemma dadd_zero_monotone (d1 d2 : double) :
  Rounded.dle d2 d1 -> Rounded.dle (dadd (Fin 0) d2) (dadd (Fin 0) d1).
Proof.
  destruct d1 as [a | | |], d2 as [b | | |]; cbn; intros H;
    try contradiction; try exact I. lra.
Qed.

(** The numerator of the quotient, [prod] of the source, for the
    logarithm [L] of the coefficient and the precision [lp]. *)
Let numerator (L : double) (lp : R) : double :=
  Rounded.radd rnd (Fin 0)
    (Rounded.rsub rnd L (Rounded.rsub rnd (Fin lp) (Fin 7))).

Lemma numerator_antitone (L : double) (lp1 lp2 : R) :
  (lp1 <= lp2)%R ->
  dgt (numerator L lp2) (Fin 0) = true ->
  Rounded.dle (numerator L lp2) (numerator L lp1).
Proof.
  intros Hlp. unfold numerator. rewrite !rsub_Fin.
  destruct rnd_monotone as [_ Hm].
  assert (Hu : Rounded.dle (rnd (lp1 - 7)) (rnd (lp2 - 7)))
    by (apply Hm; lra).
  destruct L as [x | | |].
  - intros _. unfold Rounded.radd, Rounded.rsub.
    apply rounded_dle. apply dadd_zero_monotone.
    apply rounded_dle. apply dsub_antitone. exact Hu.
  - unfold Rounded.radd, Rounded.rsub.
    destruct (rnd (lp1 - 7)) as [a | | |], (rnd (lp2 - 7)) as [b | | |];
      cbn in Hu |- *; try contradiction; try discriminate;
      intros _; exact I.
  - unfold Rounded.radd, Rounded.rsub.
    destruct (rnd (lp2 - 7)) as [b | | |]; cbn; discriminate.
  - unfold Rounded.radd, Rounded.rsub. cbn. discriminate.
Qed.

Lemma dle_positive (p2 p1 : double) :
  Rounded.dle p2 p1 -> dgt p2 (Fin 0) = true -> dgt p1 (Fin 0) = true.
Proof.
  destruct p2 as [a | | |], p1 as [b | | |]; cbn; intros H Hp;
    try contradiction; try discriminate; try reflexivity.
  unfold Rltb in *. destruct (Rlt_dec 0 a); [| discriminate].
  destruct (Rlt_dec 0 b); [reflexivity | lra].
Qed.

(** The quotient grows with the numerator and shrinks with the
    exponent. *)
Lemma rdiv_monotone (p2 p1 : double) (a1 a2 : R) :
  (0 < a1)%R -> (a1 <= a2)%R ->
  Rounded.dle p2 p1 -> dgt p2 (Fin 0) = true ->
  Rounded.dle (Rounded.rdiv rnd p2 (Fin a2)) (Rounded.rdiv rnd p1 (Fin a1)).
Proof.
  intros Ha1 Ha Hle Hp. destruct rnd_monotone as [_ Hm].
  destruct p2 as [x2 | | |], p1 as [x1 | | |]; cbn in Hle, Hp;
    try contradiction; try discriminate.
  - rewrite !rdiv_Fin by lra. apply Hm.
    unfold Rltb in Hp. destruct (Rlt_dec 0 x2) as [Hx2 | Hx2];
      [| discriminate].
    apply Rle_trans with (x2 / a1)%R.
    + unfold Rdiv. apply Rmult_le_compat_l; [lra |].
      apply Rinv_le_contravar; lra.
    + unfold Rdiv. apply Rmult_le_compat_r; [| lra].
      apply Rlt_le. apply Rinv_0_lt_compat. lra.
  - rewrite rdiv_Fin by lra. unfold Rounded.rdiv. cbn [ddiv].
    rewrite Rltb_false by lra. cbn [Rounded.rounded].
    apply dle_PInf. apply rnd_never_nan.
  - unfold Rounded.rdiv. cbn [ddiv]. rewrite !Rltb_false by lra.
    exact I.
Qed.

(** The square root grows with its argument. *)
Lemma rsqrt_monotone (q2 q1 : double) :
  Rounded.not_negative q2 -> Rounded.dle q2 q1 ->
  Rounded.dle (Rounded.rsqrt rnd q2) (Rounded.rsqrt rnd q1).
Proof.
  destruct rnd_monotone as [_ Hm].
  intros [-> | (y2 & -> & Hy2)] Hle.
  - destruct q1; cbn in Hle; try contradiction. exact I.
  - destruct q1 as [y1 | | |]; cbn in Hle; try contradiction.
    + unfold Rounded.rsqrt. cbn [dsqrt].
      rewrite !Rltb_false by lra. cbn [Rounded.rounded].
      apply Hm. apply sqrt_le_1_alt. exact Hle.
    + unfold Rounded.rsqrt. cbn [dsqrt].
      rewrite Rltb_false by lra. cbn [Rounded.rounded].
      apply dle_PInf. apply rnd_never_nan.
Qed.

End RoundedOrder.

(** X4: the radius does not shrink when the precision is tightened
    (a smaller [log_prec]) or the exponent lowered.  Under every
    rounding of the arithmetic that keeps zero and the order of the
    exact results, whatever the rounding of the logarithm and the
    coefficient are: [0 < alpha1 <= alpha2] and [log_prec1 <= log_prec2]
    give [gto_rcut alpha2 l c log_prec2 <= gto_rcut alpha1 l c log_prec1]
    in the order of [double], where a radius may be plus infinity. *)
Theorem gto_rcut_monotone (rnd rndm : R -> double) (alpha1 alpha2 : R)
    (l : Z) (c : double) (lp1 lp2 : R) :
  Rounded.monotone rnd ->
  0 < alpha1 -> alpha1 <= alpha2 -> lp1 <= lp2 ->
  Rounded.dle (Rounded.gto_rcut rnd rndm (Fin alpha2) l c (Fin lp2))
              (Rounded.gto_rcut rnd rndm (Fin alpha1) l c (Fin lp1)).
Proof.
  intros Hmono Ha1 Ha Hlp.
  pose proof (@monotone_keeps_sign rnd Hmono) as Hsign.
  pose proof (@gto_rcut_not_negative_gen rnd rndm Hsign alpha1 l c (Fin lp1)
                Ha1) as Hnn1.
  revert Hnn1. unfold Rounded.gto_rcut. cbv zeta.
  set (L := Rounded.rlog rndm (dfabs c)).
  set (p1 := Rounded.radd rnd (Fin 0)
               (Rounded.rsub rnd L (Rounded.rsub rnd (Fin lp1) (Fin 7)))).
  set (p2 := Rounded.radd rnd (Fin 0)
               (Rounded.rsub rnd L (Rounded.rsub rnd (Fin lp2) (Fin 7)))).
  intros Hnn1.
  destruct (dgt p2 (Fin 0)) eqn:Hp2.
  - pose proof (@numerator_antitone rnd Hmono L lp1 lp2 Hlp Hp2) as Hle.
    fold p1 p2 in Hle.
    rewrite (@dle_positive p2 p1 Hle Hp2).
    apply (@rsqrt_monotone rnd Hmono).
    + apply (@rdiv_positive rnd Hsign); [exact Hp2 | lra].
    + apply (@rdiv_monotone rnd Hmono); assumption.
  - apply not_negative_dle. exact Hnn1.
Qed.

Lemma gto_rcut_monotone_witness :
  Rounded.dle
    (Rounded.gto_rcut Binary64.round Binary64.round (Fin 2) 0 (Fin 1)
                      (Fin (-10)))
    (Rounded.gto_rcut Binary64.round Binary64.round (Fin 1) 0 (Fin 1)
                      (Fin (-20))).
Proof.
  apply (@gto_rcut_monotone Binary64.round Binary64.round 1 2 0%Z (Fin 1)
           (-20) (-10)).
  - exact round_monotone.
  - lra.
  - lra.
  - lra.
Defined.

End RcutMore.

(** ** The grid slice of one axis *)

Section GridSlice.

Local Open Scope R_scope.

(** What [_cartesian_components] stores for finite arguments. *)
Lemma slices_value (periodic : bool) (n : Z) (x cutoff h : R) :
  let e0 := x - cutoff * h in
  let e1 := x + cutoff * h in
  let f0 := Zfloor (e0 * IZR n) in
  let c1 := Zceil (e1 * IZR n) in
  _cartesian_components_slices periodic n (Fin x) (Fin cutoff) (Fin h)
  = Some
      {| nimg0 := if periodic then Zfloor e0 else 0%Z;
         nimg1 := if periodic then Zceil e1 else 1%Z;
         nx0 := if periodic then Z.rem (f0 + Zceil e1 * n) n
                else MAXz (MINz f0 n) 0;
         nx1 := if periodic then Z.rem (c1 + Zceil e1 * n) n
                else MAXz (MINz c1 n) 0 |}.
Proof.
  cbv zeta. unfold _cartesian_components_slices.
  cbn [dsub dadd dmul dneg of_int].
  rewrite !to_int_floor, !to_int_ceil.
  replace (x + - (cutoff * h)) with (x - cutoff * h) by lra.
  destruct periodic; reflexivity.
Qed.

Lemma MAXz_MINz_clamp (v n : Z) :
  (0 <= n)%Z -> (0 <= MAXz (MINz v n) 0 <= n)%Z.
Proof.
  intros Hn. unfold MAXz, MINz.
  destruct (v <? n)%Z eqn:H1.
  - apply Z.ltb_lt in H1. destruct (v >? 0)%Z eqn:H2; [| lia].
    rewrite Z.gtb_ltb in H2. apply Z.ltb_lt in H2. lia.
  - destruct (n >? 0)%Z eqn:H2; lia.
Qed.








End GridSlice.

(** ** The coefficient tables of the primitives *)

Lemma store_each_spec (k base : Z) (f : Z -> double) (M : mem) (q : Z) :
  for_lt 0 k (fun n M => upd M (base + n) (f n)) M q
  = if (base <=? q) && (q <? base + k) then f (q - base) else M q.
Proof.
  destruct (Z.le_gt_cases k 0) as [Hk | Hk].
  - rewrite for_lt_empty by lia.
    destruct (base <=? q) eqn:H1; [| reflexivity].
    destruct (q <? base + k) eqn:H2; [| reflexivity].
    apply Z.leb_le in H1. apply Z.ltb_lt in H2. lia.
  - pose (P := fun (i : Z) (Mi : mem) =>
      Mi q = if (base <=? q) && (q <? base + i) then f (q - base) else M q).
    apply (@for_lt_invariant _ P); [lia | |].
    + unfold P. destruct (base <=? q) eqn:H1; [| reflexivity].
      replace (q <? base + 0) with false; [reflexivity |].
      symmetry. apply Z.ltb_ge. apply Z.leb_le in H1. lia.
    + intros i Mi Hi HPi. unfold P in *. unfold upd.
      destruct (q =? base + i) eqn:Hq.
      * apply Z.eqb_eq in Hq.
        replace (base <=? q) with true by (symmetry; apply Z.leb_le; lia).
        replace (q <? base + (i + 1)) with true
          by (symmetry; apply Z.ltb_lt; lia).
        cbn [andb]. f_equal. lia.
      * apply Z.eqb_neq in Hq. rewrite HPi.
        destruct (base <=? q) eqn:H1; [| reflexivity].
        cbn [andb]. apply Z.leb_le in H1.
        destruct (q <? base + i) eqn:H2.
        -- replace (q <? base + (i + 1)) with true; [reflexivity |].
           symmetry. apply Z.ltb_lt. apply Z.ltb_lt in H2. lia.
        -- replace (q <? base + (i + 1)) with false; [reflexivity |].
           symmetry. apply Z.ltb_ge. apply Z.ltb_ge in H2. lia.
Qed.

Section MaxCoeff.

Local Open Scope R_scope.

(** X8: for finite coefficients [max_pgto_coeff] returns the largest
    magnitude of the coefficients of the primitive [prim_id] over the
    [nctr] contractions: a finite value that is at least every
    [|coeff[i*nprim+prim_id]|] and is one of them, or 0 when there is no
    contraction. *)
Theorem max_pgto_coeff_is_max (e : mem) (coeff nprim nctr prim_id : Z)
    (c : Z -> R) :
  (forall i, (0 <= i < nctr)%Z ->
     e (coeff + i * nprim + prim_id)%Z = Fin (c i)) ->
  exists m : R,
    max_pgto_coeff e coeff nprim nctr prim_id = Fin m /\
    (forall i, (0 <= i < nctr)%Z -> Rabs (c i) <= m) /\
    ((nctr <= 0)%Z /\ m = 0
     \/ exists i, (0 <= i < nctr)%Z /\ m = Rabs (c i)).
Proof.
  intros Hfin. unfold max_pgto_coeff.
  destruct (Z.le_gt_cases nctr 0) as [Hle | Hgt].
  - rewrite for_lt_empty by lia. exists 0. split; [reflexivity |].
    split; [intros; lia | left; split; [lia | reflexivity]].
  - pose (P := fun (k : Z) (v : double) =>
      exists m : R,
        v = Fin m /\ 0 <= m /\
        (forall i, (0 <= i < k)%Z -> Rabs (c i) <= m) /\
        ((k <= 0)%Z /\ m = 0 \/ exists i, (0 <= i < k)%Z /\ m = Rabs (c i))).
    assert (HP : P nctr
                   (for_lt 0 nctr
                      (fun i maxc =>
                         MAX maxc (dfabs (e (coeff + i * nprim + prim_id)%Z)))
                      (Fin 0))).
    { apply for_lt_invariant; [lia | |].
      - exists 0. split; [reflexivity |]. split; [lra |].
        split; [intros; lia | left; split; [lia | reflexivity]].
      - intros k v Hk (m & -> & Hm0 & Hub & Hatt).
        rewrite Hfin by lia. unfold MAX. cbn [dfabs dgt].
        destruct (Rlt_dec (Rabs (c k)) m) as [Hlt | Hge].
        + rewrite (Rltb_true Hlt). exists m. split; [reflexivity |].
          split; [exact Hm0 |]. split.
          * intros i Hi. destruct (Z.eq_dec i k) as [-> | Hne];
              [lra | apply Hub; lia].
          * right. destruct Hatt as [[Hk0 Hm] | (i & Hi & Hmi)];
              [| exists i; split; [lia | exact Hmi]].
            pose proof (Rabs_pos (c k)). lra.
        + rewrite (Rltb_false Hge). exists (Rabs (c k)).
          split; [reflexivity |]. split; [apply Rabs_pos |]. split.
          * intros i Hi. destruct (Z.eq_dec i k) as [-> | Hne]; [lra |].
            apply Rle_trans with m; [apply Hub; lia | lra].
          * right. exists k. split; [lia | reflexivity]. }
    destruct HP as (m & Hv & _ & Hub & Hatt).
    exists m. split; [exact Hv |]. split; [exact Hub |]. exact Hatt.
Qed.

Lemma max_pgto_coeff_is_max_witness :
  exists m : R,
    max_pgto_coeff (mem_of [Fin (-3); Fin 2]) 0 1 2 0 = Fin m /\
    (forall i, (0 <= i < 2)%Z -> Rabs ((fun i => if (i =? 0)%Z then -3 else 2) i) <= m) /\
    ((2 <= 0)%Z /\ m = 0
     \/ exists i, (0 <= i < 2)%Z
                  /\ m = Rabs ((fun i => if (i =? 0)%Z then -3 else 2) i)).
Proof.
  apply (@max_pgto_coeff_is_max (mem_of [Fin (-3); Fin 2]) 0 1 2 0
           (fun i => if (i =? 0)%Z then -3 else 2)).
  intros i Hi.
  assert (Hcase : i = 0%Z \/ i = 1%Z) by lia.
  destruct Hcase as [-> | ->]; reflexivity.
Defined.

End MaxCoeff.

(** X9: after lines 435-440 of [GTOnumint1e_loop] the table
    [log_iprim_max] holds, for each primitive [ip] of the first shell,
    the logarithm of [max_pgto_coeff] of its coefficients, the table
    [log_jprim_max] the same for the second shell, and no other element
    of the cache has changed. *)
Theorem log_prim_tables_content (envs : CINTEnvVars) (cache : Z) (M : mem) :
  let L := GTOnumint1e_loop_layout envs cache in
  let i_prim := bas_ (bas envs) NPRIM_OF (shls envs 0) in
  let j_prim := bas_ (bas envs) NPRIM_OF (shls envs 1) in
  let ci := bas_ (bas envs) PTR_COEFF (shls envs 0) in
  let cj := bas_ (bas envs) PTR_COEFF (shls envs 1) in
  let M1 := log_prim_tables envs L M in
  0 <= i_prim -> 0 <= j_prim ->
  (forall ip, 0 <= ip < i_prim ->
     M1 (log_iprim_max L + ip)
     = dlog (max_pgto_coeff (env envs) ci i_prim (x_ctr envs 0) ip)) /\
  (forall jp, 0 <= jp < j_prim ->
     M1 (log_jprim_max L + jp)
     = dlog (max_pgto_coeff (env envs) cj j_prim (x_ctr envs 1) jp)) /\
  (forall q, q < log_iprim_max L \/ log_jprim_max L + j_prim <= q ->
     M1 q = M q).
Proof.
  cbv zeta. intros Hi Hj. unfold log_prim_tables.
  set (L := GTOnumint1e_loop_layout envs cache).
  assert (HL : log_jprim_max L
               = log_iprim_max L + bas_ (bas envs) NPRIM_OF (shls envs 0))
    by reflexivity.
  split; [| split].
  - intros ip Hip. rewrite !store_each_spec.
    replace (log_jprim_max L <=? log_iprim_max L + ip) with false
      by (symmetry; apply Z.leb_gt; lia).
    cbn [andb].
    replace (log_iprim_max L <=? log_iprim_max L + ip) with true
      by (symmetry; apply Z.leb_le; lia).
    replace (log_iprim_max L + ip <? log_iprim_max L + _) with true
      by (symmetry; apply Z.ltb_lt; lia).
    cbn [andb]. do 2 f_equal. lia.
  - intros jp Hjp. rewrite store_each_spec.
    replace (log_jprim_max L <=? log_jprim_max L + jp) with true
      by (symmetry; apply Z.leb_le; lia).
    replace (log_jprim_max L + jp <? log_jprim_max L + _) with true
      by (symmetry; apply Z.ltb_lt; lia).
    cbn [andb]. do 2 f_equal. lia.
  - intros q Hq. rewrite !store_each_spec.
    destruct Hq as [Hq | Hq].
    + replace (log_jprim_max L <=? q) with false
        by (symmetry; apply Z.leb_gt; lia).
      replace (log_iprim_max L <=? q) with false
        by (symmetry; apply Z.leb_gt; lia).
      reflexivity.
    + replace (q <? log_jprim_max L + _) with false
        by (symmetry; apply Z.ltb_ge; lia).
      rewrite andb_false_r.
      replace (q <? log_iprim_max L + _) with false
        by (symmetry; apply Z.ltb_ge; lia).
      rewrite andb_false_r. reflexivity.
Qed.

Lemma log_prim_tables_content_witness :
  let L := GTOnumint1e_loop_layout envs_two_s 1 in
  let M1 := log_prim_tables envs_two_s L (fun _ => Fin 7) in
  M1 (log_iprim_max L + 0) = dlog (max_pgto_coeff (env envs_two_s) 7 1 1 0).
Proof.
  cbv zeta.
  pose proof (@log_prim_tables_content envs_two_s 1 (fun _ => Fin 7)) as H.
  cbv zeta in H.
  assert (H0 : 0 <= bas_ (bas envs_two_s) NPRIM_OF (shls envs_two_s 0))
    by (change (0 <= 1); lia).
  assert (H1 : 0 <= bas_ (bas envs_two_s) NPRIM_OF (shls envs_two_s 1))
    by (change (0 <= 1); lia).
  destruct (H H0 H1) as (Hi & _ & _).
  apply (Hi 0). change (0 <= 0 < 1). lia.
Defined.

(** ** The contraction of one primitive into the contracted buffers *)

Lemma combine_block_spec (F : double -> double -> double) (nf dst src : Z)
    (M : mem) (q : Z) :
  src + nf <= dst \/ dst + nf <= src ->
  for_lt 0 nf (fun i M => upd M (dst + i) (F (M (dst + i)) (M (src + i)))) M q
  = if (dst <=? q) && (q <? dst + nf)
    then F (M q) (M (src + (q - dst)))
    else M q.
Proof.
  intros Hdis.
  destruct (Z.le_gt_cases nf 0) as [Hle | Hgt].
  - rewrite for_lt_empty by lia.
    destruct (dst <=? q) eqn:H1; [| reflexivity].
    destruct (q <? dst + nf) eqn:H2; [| reflexivity].
    apply Z.leb_le in H1. apply Z.ltb_lt in H2. lia.
  - pose (P := fun (k : Z) (Mk : mem) =>
      forall q, Mk q = if (dst <=? q) && (q <? dst + k)
                       then F (M q) (M (src + (q - dst)))
                       else M q).
    assert (HP : P nf (for_lt 0 nf
                         (fun i M => upd M (dst + i)
                                         (F (M (dst + i)) (M (src + i)))) M)).
    { apply for_lt_invariant; [lia | |].
      - intros q'. destruct (dst <=? q') eqn:H1; [| reflexivity].
        replace (q' <? dst + 0) with false; [reflexivity |].
        symmetry. apply Z.ltb_ge. apply Z.leb_le in H1. lia.
      - intros k Mk Hk HPk q'. unfold upd.
        destruct (q' =? dst + k) eqn:Hq.
        + apply Z.eqb_eq in Hq. subst q'.
          replace (dst <=? dst + k) with true by (symmetry; apply Z.leb_le; lia).
          replace (dst + k <? dst + (k + 1)) with true
            by (symmetry; apply Z.ltb_lt; lia).
          cbn [andb]. rewrite !HPk.
          replace (dst + k <? dst + k) with false
            by (symmetry; apply Z.ltb_ge; lia).
          rewrite andb_false_r.
          replace ((dst <=? src + k) && (src + k <? dst + k)) with false.
          * f_equal. f_equal. lia.
          * symmetry. apply andb_false_iff.
            destruct Hdis; [left; apply Z.leb_gt | right; apply Z.ltb_ge]; lia.
        + apply Z.eqb_neq in Hq. rewrite HPk.
          destruct (dst <=? q') eqn:H1; [| reflexivity].
          cbn [andb]. apply Z.leb_le in H1.
          destruct (q' <? dst + k) eqn:H2.
          * replace (q' <? dst + (k + 1)) with true; [reflexivity |].
            symmetry. apply Z.ltb_lt. apply Z.ltb_lt in H2. lia.
          * replace (q' <? dst + (k + 1)) with false; [reflexivity |].
            symmetry. apply Z.ltb_ge. apply Z.ltb_ge in H2. lia. }
    apply HP.
Qed.

Section PrimToCtr.

Variables (gc nf gp nprim nctr : Z) (e : mem) (coeff : Z) (M : mem).

Hypothesis nf_nonneg : 0 <= nf.
Hypothesis gp_apart : gp + nf <= gc \/ gc + nctr * nf <= gp.

Lemma plain_prim_to_ctr_loop (empty : bool) :
  forall k, 0 <= k <= nctr ->
  let body := fun (n : Z) (st : Z * mem) =>
    let (g, Mk) := st in
    let c := e (coeff + nprim * n) in
    (g + nf,
     if empty then
       for_lt 0 nf (fun i M => upd M (g + i) (M (gp + i)%Z * c)%dbl) Mk
     else if dne c (Fin 0) then
       for_lt 0 nf (fun i M =>
         upd M (g + i) (M (g + i)%Z + M (gp + i)%Z * c)%dbl) Mk
     else Mk) in
  let r := for_lt 0 k body (gc, M) in
  fst r = gc + k * nf /\
  (forall q, q < gc \/ gc + k * nf <= q -> snd r q = M q) /\
  (forall n i, 0 <= n < k -> 0 <= i < nf ->
     snd r (gc + n * nf + i)
     = ctr_value empty (M (gc + n * nf + i)) (M (gp + i))
                 (e (coeff + nprim * n))).
Proof.
  intros k Hk body.
  pose (P := fun (k : Z) (st : Z * mem) =>
    fst st = gc + k * nf /\
    (forall q, q < gc \/ gc + k * nf <= q -> snd st q = M q) /\
    (forall n i, 0 <= n < k -> 0 <= i < nf ->
       snd st (gc + n * nf + i)
       = ctr_value empty (M (gc + n * nf + i)) (M (gp + i))
                   (e (coeff + nprim * n)))).
  apply (@for_lt_invariant _ P); [lia | |].
  - split; [cbn [fst]; lia |]. split; [reflexivity | intros; lia].
  - intros n [g Mk] Hn (Hg & Hframe & Hdone). cbn [fst snd] in *. subst g.
    assert (Hblock : forall q,
      snd (body n (gc + n * nf, Mk)) q
      = if (gc + n * nf <=? q) && (q <? gc + n * nf + nf)
        then ctr_value empty (Mk q) (Mk (gp + (q - (gc + n * nf))))
                       (e (coeff + nprim * n))
        else Mk q).
    { intros q. unfold body. cbn [snd]. unfold ctr_value.
      assert (Hdis : gp + nf <= gc + n * nf \/ gc + n * nf + nf <= gp) by nia.
      destruct empty.
      - pose proof (@combine_block_spec
                      (fun _ p => (p * e (coeff + nprim * n)%Z)%dbl)
                      nf (gc + n * nf) gp Mk q Hdis) as E.
        cbv beta in E. rewrite E. reflexivity.
      - destruct (dne (e (coeff + nprim * n)) (Fin 0)).
        + pose proof (@combine_block_spec
                        (fun o p => (o + p * e (coeff + nprim * n)%Z)%dbl)
                        nf (gc + n * nf) gp Mk q Hdis) as E.
          cbv beta in E. rewrite E. reflexivity.
        + destruct ((gc + n * nf <=? q) && (q <? gc + n * nf + nf));
            reflexivity. }
    split; [unfold body; cbn [fst]; lia |]. split.
    + intros q Hq. rewrite Hblock.
      replace ((gc + n * nf <=? q) && (q <? gc + n * nf + nf)) with false.
      * apply Hframe. nia.
      * symmetry. apply andb_false_iff.
        destruct Hq; [left; apply Z.leb_gt | right; apply Z.ltb_ge]; nia.
    + intros n' i Hn' Hi. rewrite Hblock.
      destruct (Z.eq_dec n' n) as [-> | Hne].
      * replace (gc + n * nf <=? gc + n * nf + i) with true
          by (symmetry; apply Z.leb_le; lia).
        replace (gc + n * nf + i <? gc + n * nf + nf) with true
          by (symmetry; apply Z.ltb_lt; lia).
        cbn [andb]. rewrite !Hframe by nia. do 2 f_equal. f_equal. lia.
      * replace ((gc + n * nf <=? gc + n' * nf + i)
                 && (gc + n' * nf + i <? gc + n * nf + nf)) with false.
        -- apply Hdone; lia.
        -- symmetry. apply andb_false_iff. left. apply Z.leb_gt. nia.
Qed.

End PrimToCtr.

(** The blocks of [gc] after [plain_prim_to_ctr]. *)
Lemma plain_prim_to_ctr_spec (gc nf gp nprim nctr : Z) (e : mem)
    (coeff : Z) (empty : bool) (M : mem) :
  0 <= nf -> 0 <= nctr ->
  gp + nf <= gc \/ gc + nctr * nf <= gp ->
  let R := plain_prim_to_ctr gc nf gp nprim nctr e coeff empty M in
  (forall n i, 0 <= n < nctr -> 0 <= i < nf ->
     R (gc + n * nf + i)
     = if empty then (M (gp + i)%Z * e (coeff + nprim * n)%Z)%dbl
       else if dne (e (coeff + nprim * n)) (Fin 0)
            then (M (gc + n * nf + i)%Z
                  + M (gp + i)%Z * e (coeff + nprim * n)%Z)%dbl
            else M (gc + n * nf + i)) /\
  (forall q, q < gc \/ gc + nctr * nf <= q -> R q = M q).
Proof.
  intros Hnf Hnctr Hapart R.
  pose proof (@plain_prim_to_ctr_loop gc nf gp nprim nctr e coeff M Hnf Hapart
                empty nctr ltac:(lia)) as H.
  cbv zeta in H. destruct H as (_ & Hframe & Hval).
  assert (HR : R = snd (for_lt 0 nctr
                 (fun (n : Z) (st : Z * mem) =>
                    let (g, Mk) := st in
                    (g + nf,
                     if empty then
                       for_lt 0 nf (fun i M =>
                         upd M (g + i) (M (gp + i)%Z * e (coeff + nprim * n)%Z)%dbl) Mk
                     else if dne (e (coeff + nprim * n)) (Fin 0) then
                       for_lt 0 nf (fun i M =>
                         upd M (g + i)
                             (M (g + i)%Z + M (gp + i)%Z * e (coeff + nprim * n)%Z)%dbl) Mk
                     else Mk)) (gc, M))).
  { unfold R, plain_prim_to_ctr. destruct empty; reflexivity. }
  rewrite HR. split.
  - intros n i Hn Hi. rewrite Hval by assumption. unfold ctr_value.
    reflexivity.
  - exact Hframe.
Qed.

(** X10: [plain_prim_to_ctr] turns one buffer [gp] of [nf] primitive
    values into the [nctr] blocks of the contracted buffer [gc], when
    [gp] lies apart from them: with [empty] set, the element [i] of the
    block [n] becomes [gp[i] * coeff[nprim*n]]; with [empty] clear it
    grows by that product, and stays as it is when the coefficient is 0;
    nothing outside the [nctr * nf] elements of [gc] changes. *)
Theorem plain_prim_to_ctr_blocks (gc nf gp nprim nctr : Z) (e : mem)
    (coeff : Z) (empty : bool) (M : mem) :
  0 <= nf -> 0 <= nctr ->
  gp + nf <= gc \/ gc + nctr * nf <= gp ->
  let R := plain_prim_to_ctr gc nf gp nprim nctr e coeff empty M in
  (forall n i, 0 <= n < nctr -> 0 <= i < nf ->
     R (gc + n * nf + i)
     = if empty then (M (gp + i)%Z * e (coeff + nprim * n)%Z)%dbl
       else if dne (e (coeff + nprim * n)) (Fin 0)
            then (M (gc + n * nf + i)%Z
                  + M (gp + i)%Z * e (coeff + nprim * n)%Z)%dbl
            else M (gc + n * nf + i)) /\
  (forall q, q < gc \/ gc + nctr * nf <= q -> R q = M q).
Proof.
  exact (@plain_prim_to_ctr_spec gc nf gp nprim nctr e coeff empty M).
Qed.

Lemma plain_prim_to_ctr_blocks_witness :
  let M := mem_of [Fin 2; Fin 3; Fin 0; Fin 0; Fin 0; Fin 0] in
  let R := plain_prim_to_ctr 2 2 0 1 2 (mem_of [Fin 5; Fin 7]) 0 true M in
  R (2 + 1 * 2 + 1) = (M (0 + 1)%Z * mem_of [Fin 5; Fin 7] (0 + 1 * 1)%Z)%dbl.
Proof.
  cbv zeta.
  pose proof (@plain_prim_to_ctr_blocks 2 2 0 1 2 (mem_of [Fin 5; Fin 7]) 0
                true (mem_of [Fin 2; Fin 3; Fin 0; Fin 0; Fin 0; Fin 0])
                ltac:(lia) ltac:(lia) ltac:(lia)) as H.
  cbv zeta in H. destruct H as (Hval & _).
  apply (Hval 1 1); lia.
Defined.

(** ** The size of the scratch buffer, continued *)

Lemma tbl_CUM_nonneg (l : Z) : 0 <= tbl _CUM_LEN_CART l.
Proof.
  unfold tbl. destruct (l <? 0); [lia |].
  generalize (Z.to_nat l). intros n.
  do 17 (destruct n as [| n]; [cbn; lia |]).
  cbn. destruct n; lia.
Qed.

Lemma MAXz_max (x y : Z) : MAXz x y = Z.max x y.
Proof.
  unfold MAXz. rewrite Z.gtb_ltb.
  destruct (y <? x) eqn:H; [apply Z.ltb_lt in H | apply Z.ltb_ge in H]; lia.
Qed.

Lemma size_t_small (x : Z) : 0 <= x < 2 ^ 31 -> size_t x = x.
Proof. intros H. unfold size_t. apply Z.mod_small. lia. Qed.

Lemma int_of_size_t_small (x : Z) : 0 <= x < 2 ^ 31 -> int_of_size_t x = x.
Proof.
  intros H. unfold int_of_size_t. rewrite Z.mod_small by lia. lia.
Qed.

Lemma cache_size_exact_value (mesh : ints) (envs : CINTEnvVars) :
  counts_nonneg mesh envs ->
  cache_size_exact mesh envs < 2 ^ 31 ->
  _cache_size mesh envs = cache_size_exact mesh envs.
Proof.
  intros (Hi & Hj & Hnf & Hnc & Hm0 & Hm1 & Hm2 & Hil & Hjl) Hfit.
  unfold _cache_size, cache_size_exact in *. cbv zeta in *.
  unfold OF_CMPLX in *.
  pose proof (tbl_CUM_nonneg (i_l envs + j_l envs)) as Hcum.
  set (ic := x_ctr envs 0) in *. set (jc := x_ctr envs 1) in *.
  set (ncmp := ncomp_e1 envs * ncomp_tensor envs) in *.
  set (cum := tbl _CUM_LEN_CART (i_l envs + j_l envs)) in *.
  set (l1 := i_l envs + j_l envs + 1) in *.
  assert (Hl1 : 0 <= l1) by (unfold l1; lia).
  assert (T0 : 0 <= ic * jc) by (apply Z.mul_nonneg_nonneg; lia).
  assert (T1 : 0 <= cum * (1 + ic + ic * jc))
    by (apply Z.mul_nonneg_nonneg; lia).
  assert (T2 : 0 <= l1 * (mesh 0 + mesh 1 + mesh 2))
    by (apply Z.mul_nonneg_nonneg; lia).
  assert (T3 : 0 <= l1 * mesh 1 * mesh 2)
    by (repeat apply Z.mul_nonneg_nonneg; lia).
  assert (T4 : 0 <= l1 * l1 * mesh 2)
    by (repeat apply Z.mul_nonneg_nonneg; lia).
  assert (T5 : 0 <= nf envs * ic * jc)
    by (repeat apply Z.mul_nonneg_nonneg; lia).
  assert (T6 : 0 <= nf envs * ic * jc * ncmp)
    by (apply Z.mul_nonneg_nonneg; lia).
  set (P := nf envs * ic * jc) in *.
  set (A1 := cum * (1 + ic + ic * jc)) in *.
  set (A2 := l1 * (mesh 0 + mesh 1 + mesh 2)) in *.
  set (A3 := l1 * mesh 1 * mesh 2) in *.
  set (A4 := l1 * l1 * mesh 2) in *.
  rewrite (@size_t_small A1) by lia.
  rewrite (@size_t_small (0 + A1)) by lia.
  rewrite (@size_t_small A2) by lia.
  rewrite (@size_t_small (0 + A1 + A2)) by lia.
  rewrite (@size_t_small A3) by lia.
  rewrite (@size_t_small (0 + A1 + A2 + A3)) by lia.
  rewrite (@size_t_small A4) by lia.
  rewrite (@size_t_small (0 + A1 + A2 + A3 + A4)) by lia.
  rewrite (@size_t_small (0 + A1 + A2 + A3 + A4 + 20)) by lia.
  rewrite (@size_t_small (nf envs * 8 * 2)) by lia.
  rewrite MAXz_max.
  assert (E : size_t (size_t P * size_t ncmp) = P * ncmp).
  { destruct (Z.eq_dec ncmp 0) as [-> | Hne].
    - change (size_t 0) with 0. rewrite !Z.mul_0_r. reflexivity.
    - assert (HP : P * 1 <= P * ncmp)
        by (apply Z.mul_le_mono_nonneg_l; lia).
      assert (Hn : ncmp * 1 <= P * ncmp \/ P = 0).
      { destruct (Z.eq_dec P 0) as [HP0 | HP0]; [right; exact HP0 | left].
        rewrite (Z.mul_comm P ncmp).
        apply Z.mul_le_mono_nonneg_l; lia. }
      destruct Hn as [Hn | HP0].
      2: { rewrite HP0. change (size_t 0) with 0. reflexivity. }
      rewrite (@size_t_small P) by lia.
      rewrite (@size_t_small ncmp) by lia.
      apply size_t_small. lia. }
  rewrite E.
  rewrite size_t_small by lia. rewrite int_of_size_t_small by lia.
  lia.
Qed.

(** X11: when the counts are not negative and the size fits an [int],
    the wrap-around of [_cache_size] does nothing: the sizing query
    returns [nc*n_comp + max(cache_size, nf*16)], with
    [cache_size = _CUM_LEN_CART[l]*(1 + i_ctr + i_ctr*j_ctr)
     + l1*(mesh[0]+mesh[1]+mesh[2]) + l1*mesh[1]*mesh[2] + l1*l1*mesh[2]
     + 20]. *)
Theorem cache_size_without_wrap (mesh : ints) (envs : CINTEnvVars) :
  counts_nonneg mesh envs ->
  cache_size_exact mesh envs < 2 ^ 31 ->
  _cache_size mesh envs = cache_size_exact mesh envs.
Proof. apply cache_size_exact_value. Qed.

Lemma counts_nonneg_s11 : counts_nonneg mesh_222 envs_s11.
Proof. unfold counts_nonneg. repeat split; apply Z.leb_le; reflexivity. Qed.

Lemma cache_size_without_wrap_witness :
  _cache_size mesh_222 envs_s11 = cache_size_exact mesh_222 envs_s11.
Proof.
  apply (@cache_size_without_wrap mesh_222 envs_s11 counts_nonneg_s11).
  vm_compute. reflexivity.
Defined.

Lemma offset_g1d_nonneg (l : Z) :
  0 <= l <= 15 -> 0 <= tbl _CUM_LEN_CART l - tbl _LEN_CART l.
Proof.
  intros Hl.
  assert (Hall : forallb (fun l => tbl _LEN_CART l <=? tbl _CUM_LEN_CART l)
                         (zrange_up 0 15) = true) by (vm_compute; reflexivity).
  rewrite forallb_forall in Hall.
  specialize (Hall l (in_zrange_up Hl)). apply Z.leb_le in Hall. lia.
Qed.

(** With at most 20 primitives in the pair the sizing query covers the
    eleven buffers of the layout. *)
Lemma exec_buffers_fit (mesh : ints) (envs : CINTEnvVars) (cache : Z) :
  counts_nonneg mesh envs ->
  i_l envs + j_l envs <= 15 ->
  cache_size_exact mesh envs < 2 ^ 31 ->
  0 <= bas_ (bas envs) NPRIM_OF (shls envs 0) ->
  0 <= bas_ (bas envs) NPRIM_OF (shls envs 1) ->
  bas_ (bas envs) NPRIM_OF (shls envs 0)
  + bas_ (bas envs) NPRIM_OF (shls envs 1) <= 20 ->
  buffers_fit cache (exec_buffers mesh envs cache)
              (cache + _cache_size mesh envs).
Proof.
  intros Hcnt Hl Hfit Hip Hjp H20.
  rewrite cache_size_exact_value by assumption.
  destruct Hcnt as (Hi & Hj & Hnf & Hnc & Hm0 & Hm1 & Hm2 & Hil & Hjl).
  pose proof (@cart_triples_count (i_l envs) (i_l envs + j_l envs)
                ltac:(lia) Hl) as Hcount.
  pose proof (@offset_g1d_nonneg (i_l envs) ltac:(lia)) as Hoff.
  unfold exec_buffers, buffers_fit, cache_size_exact,
    drv_orth_layout, drv_loop_layout,
    GTOnumint_3d_orth_layout, GTOnumint1e_loop_layout.
  cbv zeta.
  cbn [len_g1d gctrj gctri g log_iprim_max log_jprim_max cache_rest
       xs_exp ys_exp zs_exp weightyz weightz].
  set (ic := x_ctr envs 0) in *. set (jc := x_ctr envs 1) in *.
  set (ncmp := ncomp_e1 envs * ncomp_tensor envs) in *.
  set (cum := tbl _CUM_LEN_CART (i_l envs + j_l envs)) in *.
  set (off := tbl _CUM_LEN_CART (i_l envs) - tbl _LEN_CART (i_l envs)) in *.
  set (ip := bas_ (bas envs) NPRIM_OF (shls envs 0)) in *.
  set (jp := bas_ (bas envs) NPRIM_OF (shls envs 1)) in *.
  set (l := i_l envs + j_l envs) in *.
  assert (Hlen : 0 <= cum - off) by lia.
  assert (Hl0 : 0 <= l) by (unfold l; lia).
  assert (A1 : 0 <= nf envs * ic * jc) by nia.
  assert (A2 : 0 <= nf envs * ic * jc * ncmp) by nia.
  assert (A3 : 0 <= (cum - off) * ic) by nia.
  assert (A4 : 0 <= (cum - off) * ic * jc) by nia.
  assert (A5 : 0 <= (l + 1) * mesh 0) by nia.
  assert (A6 : 0 <= (l + 1) * mesh 1) by nia.
  assert (A7 : 0 <= (l + 1) * mesh 2) by nia.
  assert (A8 : 0 <= mesh 1 * mesh 2) by nia.
  assert (A9 : 0 <= (l + 1) * (mesh 1 * mesh 2)) by nia.
  assert (A10 : 0 <= (l + 1) * (l + 1) * mesh 2) by nia.
  assert (A11 : (cum - off) * ic <= cum * ic) by nia.
  assert (A12 : (cum - off) * ic * jc <= cum * ic * jc) by nia.
  repeat split; try lia.
Qed.

(** X12: what the sizing query covers.  For counts that are not
    negative, angular momenta of the tables, a size that fits an [int]
    and [i_prim + j_prim <= 20], the eleven buffers [gctr], [gctrj],
    [gctri], [g], [log_iprim_max], [log_jprim_max], [xs_exp], [ys_exp],
    [zs_exp], [weightyz] and [weightz] follow one another in the cache
    without overlap and end within the size that [GTO_numint1e_drv]
    returns for [out == NULL].  The scratch rows [gridx] and [xs_all]
    that [_cartesian_components] lays over [weightyz] and [weightz] for
    the axis [k] end within that size when they are no longer than these
    two buffers together; their length is [(topl + 2) * nimg * mesh[k]]
    on a periodic axis with [nimg] images, which the sizing takes no
    account of, and [mesh[k]] for [topl > 0] on an axis that is not
    periodic. *)
Theorem layout_within_cache_size (mesh : ints) (envs : CINTEnvVars)
    (cache : Z) (periodic : bool) (k nimg : Z) :
  counts_nonneg mesh envs ->
  i_l envs + j_l envs <= 15 ->
  cache_size_exact mesh envs < 2 ^ 31 ->
  0 <= bas_ (bas envs) NPRIM_OF (shls envs 0) ->
  0 <= bas_ (bas envs) NPRIM_OF (shls envs 1) ->
  bas_ (bas envs) NPRIM_OF (shls envs 0)
  + bas_ (bas envs) NPRIM_OF (shls envs 1) <= 20 ->
  0 <= k <= 2 -> 0 <= nimg ->
  axis_scratch_length periodic (i_l envs + j_l envs) (mesh k) nimg
  <= (i_l envs + j_l envs + 1) * (mesh 1 * mesh 2)
     + (i_l envs + j_l envs + 1) * (i_l envs + j_l envs + 1) * mesh 2 ->
  buffers_fit cache (exec_buffers mesh envs cache)
              (cache + _cache_size mesh envs) /\
  buffers_fit (weightyz (drv_orth_layout mesh envs cache))
              (axis_scratch periodic (i_l envs + j_l envs) (mesh k) nimg
                            (weightyz (drv_orth_layout mesh envs cache)))
              (cache + _cache_size mesh envs).
Proof.
  intros Hcnt Hl Hfit Hip Hjp H20 Hk Hnimg Hlen.
  pose proof (@exec_buffers_fit mesh envs cache Hcnt Hl Hfit Hip Hjp H20)
    as Hbuf.
  split; [exact Hbuf |].
  assert (Hmk : 0 <= mesh k).
  { destruct Hcnt as (_ & _ & _ & _ & Hm0 & Hm1 & Hm2 & _).
    assert (Hcases : k = 0 \/ k = 1 \/ k = 2) by lia.
    destruct Hcases as [-> | [-> | ->]]; assumption. }
  assert (Hl0 : 0 <= i_l envs + j_l envs)
    by (destruct Hcnt as (_ & _ & _ & _ & _ & _ & _ & Hil & Hjl); lia).
  assert (Hend : weightz (drv_orth_layout mesh envs cache)
                 + (i_l envs + j_l envs + 1) * (i_l envs + j_l envs + 1)
                   * mesh 2
                 <= cache + _cache_size mesh envs).
  { unfold exec_buffers, buffers_fit in Hbuf.
    destruct Hbuf as (_ & _ & _ & _ & _ & _ & _ & _ & _ & _ & _ & _ & _ & _
                      & _ & _ & _ & _ & _ & _ & _ & _ & Hlast).
    exact Hlast. }
  assert (Hwz : weightz (drv_orth_layout mesh envs cache)
                = weightyz (drv_orth_layout mesh envs cache)
                  + (i_l envs + j_l envs + 1) * (mesh 1 * mesh 2))
    by reflexivity.
  set (wyz := weightyz (drv_orth_layout mesh envs cache)) in *.
  set (l := i_l envs + j_l envs) in *.
  assert (Hrow : 0 <= nimg * mesh k) by (apply Z.mul_nonneg_nonneg; lia).
  unfold axis_scratch, axis_scratch_length in *.
  destruct periodic.
  - assert (Hpow : 0 <= (l + 1) * (nimg * mesh k))
      by (apply Z.mul_nonneg_nonneg; lia).
    cbn [buffers_fit]. repeat split; lia.
  - destruct (0 <? l); cbn [buffers_fit]; repeat split; lia.
Qed.

Lemma layout_within_cache_size_witness :
  buffers_fit 0 (exec_buffers mesh_222 envs_s8_p2 0)
              (0 + _cache_size mesh_222 envs_s8_p2) /\
  buffers_fit (weightyz (drv_orth_layout mesh_222 envs_s8_p2 0))
              (axis_scratch true (i_l envs_s8_p2 + j_l envs_s8_p2)
                            (mesh_222 0) 1
                            (weightyz (drv_orth_layout mesh_222 envs_s8_p2 0)))
              (0 + _cache_size mesh_222 envs_s8_p2).
Proof.
  apply (@layout_within_cache_size mesh_222 envs_s8_p2 0 true 0 1).
  - unfold counts_nonneg. repeat split; apply Z.leb_le; reflexivity.
  - vm_compute. discriminate.
  - vm_compute. reflexivity.
  - vm_compute. discriminate.
  - vm_compute. discriminate.
  - vm_compute. discriminate.
  - lia.
  - lia.
  - vm_compute. discriminate.
Defined.

(** ** The driver of a shell pair, continued *)

(** X13: [GTOnumint1e_loop] returns 0 exactly when every primitive pair
    fails the screening test of line 453, whatever the contraction engine
    and the recurrence do; and then the cache holds the two tables of
    logarithms and is otherwise as the caller passed it. *)
Theorem GTOnumint1e_loop_returns_zero_iff
    (orth : orth_args -> CINTEnvVars -> mem -> mem)
    (vrr2d : Z -> Z -> Z -> CINTEnvVars -> mem -> mem)
    (fac log_prec : double) (dimension : Z) (G : grid) (envs : CINTEnvVars)
    (out cache : Z) (M : mem) :
  let L := GTOnumint1e_loop_layout envs cache in
  let M1 := log_prim_tables envs L M in
  let r := GTOnumint1e_loop orth vrr2d out fac log_prec dimension G envs
                            cache M in
  (fst r = false <-> all_screened envs L M1) /\
  (fst r = false -> snd r = M1).
Proof.
  cbv zeta. split.
  - apply GTOnumint1e_loop_flag.
  - intros Hr. apply GTOnumint1e_loop_flag in Hr.
    rewrite GTOnumint1e_loop_empty by exact Hr. reflexivity.
Qed.

(** X14: when every primitive pair of the shell pair is screened out,
    [GTO_numint1e_drv] returns 0, never calls the transformation, stores
    nothing to [out] and sets the [nc * n_comp] elements of [gctr] at the
    start of the cache to zero. *)
Theorem GTO_numint1e_drv_no_value
    (orth : orth_args -> CINTEnvVars -> mem -> mem)
    (vrr2d : Z -> Z -> Z -> CINTEnvVars -> mem -> mem)
    (c2s : c2s_fn -> Z -> Z -> ints -> CINTEnvVars -> Z -> state -> state)
    (fac log_prec : double) (dimension : Z) (G : grid) (envs : CINTEnvVars)
    (out : Z) (dims : option ints) (f_c2s : c2s_fn) (cache : Z) (st : state) :
  let nc := nf envs * x_ctr envs 0 * x_ctr envs 1 in
  let n_comp := ncomp_e1 envs * ncomp_tensor envs in
  let L := GTOnumint1e_loop_layout envs (cache + nc * n_comp) in
  all_screened envs L (log_prim_tables envs L (cachem st)) ->
  let r := GTO_numint1e_drv orth vrr2d c2s (Some out) dims f_c2s fac log_prec
                            dimension G envs cache st in
  fst r = 0 /\
  outm (snd r) = outm st /\
  (forall n, 0 <= n < nc * n_comp -> cachem (snd r) (cache + n) = Fin 0).
Proof.
  cbv zeta. intros Hall.
  pose proof (@GTO_numint1e_drv_empty orth vrr2d c2s fac log_prec dimension G
                envs out dims f_c2s cache st) as H.
  cbv zeta in H. destruct (H Hall) as (H1 & H2 & H3). auto.
Qed.

Lemma GTO_numint1e_drv_no_value_witness :
  let r := GTO_numint1e_drv (fun _ _ M => M) (fun _ _ _ _ M => M)
             (fun _ _ _ _ _ _ st => st) (Some 0) None c2s_cart_1e (Fin 1)
             (Fin 0) 0 grid_222 envs_two_s 0 state_sevens in
  fst r = 0 /\
  outm (snd r) = outm state_sevens /\
  (forall n, 0 <= n < nf envs_two_s * x_ctr envs_two_s 0 * x_ctr envs_two_s 1
                     * (ncomp_e1 envs_two_s * ncomp_tensor envs_two_s) ->
     cachem (snd r) (0 + n) = Fin 0).
Proof.
  cbv zeta.
  apply (@GTO_numint1e_drv_no_value (fun _ _ M => M) (fun _ _ _ _ M => M)
           (fun _ _ _ _ _ _ st => st) (Fin 1) (Fin 0) 0 grid_222 envs_two_s
           0 None c2s_cart_1e 0 state_sevens).
  apply two_s_all_screened.
Defined.

(** ** The size of the buffer of a worker *)

(** X15: when the sizing call of the kernel changes nothing,
    [_max_cache_size] changes nothing either and returns the largest of
    the sizes that the kernel asks for the pairs (i, i) with
    [min(ish0, jsh0) <= i < max(ish1, jsh1)]: it is at least each of
    them and is one of them, or 0 when the range is empty or no size is
    positive. *)
Theorem max_cache_size_is_largest (intor : intor_t) (shls_slice : ints)
    (B : basis) (G : grid) (st : state) :
  sizing_is_pure intor B G ->
  let i0 := MINz (shls_slice 0) (shls_slice 2) in
  let i1 := MAXz (shls_slice 1) (shls_slice 3) in
  let r := _max_cache_size intor shls_slice B G st in
  snd r = st /\
  (forall i, i0 <= i < i1 -> diagonal_size intor B G st i <= fst r) /\
  (fst r = 0 \/ exists i, i0 <= i < i1 /\ fst r = diagonal_size intor B G st i).
Proof.
  intros Hpure i0 i1 r. unfold r, _max_cache_size. fold i0 i1.
  set (body := fun (i : Z) (acc : Z * state) =>
    let (cache_size, st) := acc in
    let shls := ints_of [i; i] in
    let (n, st0) := intor None None shls B (Fin 0) 3 G 0 st in
    (MAXz cache_size n, st0)).
  destruct (Z.le_gt_cases i1 i0) as [Hle | Hgt].
  - rewrite for_lt_empty by lia. cbn [fst snd].
    split; [reflexivity |]. split; [intros; lia | left; reflexivity].
  - pose (P := fun (k : Z) (acc : Z * state) =>
      snd acc = st /\
      (forall i, i0 <= i < k -> diagonal_size intor B G st i <= fst acc) /\
      (fst acc = 0
       \/ exists i, i0 <= i < k /\ fst acc = diagonal_size intor B G st i)).
    apply (@for_lt_invariant _ P); [lia | |].
    + split; [reflexivity |]. split; [intros; lia | left; reflexivity].
    + intros k [cs s] Hk (Hs & Hub & Hatt). cbn [fst snd] in *. subst s.
      unfold body.
      pose proof (Hpure (ints_of [k; k]) st) as Hp.
      unfold diagonal_size in *.
      destruct (intor None None (ints_of [k; k]) B (Fin 0) 3 G 0 st)
        as [n s'] eqn:E.
      cbn [fst snd] in *. subst s'. rewrite MAXz_max. cbn [fst snd].
      split; [reflexivity |]. split.
      * intros i Hi. destruct (Z.eq_dec i k) as [-> | Hne].
        -- rewrite E. cbn [fst]. apply Z.le_max_r.
        -- specialize (Hub i ltac:(lia)).
           eapply Z.le_trans; [exact Hub | apply Z.le_max_l].
      * destruct (Z.max_spec cs n) as [[Hlt ->] | [Hge ->]].
        -- right. exists k. split; [lia |]. rewrite E. reflexivity.
        -- destruct Hatt as [H0 | (i & Hi & Hcs)];
             [left; exact H0 | right; exists i; split; [lia | exact Hcs]].
Qed.

Lemma NUMINT1e_ovlp_cart_sizing_pure
    (orth : orth_args -> CINTEnvVars -> mem -> mem)
    (vrr2d : Z -> Z -> Z -> CINTEnvVars -> mem -> mem)
    (c2s : c2s_fn -> Z -> Z -> ints -> CINTEnvVars -> Z -> state -> state)
    (B : basis) (G : grid) :
  sizing_is_pure (NUMINT1e_ovlp_cart orth vrr2d c2s) B G.
Proof. intros shls st. reflexivity. Qed.

Lemma max_cache_size_is_largest_witness :
  let intor := NUMINT1e_ovlp_cart (fun _ _ M => M) (fun _ _ _ _ M => M)
                                  (fun _ _ _ _ _ _ st => st) in
  let r := _max_cache_size intor slice_0_1 basis_s8_p2 grid_222 state_sevens in
  snd r = state_sevens /\
  (forall i, MINz (slice_0_1 0) (slice_0_1 2) <= i
             < MAXz (slice_0_1 1) (slice_0_1 3) ->
     diagonal_size intor basis_s8_p2 grid_222 state_sevens i <= fst r) /\
  (fst r = 0
   \/ exists i, MINz (slice_0_1 0) (slice_0_1 2) <= i
                < MAXz (slice_0_1 1) (slice_0_1 3)
                /\ fst r = diagonal_size intor basis_s8_p2 grid_222
                                         state_sevens i).
Proof.
  cbv zeta.
  apply (@max_cache_size_is_largest
           (NUMINT1e_ovlp_cart (fun _ _ M => M) (fun _ _ _ _ M => M)
                               (fun _ _ _ _ _ _ st => st))
           slice_0_1 basis_s8_p2 grid_222 state_sevens).
  apply NUMINT1e_ovlp_cart_sizing_pure.
Defined.

(** ** The pairs of a slice *)

Lemma fold_left_snoc_filter (A B : Type) (skip : A -> bool) (f : A -> B)
    (xs : list A) (acc : list B) :
  fold_left (fun l x => if skip x then l else l ++ [f x]) xs acc
  = acc ++ map f (filter (fun x => negb (skip x)) xs).
Proof.
  revert acc. induction xs as [| x xs IH]; intros acc.
  - cbn. rewrite app_nil_r. reflexivity.
  - cbn [fold_left filter]. rewrite IH. destruct (skip x); cbn [negb].
    + reflexivity.
    + cbn [map]. rewrite <- app_assoc. reflexivity.
Qed.

Lemma filter_map_swap (A B : Type) (keep : B -> bool) (f : A -> B)
    (xs : list A) :
  filter keep (map f xs) = map f (filter (fun x => keep (f x)) xs).
Proof.
  induction xs as [| x xs IH]; [reflexivity |].
  cbn [map filter]. rewrite IH. destruct (keep (f x)); reflexivity.
Qed.

Lemma list_prod_app_l (A B : Type) (l l' : list A) (m : list B) :
  list_prod (l ++ l') m = list_prod l m ++ list_prod l' m.
Proof.
  induction l as [| x l IH]; [reflexivity |].
  cbn [app list_prod]. rewrite IH, app_assoc. reflexivity.
Qed.

Lemma list_prod_map (A B A' B' : Type) (f : A -> A') (g : B -> B')
    (l : list A) (m : list B) :
  list_prod (map f l) (map g m)
  = map (fun p => (f (fst p), g (snd p))) (list_prod l m).
Proof.
  induction l as [| x l IH]; [reflexivity |].
  cbn [map list_prod]. rewrite IH, map_app, !map_map. reflexivity.
Qed.

Lemma seq_offset (s n : nat) :
  seq s n = map (fun k => (s + k)%nat) (seq 0 n).
Proof.
  revert s. induction n as [| n IH]; intros s; [reflexivity |].
  cbn [seq map]. rewrite Nat.add_0_r. f_equal.
  rewrite (IH (Datatypes.S s)), <- seq_shift, map_map.
  apply map_ext. intros k. lia.
Qed.

(** The numbers below [m * n], divided by [n]: the pairs of quotient and
    remainder are the pairs of [0..m) and [0..n), row by row. *)
Lemma seq_divmod_pairs (m n : nat) :
  (0 < n)%nat ->
  map (fun t => (Nat.div t n, Nat.modulo t n)) (seq 0 (m * n))
  = list_prod (seq 0 m) (seq 0 n).
Proof.
  intros Hn. induction m as [| m IH]; [reflexivity |].
  replace (Datatypes.S m * n)%nat with (m * n + n)%nat by lia.
  rewrite seq_app, map_app, IH, seq_S, list_prod_app_l. f_equal.
  cbn [plus list_prod]. rewrite app_nil_r.
  rewrite (seq_offset (m * n) n), map_map.
  apply map_ext_in. intros k Hk. apply in_seq in Hk.
  replace (m * n + k)%nat with (k + m * n)%nat by lia.
  rewrite Nat.div_add by lia. rewrite Nat.Div0.mod_add.
  rewrite Nat.div_small, Nat.mod_small by lia. reflexivity.
Qed.

(** X16: for a slice with [ish0 <= ish1] and [jsh0 <= jsh1] the loop of
    [NUMINT1e_fill2c] calls the kernel once for each pair of the slice
    that the mode keeps, row by row: for PLAIN every pair
    [(ish, jsh)] of [ish0..ish1) x [jsh0..jsh1)], for the other modes
    those with [ish - ish0 <= jsh - jsh0]. *)
Theorem fill2c_calls_enumerated (hermi : Z) (shls_slice : ints) :
  shls_slice 0 <= shls_slice 1 ->
  shls_slice 2 <= shls_slice 3 ->
  fill2c_calls hermi shls_slice = slice_pairs hermi shls_slice.
Proof.
  intros Hi Hj. unfold fill2c_calls, fill2c_pairs, slice_pairs, for_lt.
  cbv zeta. rewrite iter_up_fold.
  set (ish0 := shls_slice 0) in *. set (ish1 := shls_slice 1) in *.
  set (jsh0 := shls_slice 2) in *. set (jsh1 := shls_slice 3) in *.
  set (njsh := jsh1 - jsh0). set (nish := ish1 - ish0).
  rewrite fold_left_map.
  rewrite (@fold_left_ext_eq _ _ _
    (fun l t =>
       if negb (hermi =? PLAIN)
          && (Z.quot (Z.of_nat t) njsh >? Z.rem (Z.of_nat t) njsh)
       then l
       else l ++ [(Z.quot (Z.of_nat t) njsh + ish0,
                   Z.rem (Z.of_nat t) njsh + jsh0)])).
  2: { intros l t. rewrite Z.add_0_l. reflexivity. }
  rewrite (@fold_left_snoc_filter nat (Z * Z)
             (fun t => negb (hermi =? PLAIN)
                       && (Z.quot (Z.of_nat t) njsh
                           >? Z.rem (Z.of_nat t) njsh))
             (fun t => (Z.quot (Z.of_nat t) njsh + ish0,
                        Z.rem (Z.of_nat t) njsh + jsh0))).
  cbn [app].
  unfold zrange_up.
  replace (ish1 - 1 + 1 - ish0) with nish by (unfold nish; lia).
  replace (jsh1 - 1 + 1 - jsh0) with njsh by (unfold njsh; lia).
  assert (Hni : 0 <= nish) by (unfold nish; lia).
  assert (Hnj : 0 <= njsh) by (unfold njsh; lia).
  rewrite list_prod_map.
  destruct (Z.eq_dec njsh 0) as [Hz | Hnz].
  - rewrite Hz, Z.mul_0_r. cbn [Z.sub Z.opp Z.add Z.to_nat seq filter map].
    replace (list_prod (seq 0 (Z.to_nat nish)) []) with (@nil (nat * nat)).
    + reflexivity.
    + clear. induction (seq 0 (Z.to_nat nish)) as [| x l IH];
        [reflexivity | exact IH].
  - rewrite <- (@seq_divmod_pairs (Z.to_nat nish) (Z.to_nat njsh)) by lia.
    replace (Z.to_nat (nish * njsh - 0))
      with (Z.to_nat nish * Z.to_nat njsh)%nat by lia.
    rewrite map_map, filter_map_swap. cbn [fst snd].
    assert (Hq : forall t : nat,
               Z.quot (Z.of_nat t) njsh
               = Z.of_nat (Nat.div t (Z.to_nat njsh))).
    { intros t. rewrite Z.quot_div_nonneg by lia.
      rewrite Nat2Z.inj_div, Z2Nat.id by lia. reflexivity. }
    assert (Hr : forall t : nat,
               Z.rem (Z.of_nat t) njsh
               = Z.of_nat (Nat.modulo t (Z.to_nat njsh))).
    { intros t. rewrite Z.rem_mod_nonneg by lia.
      rewrite Nat2Z.inj_mod, Z2Nat.id by lia. reflexivity. }
    rewrite (@map_ext _ _
      (fun t => (Z.quot (Z.of_nat t) njsh + ish0,
                 Z.rem (Z.of_nat t) njsh + jsh0))
      (fun t => (ish0 + Z.of_nat (Nat.div t (Z.to_nat njsh)),
                 jsh0 + Z.of_nat (Nat.modulo t (Z.to_nat njsh))))).
    2: { intros t. rewrite Hq, Hr. f_equal; lia. }
    f_equal. apply filter_ext. intros t. rewrite Hq, Hr.
    destruct (hermi =? PLAIN); cbn [negb andb orb]; [reflexivity |].
    rewrite Z.gtb_ltb.
    destruct (Z.ltb_spec (Z.of_nat (Nat.modulo t (Z.to_nat njsh)))
                         (Z.of_nat (Nat.div t (Z.to_nat njsh))));
      cbn [negb]; symmetry; [apply Z.leb_gt | apply Z.leb_le]; lia.
Qed.

Lemma fill2c_calls_enumerated_witness :
  fill2c_calls HERMITIAN slice_0_1 = slice_pairs HERMITIAN slice_0_1.
Proof.
  apply (@fill2c_calls_enumerated HERMITIAN slice_0_1).
  - vm_compute. discriminate.
  - vm_compute. discriminate.
Defined.

(** ** The contraction of the y axis *)

Lemma D1_mul (s : double) : (D1 * s)%dbl = s.
Proof.
  unfold D1. destruct s as [r | | |]; cbn [dmul].
  - f_equal. lra.
  - rewrite Reqb_false by lra. unfold inf_of_sign.
    rewrite Rltb_true by lra. reflexivity.
  - rewrite Reqb_false by lra. unfold inf_of_sign.
    rewrite Rltb_false by lra. reflexivity.
  - reflexivity.
Qed.

Lemma D0_add (s : double) : (Fin 0 + s)%dbl = s.
Proof. destruct s as [r | | |]; cbn [dadd]; [f_equal; lra | | |]; reflexivity. Qed.

Section YStage.

Variables (topl : Z) (mesh : ints) (cache : Z) (M : mem).

Let L := GTOnumint_3d_orth_layout topl mesh cache.

Hypothesis topl_nonneg : 0 <= topl.
Hypothesis mesh1_nonneg : 0 <= mesh 1.
Hypothesis mesh2_pos : 0 < mesh 2.

(** A loop over the x powers whose body number [k] stores the block
    [weightz + k*l1*mesh[2]] of [l1*mesh[2]] elements from the memory
    below [weightz]. *)
Lemma y_loop_blocks (body : Z -> mem -> mem) (val : Z -> Z -> Z -> double) :
  (forall k Mk, 0 <= k <= topl ->
     (forall q, q < weightz L -> Mk q = M q) ->
     (forall q, q < weightz L + k * (topl + 1) * mesh 2
                \/ weightz L + (k + 1) * (topl + 1) * mesh 2 <= q ->
        body k Mk q = Mk q) /\
     (forall ly iz, 0 <= ly <= topl -> 0 <= iz < mesh 2 ->
        body k Mk (weightz L + k * (topl + 1) * mesh 2 + ly * mesh 2 + iz)
        = val k ly iz)) ->
  (forall q, q < weightz L -> for_le 0 topl body M q = M q) /\
  (forall lx ly iz, 0 <= lx <= topl -> 0 <= ly <= topl -> 0 <= iz < mesh 2 ->
     for_le 0 topl body M
       (weightz L + lx * (topl + 1) * mesh 2 + ly * mesh 2 + iz)
     = val lx ly iz).
Proof.
  intros Hbody.
  change (for_le 0 topl body M) with (for_lt 0 (topl + 1) body M).
  pose (P := fun (k : Z) (Mk : mem) =>
    (forall q, q < weightz L -> Mk q = M q) /\
    (forall lx ly iz, 0 <= lx < k -> 0 <= ly <= topl -> 0 <= iz < mesh 2 ->
       Mk (weightz L + lx * (topl + 1) * mesh 2 + ly * mesh 2 + iz)
       = val lx ly iz)).
  assert (HP : P (topl + 1) (for_lt 0 (topl + 1) body M)).
  { apply for_lt_invariant; [lia | |].
    - split; [reflexivity | intros; lia].
    - intros k Mk Hk [Hlow Hdone].
      destruct (Hbody k Mk ltac:(lia) Hlow) as [Hout Hin]. split.
      + intros q Hq. rewrite Hout; [apply Hlow; exact Hq |].
        left. assert (0 <= k * (topl + 1) * mesh 2)
          by (repeat apply Z.mul_nonneg_nonneg; lia). lia.
      + intros lx' ly' iz' Hlx Hly Hiz.
        destruct (Z.eq_dec lx' k) as [-> | Hne]; [apply Hin; lia |].
        rewrite Hout; [apply Hdone; lia |].
        left.
        assert ((lx' + 1) * ((topl + 1) * mesh 2) <= k * ((topl + 1) * mesh 2))
          by (apply Z.mul_le_mono_nonneg_r; [apply Z.mul_nonneg_nonneg |]; lia).
        assert (ly' * mesh 2 <= topl * mesh 2)
          by (apply Z.mul_le_mono_nonneg_r; lia).
        lia. }
  destruct HP as [H1 H2]. split; [exact H1 |].
  intros lx ly iz Hlx Hly Hiz. apply H2; lia.
Qed.

(** One call of [dgemm_] of the y stage, for the x power [k] and the grid
    points [lo <= iy < hi] of the unit cell. *)
Lemma y_dgemm_block (k lo hi : Z) (beta : double) (Mk : mem) :
  0 <= k <= topl -> 0 <= lo -> hi <= mesh 1 ->
  (forall q, q < weightz L -> Mk q = M q) ->
  let call :=
    dgemm_NN (mesh 2) (topl + 1) (hi - lo) D1
             (weightyz L + k * (mesh 1 * mesh 2) + lo * mesh 2) (mesh 2)
             (ys_exp L + lo) (mesh 1) beta
             (weightz L + k * (topl + 1) * mesh 2) (mesh 2) Mk in
  (forall q, q < weightz L + k * (topl + 1) * mesh 2
             \/ weightz L + (k + 1) * (topl + 1) * mesh 2 <= q ->
     call q = Mk q) /\
  (forall ly iz, 0 <= ly <= topl -> 0 <= iz < mesh 2 ->
     call (weightz L + k * (topl + 1) * mesh 2 + ly * mesh 2 + iz)
     = ((if dne beta (Fin 0)
         then beta * Mk (weightz L + k * (topl + 1) * mesh 2
                         + ly * mesh 2 + iz)%Z
         else Fin 0)
        + y_contraction mesh L M lo hi k ly iz)%dbl).
Proof.
  intros Hk Hlo Hhi Hlow call. subst call.
  assert (Hwz : weightz L = weightyz L + (topl + 1) * (mesh 1 * mesh 2))
    by reflexivity.
  assert (Hys : weightyz L
                = ys_exp L + (topl + 1) * mesh 1 + (topl + 1) * mesh 2).
  { unfold L, GTOnumint_3d_orth_layout. cbn [weightyz ys_exp]. lia. }
  split.
  - intros q Hq. apply dgemm_NN_outside. lia.
  - intros ly iz Hly Hiz.
    replace (weightz L + k * (topl + 1) * mesh 2 + ly * mesh 2 + iz)
      with (weightz L + k * (topl + 1) * mesh 2 + iz + ly * mesh 2) by lia.
    rewrite dgemm_NN_inside by lia.
    f_equal. rewrite D1_mul. unfold y_contraction.
    apply dsum_ext. intros t Ht.
    assert (T1 : 0 <= hi - lo) by lia.
    assert (T2 : (lo + t + 1) * mesh 2 <= mesh 1 * mesh 2)
      by (apply Z.mul_le_mono_nonneg_r; lia).
    assert (T3 : (k + 1) * (mesh 1 * mesh 2) <= (topl + 1) * (mesh 1 * mesh 2))
      by (apply Z.mul_le_mono_nonneg_r;
          [apply Z.mul_nonneg_nonneg |]; lia).
    assert (T4 : (ly + 1) * mesh 1 <= (topl + 1) * mesh 1)
      by (apply Z.mul_le_mono_nonneg_r; lia).
    assert (T5 : 0 <= (topl + 1) * mesh 2)
      by (apply Z.mul_nonneg_nonneg; lia).
    rewrite !Hlow by lia. f_equal; f_equal; lia.
Qed.

(** The branch of one image (lines 292-299), for an ordered slice: the
    call of [dgemm_] has [K = ny1 - ny0 >= 0]. *)
Lemma y_one_image_spec (ny0 ny1 : Z) :
  0 <= ny0 <= ny1 -> ny1 <= mesh 1 ->
  (forall q, q < weightz L ->
     GTOnumint_3d_orth_y topl mesh L 1 ny0 ny1 M q = M q) /\
  (forall lx ly iz, 0 <= lx <= topl -> 0 <= ly <= topl -> 0 <= iz < mesh 2 ->
     GTOnumint_3d_orth_y topl mesh L 1 ny0 ny1 M
       (weightz L + lx * (topl + 1) * mesh 2 + ly * mesh 2 + iz)
     = y_contraction mesh L M ny0 ny1 lx ly iz).
Proof.
  intros [H0 _] H1. unfold GTOnumint_3d_orth_y. cbn [Z.eqb Pos.eqb]. cbv zeta.
  apply y_loop_blocks. intros k Mk Hk Hlow.
  destruct (@y_dgemm_block k ny0 ny1 D0 Mk Hk H0 H1 Hlow) as [Ho Hi].
  split; [exact Ho |].
  intros ly iz Hly Hiz. rewrite Hi by assumption.
  rewrite dne_D0. apply D0_add.
Qed.

(** X17: with one image of the cell on the y axis, at least one grid
    point on it and an ordered slice [0 <= ny0 <= ny1 <= mesh[1]], so
    that every call of [dgemm_] has [K >= 0], the y stage stores for
    every x power [lx], y power [ly] and z index [iz] the contraction
    over the grid points [ny0 <= iy < ny1] only, and changes nothing
    below [weightz]. *)
Theorem GTOnumint_3d_orth_y_one_image (ny0 ny1 : Z) :
  0 < mesh 1 -> 0 <= ny0 <= ny1 -> ny1 <= mesh 1 ->
  (forall q, q < weightz L ->
     GTOnumint_3d_orth_y topl mesh L 1 ny0 ny1 M q = M q) /\
  (forall lx ly iz, 0 <= lx <= topl -> 0 <= ly <= topl -> 0 <= iz < mesh 2 ->
     GTOnumint_3d_orth_y topl mesh L 1 ny0 ny1 M
       (weightz L + lx * (topl + 1) * mesh 2 + ly * mesh 2 + iz)
     = y_contraction mesh L M ny0 ny1 lx ly iz).
Proof. intros _. exact (@y_one_image_spec ny0 ny1). Qed.

(** X18: with two images of the cell on the y axis and a slice that
    wraps around ([ny1 <= ny0]), the y stage stores the contraction over
    the two pieces [0 <= iy < ny1] and [ny0 <= iy < mesh[1]] of the cell,
    and changes nothing below [weightz]. *)
Theorem GTOnumint_3d_orth_y_two_pieces (ny0 ny1 : Z) :
  0 <= ny1 <= ny0 -> ny0 <= mesh 1 ->
  (forall q, q < weightz L ->
     GTOnumint_3d_orth_y topl mesh L 2 ny0 ny1 M q = M q) /\
  (forall lx ly iz, 0 <= lx <= topl -> 0 <= ly <= topl -> 0 <= iz < mesh 2 ->
     GTOnumint_3d_orth_y topl mesh L 2 ny0 ny1 M
       (weightz L + lx * (topl + 1) * mesh 2 + ly * mesh 2 + iz)
     = (y_contraction mesh L M 0 ny1 lx ly iz
        + y_contraction mesh L M ny0 (mesh 1) lx ly iz)%dbl).
Proof.
  intros H0 H1. unfold GTOnumint_3d_orth_y, _has_overlap.
  cbn [Z.eqb Pos.eqb andb]. 
  replace (ny0 <? ny1) with false by (symmetry; apply Z.ltb_ge; lia).
  cbn [negb]. cbv zeta.
  apply y_loop_blocks. intros k Mk Hk Hlow.
  set (M1 := dgemm_NN (mesh 2) (topl + 1) ny1 D1
               (weightyz L + k * (mesh 1 * mesh 2)) (mesh 2)
               (ys_exp L) (mesh 1) D0
               (weightz L + k * (topl + 1) * mesh 2) (mesh 2) Mk).
  pose proof (@y_dgemm_block k 0 ny1 D0 Mk Hk ltac:(lia) ltac:(lia) Hlow)
    as Hfirst.
  cbv zeta in Hfirst.
  replace (ny1 - 0) with ny1 in Hfirst by lia.
  replace (weightyz L + k * (mesh 1 * mesh 2) + 0 * mesh 2)
    with (weightyz L + k * (mesh 1 * mesh 2)) in Hfirst by lia.
  replace (ys_exp L + 0) with (ys_exp L) in Hfirst by lia.
  fold M1 in Hfirst. destruct Hfirst as [Ho1 Hi1].
  assert (Hlow1 : forall q, q < weightz L -> M1 q = M q).
  { intros q Hq. rewrite Ho1; [apply Hlow; exact Hq |].
    left. assert (0 <= k * (topl + 1) * mesh 2)
      by (repeat apply Z.mul_nonneg_nonneg; lia). lia. }
  destruct (@y_dgemm_block k ny0 (mesh 1) D1 M1 Hk ltac:(lia) ltac:(lia) Hlow1)
    as [Ho2 Hi2].
  split.
  - intros q Hq. rewrite Ho2, Ho1 by exact Hq. reflexivity.
  - intros ly iz Hly Hiz. rewrite Hi2 by assumption.
    rewrite dne_D1, D1_mul, Hi1 by assumption.
    rewrite dne_D0, D0_add. reflexivity.
Qed.

End YStage.

Lemma GTOnumint_3d_orth_y_one_image_witness :
  (forall q, q < weightz layout_121 ->
     GTOnumint_3d_orth_y 0 mesh_121 layout_121 1 0 1 cache_121 q
     = cache_121 q) /\
  (forall lx ly iz, 0 <= lx <= 0 -> 0 <= ly <= 0 -> 0 <= iz < mesh_121 2 ->
     GTOnumint_3d_orth_y 0 mesh_121 layout_121 1 0 1 cache_121
       (weightz layout_121 + lx * (0 + 1) * mesh_121 2 + ly * mesh_121 2 + iz)
     = y_contraction mesh_121 layout_121 cache_121 0 1 lx ly iz).
Proof.
  apply (@GTOnumint_3d_orth_y_one_image 0 mesh_121 0 cache_121);
    try (vm_compute; congruence); split; vm_compute; congruence.
Defined.

Lemma GTOnumint_3d_orth_y_two_pieces_witness :
  (forall q, q < weightz layout_121 ->
     GTOnumint_3d_orth_y 0 mesh_121 layout_121 2 1 1 cache_121 q
     = cache_121 q) /\
  (forall lx ly iz, 0 <= lx <= 0 -> 0 <= ly <= 0 -> 0 <= iz < mesh_121 2 ->
     GTOnumint_3d_orth_y 0 mesh_121 layout_121 2 1 1 cache_121
       (weightz layout_121 + lx * (0 + 1) * mesh_121 2 + ly * mesh_121 2 + iz)
     = (y_contraction mesh_121 layout_121 cache_121 0 1 lx ly iz
        + y_contraction mesh_121 layout_121 cache_121 1 (mesh_121 1)
                        lx ly iz)%dbl).
Proof.
  apply (@GTOnumint_3d_orth_y_two_pieces 0 mesh_121 0 cache_121);
    vm_compute; try congruence; split; congruence.
Defined.

(** ** The contraction of the z axis *)

Lemma for_lt_ext (S : Type) (lo hi : Z) (b1 b2 : Z -> S -> S) (s : S) :
  (forall i t, lo <= i < hi -> b1 i t = b2 i t) ->
  for_lt lo hi b1 s = for_lt lo hi b2 s.
Proof.
  intros H. unfold for_lt.
  remember (Z.to_nat (hi - lo)) as k eqn:Hk.
  assert (Hb : lo + Z.of_nat k <= hi \/ k = O) by lia. clear Hk.
  revert lo s H Hb. induction k as [| k IH]; intros lo s H Hb; [reflexivity |].
  cbn [iter_up]. rewrite H by lia. apply IH.
  - intros i t Hi. apply H. lia.
  - left. lia.
Qed.

(** The dot product of the z stage reads the two rows only. *)
Lemma zdot_ext (M1 M2 : mem) (pweightz pz lo hi : Z) :
  (forall i, lo <= i < hi ->
     M1 (pweightz + i) = M2 (pweightz + i) /\ M1 (pz + i) = M2 (pz + i)) ->
  zdot M1 pweightz pz lo hi = zdot M2 pweightz pz lo hi.
Proof.
  intros H. unfold zdot. apply for_lt_ext. intros i val Hi.
  destruct (H i Hi) as [-> ->]. reflexivity.
Qed.

(** The powers of a triple of the loop nest are not negative, and their
    total is at most [topl]. *)
Lemma cart_triples_in (floorl topl lx ly lz : Z) :
  In (lx, ly, lz) (cart_triples floorl topl) ->
  0 <= lx /\ 0 <= ly /\ 0 <= lz /\ floorl <= lx + ly + lz <= topl.
Proof.
  unfold cart_triples, zrange_up, zrange_down. intros H.
  apply in_flat_map in H. destruct H as (l & Hl & H).
  apply in_flat_map in H. destruct H as (x & Hx & H).
  apply in_map_iff in H. destruct H as (y & E & Hy).
  apply in_map_iff in Hl. destruct Hl as (a & <- & Ha).
  apply in_map_iff in Hx. destruct Hx as (b & <- & Hb).
  apply in_map_iff in Hy. destruct Hy as (c & <- & Hc).
  apply in_seq in Ha, Hb, Hc. inversion E; subst. lia.
Qed.

(** Stores to the consecutive elements of a block, each value computed
    from memory that the block does not reach. *)
Lemma fold_numbered_stores (A : Type) (val : mem -> A -> double)
    (ok : A -> Prop) (out top : Z) (M0 : mem) (l : list A) :
  (forall Mk t, ok t -> (forall q, top <= q -> Mk q = M0 q) ->
     val Mk t = val M0 t) ->
  Forall ok l ->
  forall (n0 : Z) (M : mem),
  out + n0 + Z.of_nat (List.length l) <= top ->
  (forall q, top <= q -> M q = M0 q) ->
  let R := fold_left (fun M (w : Z * A) => upd M (out + fst w) (val M (snd w)))
                     (numbered n0 l) M in
  (forall k t, nth_error l k = Some t ->
     R (out + n0 + Z.of_nat k) = val M0 t) /\
  (forall q, q < out + n0 \/ out + n0 + Z.of_nat (List.length l) <= q ->
     R q = M q).
Proof.
  intros Hval Hok. induction Hok as [| t l Ht Hl IH]; intros n0 M Hfit Hhigh R.
  - subst R. cbn [numbered fold_left]. split; [| reflexivity].
    intros [| k] t E; discriminate E.
  - subst R. cbn [numbered fold_left fst snd].
    cbn [List.length] in Hfit. rewrite Nat2Z.inj_succ in Hfit.
    set (M' := upd M (out + n0) (val M t)).
    assert (Hhigh' : forall q, top <= q -> M' q = M0 q).
    { intros q Hq. unfold M', upd.
      replace (q =? out + n0) with false by (symmetry; apply Z.eqb_neq; lia).
      apply Hhigh; exact Hq. }
    destruct (IH (n0 + 1) M' ltac:(lia) Hhigh') as [Hin Hout].
    split.
    + intros [| k] t' E.
      * cbn [nth_error] in E. injection E as <-.
        rewrite Hout by lia. unfold M', upd.
        replace (out + n0 + Z.of_nat 0 =? out + n0) with true
          by (symmetry; apply Z.eqb_eq; lia).
        apply Hval; [exact Ht | exact Hhigh].
      * cbn [nth_error] in E.
        replace (out + n0 + Z.of_nat (Datatypes.S k))
          with (out + (n0 + 1) + Z.of_nat k) by lia.
        apply Hin; exact E.
    + intros q Hq. cbn [List.length] in Hq. rewrite Nat2Z.inj_succ in Hq.
      rewrite Hout by lia. unfold M', upd.
      replace (q =? out + n0) with false by (symmetry; apply Z.eqb_neq; lia).
      reflexivity.
Qed.

(** The stores of the z stage, from the memory before the stage. *)
Lemma z_stage_spec (out floorl topl : Z) (mesh : ints)
    (L : orth_layout) (nimgz nz0 nz1 : Z) (M : mem) :
  let lo := if nimgz =? 1 then nz0 else 0 in
  let hi := if nimgz =? 1 then nz1 else mesh 2 in
  let N := Z.of_nat (List.length (cart_triples floorl topl)) in
  let R := GTOnumint_3d_orth_z out floorl topl mesh L nimgz nz0 nz1 M in
  0 <= mesh 2 -> 0 <= lo ->
  out + N <= zs_exp L -> out + N <= weightz L ->
  (forall n lx ly lz,
     nth_error (cart_triples floorl topl) n = Some (lx, ly, lz) ->
     R (out + Z.of_nat n)
     = zdot M (weightz L + (lx * (topl + 1) + ly) * mesh 2)
            (zs_exp L + lz * mesh 2) lo hi) /\
  (forall q, q < out \/ out + N <= q -> R q = M q).
Proof.
  intros lo hi N R Hm Hlo Hz Hw.
  assert (ER : R = fold_left
                 (fun M (w : Z * (Z * Z * Z)) =>
                    upd M (out + fst w)
                        (zdot M (weightz L
                                 + (fst (fst (snd w)) * (topl + 1)
                                    + snd (fst (snd w))) * mesh 2)
                              (zs_exp L + snd (snd w) * mesh 2) lo hi))
                 (numbered 0 (cart_triples floorl topl)) M).
  { subst R lo hi. unfold GTOnumint_3d_orth_z.
    destruct (nimgz =? 1); rewrite cart_loop_numbered; cbn [snd];
      apply fold_left_ext_eq; intros M' [n [[lx ly] lz]]; reflexivity. }
  pose (val := fun (Mk : mem) (t : Z * Z * Z) =>
    zdot Mk (weightz L + (fst (fst t) * (topl + 1) + snd (fst t)) * mesh 2)
         (zs_exp L + snd t * mesh 2) lo hi).
  pose (ok := fun (t : Z * Z * Z) =>
    0 <= fst (fst t) /\ 0 <= snd (fst t) /\ 0 <= snd t /\ 0 <= topl).
  pose proof (@fold_numbered_stores (Z * Z * Z) val ok out (out + N) M
                (cart_triples floorl topl)) as H.
  assert (Hval : forall Mk t, ok t ->
            (forall q, out + N <= q -> Mk q = M q) -> val Mk t = val M t).
  { intros Mk [[lx ly] lz] (Hx & Hy & Hzz & Ht) Hhigh. unfold val.
    cbn [fst snd] in *. apply zdot_ext. intros i Hi.
    assert (0 <= (lx * (topl + 1) + ly) * mesh 2)
      by (apply Z.mul_nonneg_nonneg; [| lia];
          apply Z.add_nonneg_nonneg; [apply Z.mul_nonneg_nonneg |]; lia).
    assert (0 <= lz * mesh 2) by (apply Z.mul_nonneg_nonneg; lia).
    split; apply Hhigh; lia. }
  assert (Hok : Forall ok (cart_triples floorl topl)).
  { apply Forall_forall. intros [[lx ly] lz] Hin.
    apply cart_triples_in in Hin. unfold ok. cbn [fst snd]. lia. }
  specialize (H Hval Hok 0 M ltac:(fold N; lia) ltac:(reflexivity)).
  cbv zeta in H. fold N in H. destruct H as [Hin Hout].
  rewrite ER. split.
  - intros n lx ly lz E. specialize (Hin n (lx, ly, lz) E).
    replace (out + 0 + Z.of_nat n) with (out + Z.of_nat n) in Hin by lia.
    exact Hin.
  - intros q Hq. apply Hout. lia.
Qed.

(** X19: when the block [out[0..N)] of the [N] triples lies below the
    tables [zs_exp] and [weightz], the z stage leaves in [out[n]] the
    dot product of the rows of the triple number [n] as they were before
    the stage, over [nz0 <= i < nz1] for one image and over the whole
    axis otherwise, and changes nothing outside the block. *)
Theorem GTOnumint_3d_orth_z_values (out floorl topl : Z) (mesh : ints)
    (L : orth_layout) (nimgz nz0 nz1 : Z) (M : mem) :
  let lo := if nimgz =? 1 then nz0 else 0 in
  let hi := if nimgz =? 1 then nz1 else mesh 2 in
  let N := Z.of_nat (List.length (cart_triples floorl topl)) in
  let R := GTOnumint_3d_orth_z out floorl topl mesh L nimgz nz0 nz1 M in
  0 <= mesh 2 -> 0 <= lo ->
  out + N <= zs_exp L -> out + N <= weightz L ->
  (forall n lx ly lz,
     nth_error (cart_triples floorl topl) n = Some (lx, ly, lz) ->
     R (out + Z.of_nat n)
     = zdot M (weightz L + (lx * (topl + 1) + ly) * mesh 2)
            (zs_exp L + lz * mesh 2) lo hi) /\
  (forall q, q < out \/ out + N <= q -> R q = M q).
Proof.
  exact (@z_stage_spec out floorl topl mesh L nimgz nz0 nz1 M).
Qed.

Lemma GTOnumint_3d_orth_z_values_witness :
  (forall n lx ly lz,
     nth_error (cart_triples 0 0) n = Some (lx, ly, lz) ->
     GTOnumint_3d_orth_z 0 0 0 mesh_121 layout_121 1 0 1 cache_121
                         (0 + Z.of_nat n)
     = zdot cache_121 (weightz layout_121 + (lx * (0 + 1) + ly) * mesh_121 2)
            (zs_exp layout_121 + lz * mesh_121 2) 0 1) /\
  (forall q, q < 0 \/ 0 + Z.of_nat (List.length (cart_triples 0 0)) <= q ->
     GTOnumint_3d_orth_z 0 0 0 mesh_121 layout_121 1 0 1 cache_121 q
     = cache_121 q).
Proof.
  apply (@GTOnumint_3d_orth_z_values 0 0 0 mesh_121 layout_121 1 0 1
           cache_121); vm_compute; congruence.
Defined.

(** ** The contraction of the x axis *)

Lemma dgemm_NN_weights_inside (W : mem) (m n k : Z) (alpha : double)
    (a lda b ldb : Z) (beta : double) (c ldc : Z) (M : mem) (i j : Z) :
  0 <= i < m -> m <= ldc -> 0 <= j < n ->
  dgemm_NN_weights W m n k alpha a lda b ldb beta c ldc M (c + i + j * ldc)
  = ((if dne beta (Fin 0) then beta * M (c + i + j * ldc)%Z else Fin 0)
     + alpha * dsum (Z.to_nat k)
                 (fun l => W (a + i + l * lda)%Z * M (b + l + j * ldb)%Z))%dbl.
Proof.
  intros Hi Hm Hj. unfold dgemm_NN_weights.
  replace (c + i + j * ldc - c) with (i + j * ldc) by lia.
  rewrite Z.div_add, Z.mod_add, Z.div_small, Z.mod_small by lia.
  assert (0 <= j * ldc) by (apply Z.mul_nonneg_nonneg; lia).
  replace (0 <=? i + j * ldc) with true by (symmetry; apply Z.leb_le; lia).
  replace (0 <? ldc) with true by (symmetry; apply Z.ltb_lt; lia).
  replace (i <? m) with true by (symmetry; apply Z.ltb_lt; lia).
  replace (0 + j <? n) with true by (symmetry; apply Z.ltb_lt; lia).
  reflexivity.
Qed.

Lemma dgemm_NN_weights_outside (W : mem) (m n k : Z) (alpha : double)
    (a lda b ldb : Z) (beta : double) (c ldc : Z) (M : mem) (q : Z) :
  q < c \/ c + n * ldc <= q ->
  dgemm_NN_weights W m n k alpha a lda b ldb beta c ldc M q = M q.
Proof.
  intros Hq. unfold dgemm_NN_weights. cbv zeta.
  destruct Hq as [Hq | Hq].
  - replace (0 <=? q - c) with false by (symmetry; apply Z.leb_gt; lia).
    reflexivity.
  - destruct (0 <? ldc) eqn:H1.
    + apply Z.ltb_lt in H1.
      replace ((q - c) / ldc <? n) with false.
      * rewrite andb_false_r. reflexivity.
      * symmetry. apply Z.ltb_ge. apply Z.div_le_lower_bound; lia.
    + rewrite andb_false_r. reflexivity.
Qed.

Section XStage.

Variables (fac : double) (topl : Z) (mesh : ints) (W : mem) (cache : Z)
          (M : mem).

Let L := GTOnumint_3d_orth_layout topl mesh cache.
Let xcols := mesh 1 * mesh 2.

Hypothesis topl_nonneg : 0 <= topl.
Hypothesis mesh0_pos : 0 < mesh 0.
Hypothesis mesh1_pos : 0 < mesh 1.
Hypothesis mesh2_pos : 0 < mesh 2.

(** One call of [dgemm_] of the x stage, for the grid points
    [lo <= ix < hi]. *)
Lemma x_dgemm_block (lo hi : Z) (beta : double) (Mk : mem) :
  hi <= mesh 0 ->
  (forall q, q < weightyz L -> Mk q = M q) ->
  let call :=
    dgemm_NN_weights W xcols (topl + 1) (hi - lo) fac
                     (lo * xcols) xcols (xs_exp L + lo) (mesh 0) beta
                     (weightyz L) xcols Mk in
  (forall q, q < weightyz L \/ weightyz L + (topl + 1) * xcols <= q ->
     call q = Mk q) /\
  (forall lx col, 0 <= lx <= topl -> 0 <= col < xcols ->
     call (weightyz L + lx * xcols + col)
     = ((if dne beta (Fin 0)
         then beta * Mk (weightyz L + lx * xcols + col)%Z
         else Fin 0)
        + fac * x_contraction mesh W L M lo hi lx col)%dbl).
Proof.
  intros Hhi Hlow call. subst call.
  assert (Hx : 0 < xcols) by (apply Z.mul_pos_pos; assumption).
  assert (Hwy : weightyz L
                = xs_exp L + (topl + 1) * mesh 0 + (topl + 1) * mesh 1
                  + (topl + 1) * mesh 2).
  { unfold L, GTOnumint_3d_orth_layout. cbn [weightyz xs_exp]. lia. }
  split.
  - intros q Hq. apply dgemm_NN_weights_outside. exact Hq.
  - intros lx col Hlx Hcol.
    replace (weightyz L + lx * xcols + col)
      with (weightyz L + col + lx * xcols) by lia.
    rewrite dgemm_NN_weights_inside by lia.
    f_equal. f_equal. unfold x_contraction. fold xcols.
    apply dsum_ext. intros t Ht.
    assert (T1 : (lx + 1) * mesh 0 <= (topl + 1) * mesh 0)
      by (apply Z.mul_le_mono_nonneg_r; lia).
    assert (T2 : 0 <= (topl + 1) * mesh 1)
      by (apply Z.mul_nonneg_nonneg; lia).
    assert (T3 : 0 <= (topl + 1) * mesh 2)
      by (apply Z.mul_nonneg_nonneg; lia).
    rewrite Hlow by lia. f_equal; f_equal; lia.
Qed.

(** X20: for a grid slice inside the mesh, [0 <= nx0 <= mesh[0]] and
    [0 <= nx1 <= mesh[0]], that is ordered when there is one image
    ([nx0 <= nx1]), so that every call of [dgemm_] has [K >= 0], the x
    stage stores, for every x power [lx] and every column [col] of a
    plane, [fac] times the contraction of the weights with the x table:
    over the slice [nx0 <= ix < nx1] for one image, over the two pieces
    [0 <= ix < nx1] and [nx0 <= ix < mesh[0]] for two images and a slice
    that wraps around, and over the whole axis otherwise.  It changes
    nothing outside the block [weightyz]. *)
Theorem GTOnumint_3d_orth_x_values (nimgx nx0 nx1 : Z) :
  0 <= nx0 <= mesh 0 -> 0 <= nx1 <= mesh 0 ->
  (nimgx = 1 -> nx0 <= nx1) ->
  let R := GTOnumint_3d_orth_x fac topl mesh W L nimgx nx0 nx1 M in
  (forall q, q < weightyz L \/ weightyz L + (topl + 1) * xcols <= q ->
     R q = M q) /\
  (forall lx col, 0 <= lx <= topl -> 0 <= col < xcols ->
     R (weightyz L + lx * xcols + col)
     = if nimgx =? 1 then
         (fac * x_contraction mesh W L M nx0 nx1 lx col)%dbl
       else if (nimgx =? 2) && negb (_has_overlap nx0 nx1 (mesh 0)) then
         (fac * x_contraction mesh W L M 0 nx1 lx col
          + fac * x_contraction mesh W L M nx0 (mesh 0) lx col)%dbl
       else
         (fac * x_contraction mesh W L M 0 (mesh 0) lx col)%dbl).
Proof.
  intros _ [_ Hnx1] _ R. subst R. unfold GTOnumint_3d_orth_x. cbv zeta.
  fold xcols.
  destruct (nimgx =? 1).
  - destruct (@x_dgemm_block nx0 nx1 D0 M Hnx1 ltac:(reflexivity)) as [Ho Hi].
    split; [exact Ho |].
    intros lx col Hlx Hcol. rewrite Hi by assumption.
    rewrite dne_D0. apply D0_add.
  - destruct ((nimgx =? 2) && negb (_has_overlap nx0 nx1 (mesh 0))).
    + pose proof (@x_dgemm_block 0 nx1 D0 M Hnx1 ltac:(reflexivity)) as H1.
      cbv zeta in H1.
      replace (nx1 - 0) with nx1 in H1 by lia.
      replace (0 * xcols) with 0 in H1 by lia.
      replace (xs_exp L + 0) with (xs_exp L) in H1 by lia.
      set (M1 := dgemm_NN_weights W xcols (topl + 1) nx1 fac 0 xcols
                   (xs_exp L) (mesh 0) D0 (weightyz L) xcols M) in *.
      destruct H1 as [Ho1 Hi1].
      assert (Hlow1 : forall q, q < weightyz L -> M1 q = M q)
        by (intros q Hq; apply Ho1; left; exact Hq).
      destruct (@x_dgemm_block nx0 (mesh 0) D1 M1 ltac:(lia) Hlow1)
        as [Ho2 Hi2].
      split.
      * intros q Hq. rewrite Ho2, Ho1 by exact Hq. reflexivity.
      * intros lx col Hlx Hcol. rewrite Hi2 by assumption.
        rewrite dne_D1, D1_mul, Hi1 by assumption.
        rewrite dne_D0, D0_add. reflexivity.
    + pose proof (@x_dgemm_block 0 (mesh 0) D0 M ltac:(lia) ltac:(reflexivity))
        as H1.
      cbv zeta in H1.
      replace (mesh 0 - 0) with (mesh 0) in H1 by lia.
      replace (0 * xcols) with 0 in H1 by lia.
      replace (xs_exp L + 0) with (xs_exp L) in H1 by lia.
      destruct H1 as [Ho Hi]. split; [exact Ho |].
      intros lx col Hlx Hcol. rewrite Hi by assumption.
      rewrite dne_D0. apply D0_add.
Qed.

End XStage.

Lemma GTOnumint_3d_orth_x_values_witness :
  let R := GTOnumint_3d_orth_x (Fin 1) 0 mesh_121 (fun _ => Fin 1)
             layout_121 1 0 1 cache_121 in
  (forall q, q < weightyz layout_121
             \/ weightyz layout_121 + (0 + 1) * (mesh_121 1 * mesh_121 2) <= q ->
     R q = cache_121 q) /\
  (forall lx col, 0 <= lx <= 0 -> 0 <= col < mesh_121 1 * mesh_121 2 ->
     R (weightyz layout_121 + lx * (mesh_121 1 * mesh_121 2) + col)
     = if 1 =? 1 then
         (Fin 1 * x_contraction mesh_121 (fun _ => Fin 1) layout_121
                                cache_121 0 1 lx col)%dbl
       else if (1 =? 2) && negb (_has_overlap 0 1 (mesh_121 0)) then
         (Fin 1 * x_contraction mesh_121 (fun _ => Fin 1) layout_121
                                cache_121 0 1 lx col
          + Fin 1 * x_contraction mesh_121 (fun _ => Fin 1) layout_121
                                  cache_121 0 (mesh_121 0) lx col)%dbl
       else
         (Fin 1 * x_contraction mesh_121 (fun _ => Fin 1) layout_121
                                cache_121 0 (mesh_121 0) lx col)%dbl).
Proof.
  apply (@GTOnumint_3d_orth_x_values (Fin 1) 0 mesh_121 (fun _ => Fin 1) 0
           cache_121);
    try (vm_compute; congruence); try (intros _);
    try (split; vm_compute; congruence); vm_compute; congruence.
Defined.

(** ** The tables of one axis *)

Lemma for_ge_invariant (S : Type) (P : Z -> S -> Prop) (hi lo : Z)
    (body : Z -> S -> S) (s : S) :
  lo <= hi + 1 ->
  P hi s ->
  (forall i t, lo <= i <= hi -> P i t -> P (i - 1) (body i t)) ->
  P (lo - 1) (for_ge hi lo body s).
Proof.
  intros Hle H0 Hstep. unfold for_ge.
  remember (Z.to_nat (hi + 1 - lo)) as k eqn:Hk.
  assert (Hlo : lo = hi + 1 - Z.of_nat k) by lia. clear Hk. subst lo.
  revert hi s Hle H0 Hstep. induction k as [| k IH]; intros hi s Hle H0 Hstep.
  - cbn [iter_down]. replace (hi + 1 - Z.of_nat 0 - 1) with hi by lia.
    exact H0.
  - cbn [iter_down].
    replace (hi + 1 - Z.of_nat (Datatypes.S k) - 1)
      with (hi - 1 + 1 - Z.of_nat k - 1) by lia.
    apply IH.
    + lia.
    + apply Hstep; [lia | exact H0].
    + intros i t Hi. apply Hstep. lia.
Qed.

Lemma for_ge_empty (S : Type) (hi lo : Z) (body : Z -> S -> S) (s : S) :
  hi < lo -> for_ge hi lo body s = s.
Proof.
  intros H. unfold for_ge. replace (Z.to_nat (hi + 1 - lo)) with O by lia.
  reflexivity.
Qed.

Lemma upd_same (M : mem) (p : Z) (v : double) : upd M p v p = v.
Proof. unfold upd. rewrite Z.eqb_refl. reflexivity. Qed.

Lemma upd_other (M : mem) (p q : Z) (v : double) : q <> p -> upd M p v q = M q.
Proof.
  intros H. unfold upd.
  replace (q =? p) with false by (symmetry; apply Z.eqb_neq; exact H).
  reflexivity.
Qed.

Section Gaussians.

Variables (aij x0xij dx : double).

Variables (xs_all g nmx : Z) (M : mem).

(** The two loops of the recurrence: the values that they leave, and the
    elements that they do not touch. *)
Lemma gaussians_spec :
  let R := _cartesian_components_gaussians xs_all g nmx aij x0xij dx M in
  (forall i, Z.min 0 g <= i < Z.max nmx (g + 1) ->
     R (xs_all + i) = gaussian_row aij x0xij dx g i) /\
  (forall q, q < xs_all + Z.min 0 g \/ xs_all + Z.max nmx (g + 1) <= q ->
     R q = M q).
Proof.
  cbv zeta. unfold _cartesian_components_gaussians, gaussian_row.
  set (e1 := dexp (dneg aij * dx * dx)%dbl).
  set (e2 := (e1 * e1)%dbl).
  set (s := dexp (dneg aij * x0xij * x0xij)%dbl).
  set (u0 := (dexp (Fin (-2) * aij * x0xij * dx) * e1)%dbl).
  set (d0 := (dexp (Fin 2 * aij * x0xij * dx) * e1)%dbl).
  set (M1 := upd M (xs_all + g) s).
  set (up := fun (i : Z) (st : mem * double) =>
    let (M0, exp_x0) := st in
    (upd M0 (xs_all + i) (M0 (xs_all + (i - 1))%Z * exp_x0)%dbl,
     (exp_x0 * e2)%dbl)).
  set (down := fun (i : Z) (st : mem * double) =>
    let (M0, exp_x0) := st in
    (upd M0 (xs_all + i) (M0 (xs_all + (i + 1))%Z * exp_x0)%dbl,
     (exp_x0 * e2)%dbl)).
  set (hi := Z.max nmx (g + 1)). set (lo := Z.min 0 g).
  (* the loop upward *)
  pose (Pup := fun (k : Z) (st : mem * double) =>
    snd st = dtimes (Z.to_nat (k - g - 1)) u0 e2 /\
    (forall j, g <= j < k ->
       fst st (xs_all + j) = recurrence_value s u0 e2 (Z.to_nat (j - g))) /\
    (forall q, q < xs_all + g \/ xs_all + k <= q -> fst st q = M q)).
  assert (Hup : Pup hi (for_lt (g + 1) nmx up (M1, u0))).
  { assert (Ecount : Z.to_nat (nmx - (g + 1)) = Z.to_nat (hi - (g + 1)))
      by (unfold hi; lia).
    unfold for_lt at 1. rewrite Ecount.
    change (iter_up (Z.to_nat (hi - (g + 1))) (g + 1) up)
      with (for_lt (g + 1) hi up).
    apply for_lt_invariant; [unfold hi; lia | |].
    - unfold Pup. cbn [fst snd]. split; [| split].
      + replace (g + 1 - g - 1) with 0 by lia. reflexivity.
      + intros j Hj. replace j with g by lia. unfold M1.
        rewrite upd_same, Z.sub_diag. reflexivity.
      + intros q Hq. unfold M1. apply upd_other. lia.
    - intros k [Mk e] Hk (He & Hval & Hfr). cbn [fst snd] in *. subst e.
      unfold up, Pup. cbn [fst snd]. split; [| split].
      + replace (Z.to_nat (k + 1 - g - 1))
          with (Datatypes.S (Z.to_nat (k - g - 1))) by lia.
        reflexivity.
      + intros j Hj. destruct (Z.eq_dec j k) as [-> | Hne].
        * rewrite upd_same, Hval by lia.
          replace (Z.to_nat (k - g))
            with (Datatypes.S (Z.to_nat (k - 1 - g))) by lia.
          cbn [recurrence_value].
          replace (k - g - 1) with (k - 1 - g) by lia. reflexivity.
        * rewrite upd_other by lia. apply Hval. lia.
      + intros q Hq. rewrite upd_other by lia. apply Hfr. lia. }
  destruct (for_lt (g + 1) nmx up (M1, u0)) as [M2 e] eqn:E2.
  destruct Hup as (_ & Hval2 & Hfr2). cbn [fst snd] in *. clear E2 e.
  (* the loop downward *)
  pose (Pdown := fun (k : Z) (st : mem * double) =>
    snd st = dtimes (Z.to_nat (g - 1 - k)) d0 e2 /\
    (forall j, k < j < hi ->
       fst st (xs_all + j)
       = if g <=? j then recurrence_value s u0 e2 (Z.to_nat (j - g))
         else recurrence_value s d0 e2 (Z.to_nat (g - j))) /\
    (forall q, q <= xs_all + k \/ xs_all + hi <= q -> fst st q = M q)).
  assert (Hstart : Pdown (g - 1) (M2, d0)).
  { unfold Pdown. cbn [fst snd]. split; [| split].
    - replace (g - 1 - (g - 1)) with 0 by lia. reflexivity.
    - intros j Hj.
      replace (g <=? j) with true by (symmetry; apply Z.leb_le; lia).
      apply Hval2. lia.
    - intros q Hq. apply Hfr2. lia. }
  assert (Hdown : Pdown (lo - 1) (for_ge (g - 1) 0 down (M2, d0))).
  { destruct (Z.lt_ge_cases g 0) as [Hneg | Hpos].
    - rewrite for_ge_empty by lia.
      replace lo with g by (unfold lo; lia). exact Hstart.
    - replace lo with 0 by (unfold lo; lia).
      apply for_ge_invariant; [lia | exact Hstart |].
      intros k [Mk e] Hk (He & Hval & Hfr). cbn [fst snd] in *. subst e.
      unfold down, Pdown. cbn [fst snd]. split; [| split].
      + replace (Z.to_nat (g - 1 - (k - 1)))
          with (Datatypes.S (Z.to_nat (g - 1 - k))) by lia.
        reflexivity.
      + intros j Hj. destruct (Z.eq_dec j k) as [-> | Hne].
        * rewrite upd_same, Hval by (unfold hi; lia).
          replace (g <=? k) with false by (symmetry; apply Z.leb_gt; lia).
          replace (Z.to_nat (g - k))
            with (Datatypes.S (Z.to_nat (g - 1 - k))) by lia.
          cbn [recurrence_value].
          destruct (g <=? k + 1) eqn:Hgk.
          -- apply Z.leb_le in Hgk.
             replace (k + 1 - g) with 0 by lia.
             replace (g - 1 - k) with 0 by lia. reflexivity.
          -- apply Z.leb_gt in Hgk.
             replace (g - (k + 1)) with (g - 1 - k) by lia. reflexivity.
        * rewrite upd_other by lia. apply Hval. lia.
      + intros q Hq. rewrite upd_other by lia. apply Hfr. lia. }
  destruct (for_ge (g - 1) 0 down (M2, d0)) as [M3 e] eqn:E3.
  destruct Hdown as (_ & Hval3 & Hfr3). cbn [fst snd] in *.
  split.
  - intros i Hi. apply Hval3. lia.
  - intros q Hq. apply Hfr3. lia.
Qed.

End Gaussians.

(** X21: the recurrence of lines 148-162, in the operations of the
    code.  With [g = grid_close_to_xij], the element [g] of the row is
    [exp(-aij*x0xij*x0xij)]; every element above it is the element
    before it times the factor of its step, and every element below it
    the element after it times the factor of its step, where the factor
    starts as [exp(-+2*aij*x0xij*dx) * exp(-aij*dx*dx)] and is multiplied
    by [exp(-aij*dx*dx)^2] after every step.  This holds for every
    element [0 <= i < nmx], whatever [g] is; when [g] is an index of the
    row, nothing outside the row is changed. *)
Theorem gaussians_recurrence (xs_all g nmx : Z) (aij x0xij dx : double)
    (M : mem) :
  let R := _cartesian_components_gaussians xs_all g nmx aij x0xij dx M in
  (forall i, 0 <= i < nmx ->
     R (xs_all + i) = gaussian_row aij x0xij dx g i) /\
  (0 <= g < nmx ->
   forall q, q < xs_all \/ xs_all + nmx <= q -> R q = M q).
Proof.
  cbv zeta.
  pose proof (@gaussians_spec aij x0xij dx xs_all g nmx M) as [Hval Hfr].
  split.
  - intros i Hi. apply Hval. lia.
  - intros Hg q Hq. apply Hfr. lia.
Qed.

Lemma iter_up_snoc (S : Type) (k : nat) (i : Z) (body : Z -> S -> S) (s : S) :
  iter_up (Datatypes.S k) i body s
  = body (i + Z.of_nat k) (iter_up k i body s).
Proof.
  revert i s. induction k as [| k IH]; intros i s.
  - cbn [iter_up]. replace (i + Z.of_nat 0) with i by lia. reflexivity.
  - cbn [iter_up] in *. rewrite IH.
    replace (i + 1 + Z.of_nat k) with (i + Z.of_nat (Datatypes.S k)) by lia.
    reflexivity.
Qed.

Lemma for_lt_snoc (S : Type) (lo hi : Z) (body : Z -> S -> S) (s : S) :
  lo <= hi ->
  for_lt lo (hi + 1) body s = body hi (for_lt lo hi body s).
Proof.
  intros H. unfold for_lt.
  replace (Z.to_nat (hi + 1 - lo)) with (Datatypes.S (Z.to_nat (hi - lo)))
    by lia.
  rewrite iter_up_snoc. f_equal. lia.
Qed.

(** A loop that stores the elements of a block one after the other,
    each value from memory that the earlier stores did not reach. *)
Lemma store_block_spec (nf dst : Z) (f : mem -> Z -> double) (M : mem) :
  (forall Mk i, 0 <= i < nf ->
     (forall p, p < dst \/ dst + i <= p -> Mk p = M p) -> f Mk i = f M i) ->
  forall q,
    for_lt 0 nf (fun i M => upd M (dst + i) (f M i)) M q
    = if (dst <=? q) && (q <? dst + nf) then f M (q - dst) else M q.
Proof.
  intros Hf.
  destruct (Z.le_gt_cases nf 0) as [Hle | Hgt].
  - intros q. rewrite for_lt_empty by lia.
    destruct (dst <=? q) eqn:H1; [| reflexivity].
    destruct (q <? dst + nf) eqn:H2; [| reflexivity].
    apply Z.leb_le in H1. apply Z.ltb_lt in H2. lia.
  - pose (P := fun (k : Z) (Mk : mem) =>
      forall q, Mk q = if (dst <=? q) && (q <? dst + k)
                       then f M (q - dst) else M q).
    apply (@for_lt_invariant _ P); [lia | |].
    + intros q. destruct (dst <=? q) eqn:H1; [| reflexivity].
      replace (q <? dst + 0) with false; [reflexivity |].
      symmetry. apply Z.ltb_ge. apply Z.leb_le in H1. lia.
    + intros k Mk Hk HPk q.
      assert (Hfk : f Mk k = f M k).
      { apply Hf; [lia |]. intros p Hp. rewrite HPk.
        destruct (dst <=? p) eqn:H1; [| reflexivity].
        destruct (p <? dst + k) eqn:H2; [| reflexivity].
        apply Z.leb_le in H1. apply Z.ltb_lt in H2. lia. }
      unfold upd. destruct (q =? dst + k) eqn:Hq.
      * apply Z.eqb_eq in Hq. subst q.
        replace (dst <=? dst + k) with true by (symmetry; apply Z.leb_le; lia).
        replace (dst + k <? dst + (k + 1)) with true
          by (symmetry; apply Z.ltb_lt; lia).
        cbn [andb]. rewrite Hfk. f_equal. lia.
      * apply Z.eqb_neq in Hq. rewrite HPk.
        destruct (dst <=? q) eqn:H1; [| reflexivity].
        cbn [andb]. apply Z.leb_le in H1.
        destruct (q <? dst + k) eqn:H2.
        -- replace (q <? dst + (k + 1)) with true; [reflexivity |].
           symmetry. apply Z.ltb_lt. apply Z.ltb_lt in H2. lia.
        -- replace (q <? dst + (k + 1)) with false; [reflexivity |].
           symmetry. apply Z.ltb_ge. apply Z.ltb_ge in H2. lia.
Qed.

(** The value of [store_block_spec] inside and outside the block. *)
Lemma store_block_inside (nf dst : Z) (f : mem -> Z -> double) (M : mem)
    (i : Z) :
  (forall Mk i, 0 <= i < nf ->
     (forall p, p < dst \/ dst + i <= p -> Mk p = M p) -> f Mk i = f M i) ->
  0 <= i < nf ->
  for_lt 0 nf (fun i M => upd M (dst + i) (f M i)) M (dst + i) = f M i.
Proof.
  intros Hf Hi. rewrite store_block_spec by exact Hf.
  replace (dst <=? dst + i) with true by (symmetry; apply Z.leb_le; lia).
  replace (dst + i <? dst + nf) with true by (symmetry; apply Z.ltb_lt; lia).
  cbn [andb]. f_equal. lia.
Qed.

Lemma store_block_outside (nf dst : Z) (f : mem -> Z -> double) (M : mem)
    (q : Z) :
  (forall Mk i, 0 <= i < nf ->
     (forall p, p < dst \/ dst + i <= p -> Mk p = M p) -> f Mk i = f M i) ->
  q < dst \/ dst + nf <= q ->
  for_lt 0 nf (fun i M => upd M (dst + i) (f M i)) M q = M q.
Proof.
  intros Hf Hq. rewrite store_block_spec by exact Hf.
  destruct (dst <=? q) eqn:H1; [| reflexivity].
  destruct (q <? dst + nf) eqn:H2; [| reflexivity].
  apply Z.leb_le in H1. apply Z.ltb_lt in H2. lia.
Qed.

Section Powers.

Variables (xs_all gridx nmx topl : Z) (x0xi dx : double) (M : mem).

Hypothesis nmx_nonneg : 0 <= nmx.
Hypothesis topl_nonneg : 0 <= topl.
Hypothesis gridx_apart :
  gridx + nmx <= xs_all \/ xs_all + (topl + 1) * nmx <= gridx.

(** The grid position [i], from the centre of the shell. *)
Let gx (i : Z) : double := (x0xi + of_int i * dx)%dbl.

Lemma powers_spec :
  let R := _cartesian_components_powers xs_all gridx nmx topl x0xi dx M in
  (forall i, 0 <= i < nmx -> R (gridx + i) = gx i) /\
  (forall l i, 0 <= l <= topl -> 0 <= i < nmx ->
     R (xs_all + l * nmx + i)
     = dtimes (Z.to_nat l) (M (xs_all + i)) (gx i)) /\
  (forall q, (q < gridx \/ gridx + nmx <= q) ->
             (q < xs_all + nmx \/ xs_all + (topl + 1) * nmx <= q) ->
     R q = M q).
Proof.
  cbv zeta. unfold _cartesian_components_powers.
  set (M1 := for_lt 0 nmx (fun i M0 =>
                upd M0 (gridx + i) (x0xi + of_int i * dx)%dbl) M).
  assert (HM1 : forall q, M1 q = if (gridx <=? q) && (q <? gridx + nmx)
                                 then gx (q - gridx) else M q).
  { intros q. unfold M1.
    apply (@store_block_spec nmx gridx (fun _ i => gx i) M).
    intros; reflexivity. }
  assert (Hg1 : forall i, 0 <= i < nmx -> M1 (gridx + i) = gx i).
  { intros i Hi. rewrite HM1.
    replace (gridx <=? gridx + i) with true by (symmetry; apply Z.leb_le; lia).
    replace (gridx + i <? gridx + nmx) with true
      by (symmetry; apply Z.ltb_lt; lia).
    cbn [andb]. f_equal. lia. }
  assert (Ho1 : forall q, q < gridx \/ gridx + nmx <= q -> M1 q = M q).
  { intros q Hq. rewrite HM1.
    destruct (gridx <=? q) eqn:H1; [| reflexivity].
    destruct (q <? gridx + nmx) eqn:H2; [| reflexivity].
    apply Z.leb_le in H1. apply Z.ltb_lt in H2. lia. }
  set (row := fun (l : Z) (M0 : mem) =>
    for_lt 0 nmx (fun i M0 =>
      upd M0 (xs_all + (l - 1) * nmx + nmx + i)
          (M0 (xs_all + (l - 1) * nmx + i)%Z * M0 (gridx + i)%Z)%dbl) M0).
  change (for_le 1 topl row M1) with (for_lt 1 (topl + 1) row M1).
  pose (P := fun (k : Z) (Mk : mem) =>
    (forall i, 0 <= i < nmx -> Mk (gridx + i) = gx i) /\
    (forall l i, 0 <= l < k -> 0 <= i < nmx ->
       Mk (xs_all + l * nmx + i)
       = dtimes (Z.to_nat l) (M (xs_all + i)) (gx i)) /\
    (forall q, (q < gridx \/ gridx + nmx <= q) ->
               (q < xs_all + nmx \/ xs_all + k * nmx <= q) -> Mk q = M q)).
  assert (HP : P (topl + 1) (for_lt 1 (topl + 1) row M1)).
  { apply for_lt_invariant; [lia | |].
    - split; [exact Hg1 | split].
      + intros l i Hl Hi. replace l with 0 by lia.
        cbn [Z.to_nat dtimes]. rewrite Z.mul_0_l, Z.add_0_r.
        apply Ho1. nia.
      + intros q Hq _. apply Ho1. exact Hq.
    - intros k Mk Hk (Hg & Hrows & Hfr).
      assert (Tk : k * nmx <= topl * nmx)
        by (apply Z.mul_le_mono_nonneg_r; lia).
      assert (Tk0 : 0 <= (k - 1) * nmx)
        by (apply Z.mul_nonneg_nonneg; lia).
      assert (Hf : forall Mj i, 0 <= i < nmx ->
                (forall p, p < xs_all + (k - 1) * nmx + nmx
                           \/ xs_all + (k - 1) * nmx + nmx + i <= p ->
                   Mj p = Mk p) ->
                (Mj (xs_all + (k - 1) * nmx + i)%Z * Mj (gridx + i)%Z)%dbl
                = (Mk (xs_all + (k - 1) * nmx + i)%Z * Mk (gridx + i)%Z)%dbl).
      { intros Mj i Hi Hag. rewrite !Hag by lia. reflexivity. }
      pose proof (@store_block_spec nmx (xs_all + (k - 1) * nmx + nmx)
                    (fun M0 i => (M0 (xs_all + (k - 1) * nmx + i)%Z
                                  * M0 (gridx + i)%Z)%dbl) Mk Hf) as Hrow.
      unfold row.
      split; [| split].
      + intros i Hi. rewrite Hrow.
        destruct (xs_all + (k - 1) * nmx + nmx <=? gridx + i) eqn:H1;
          [| apply Hg; exact Hi].
        destruct (gridx + i <? xs_all + (k - 1) * nmx + nmx + nmx) eqn:H2;
          [| apply Hg; exact Hi].
        apply Z.leb_le in H1. apply Z.ltb_lt in H2. lia.
      + intros l i Hl Hi. rewrite Hrow.
        destruct (Z.eq_dec l k) as [-> | Hne].
        * replace (xs_all + (k - 1) * nmx + nmx <=? xs_all + k * nmx + i)
            with true by (symmetry; apply Z.leb_le; lia).
          replace (xs_all + k * nmx + i <? xs_all + (k - 1) * nmx + nmx + nmx)
            with true by (symmetry; apply Z.ltb_lt; lia).
          cbn [andb].
          replace (xs_all + k * nmx + i - (xs_all + (k - 1) * nmx + nmx))
            with i by lia.
          rewrite Hrows, Hg by lia.
          replace (Z.to_nat k) with (Datatypes.S (Z.to_nat (k - 1))) by lia.
          reflexivity.
        * assert ((l + 1) * nmx <= k * nmx)
            by (apply Z.mul_le_mono_nonneg_r; lia).
          replace (xs_all + l * nmx + i <? xs_all + (k - 1) * nmx + nmx + nmx)
            with true by (symmetry; apply Z.ltb_lt; lia).
          replace (xs_all + (k - 1) * nmx + nmx <=? xs_all + l * nmx + i)
            with false by (symmetry; apply Z.leb_gt; lia).
          cbn [andb]. apply Hrows; lia.
      + intros q Hq1 Hq2. rewrite Hrow.
        destruct (xs_all + (k - 1) * nmx + nmx <=? q) eqn:H1;
          [| apply Hfr; [exact Hq1 |]; apply Z.leb_gt in H1; lia].
        destruct (q <? xs_all + (k - 1) * nmx + nmx + nmx) eqn:H2;
          [| apply Hfr; [exact Hq1 |]; apply Z.ltb_ge in H2; lia].
        apply Z.leb_le in H1. apply Z.ltb_lt in H2. lia. }
  destruct HP as (H1 & H2 & H3). split; [exact H1 | split].
  - intros l i Hl Hi. apply H2; lia.
  - intros q Hq1 Hq2. apply H3; [exact Hq1 | lia].
Qed.

End Powers.

Lemma in_block_true (p n q : Z) :
  p <= q < p + n -> (p <=? q) && (q <? p + n) = true.
Proof.
  intros H. apply andb_true_iff. split; [apply Z.leb_le | apply Z.ltb_lt]; lia.
Qed.

Lemma in_block_false (p n q : Z) :
  q < p \/ p + n <= q -> (p <=? q) && (q <? p + n) = false.
Proof.
  intros H. apply andb_false_iff.
  destruct H; [left; apply Z.leb_gt | right; apply Z.ltb_ge]; lia.
Qed.

Lemma image_sum_ext (M1 M2 : mem) (row n i : Z) (acc : double) (lo hi : Z) :
  (forall m, lo <= m < hi -> M1 (row + m * n + i) = M2 (row + m * n + i)) ->
  image_sum M1 row n i acc lo hi = image_sum M2 row n i acc lo hi.
Proof.
  intros H. unfold image_sum. apply for_lt_ext.
  intros m t Hm. rewrite H by exact Hm. reflexivity.
Qed.

Section FoldImages.

Variables (n nimg : Z).

Hypothesis n_nonneg : 0 <= n.

(** The loop over the images [m = 1 .. nimg-1] for one power: the block
    at [dst] gathers the blocks of the row at [row]. *)
Lemma fold_images_row (dst row : Z) (M : mem) :
  dst + n <= row \/ row + Z.max nimg 1 * n <= dst ->
  forall q,
    for_lt 1 nimg (fun m M0 =>
      for_lt 0 n (fun i M0 =>
        upd M0 (dst + i) (M0 (dst + i)%Z + M0 (row + m * n + i)%Z)%dbl) M0) M q
    = if (dst <=? q) && (q <? dst + n)
      then image_sum M row n (q - dst) (M q) 1 nimg
      else M q.
Proof.
  intros Hdis.
  set (body := fun (m : Z) (M0 : mem) =>
    for_lt 0 n (fun i M0 =>
      upd M0 (dst + i) (M0 (dst + i)%Z + M0 (row + m * n + i)%Z)%dbl) M0).
  destruct (Z.le_gt_cases nimg 1) as [Hle | Hgt].
  - intros q. rewrite for_lt_empty by lia. unfold image_sum.
    rewrite for_lt_empty by lia. destruct ((dst <=? q) && (q <? dst + n));
      reflexivity.
  - pose (P := fun (k : Z) (Mk : mem) =>
      forall q, Mk q = if (dst <=? q) && (q <? dst + n)
                       then image_sum M row n (q - dst) (M q) 1 k
                       else M q).
    apply (@for_lt_invariant _ P); [lia | |].
    + intros q. unfold image_sum. rewrite for_lt_empty by lia.
      destruct ((dst <=? q) && (q <? dst + n)); reflexivity.
    + intros k Mk Hk HPk q. unfold body.
      assert (T1 : (k + 1) * n <= Z.max nimg 1 * n)
        by (apply Z.mul_le_mono_nonneg_r; lia).
      assert (T2 : 1 * n <= k * n)
        by (apply Z.mul_le_mono_nonneg_r; lia).
      pose proof (@combine_block_spec dadd n dst (row + k * n) Mk q
                    ltac:(lia)) as E.
      cbv beta in E.
      replace (fun (i : Z) (M0 : mem) =>
                 upd M0 (dst + i)
                     (M0 (dst + i)%Z + M0 (row + k * n + i)%Z)%dbl)
        with (fun (i : Z) (M0 : mem) =>
                 upd M0 (dst + i)
                     (dadd (M0 (dst + i)) (M0 (row + k * n + i))))
        by reflexivity.
      rewrite E.
      destruct ((dst <=? q) && (q <? dst + n)) eqn:Hin.
      * apply andb_true_iff in Hin. destruct Hin as [H1 H2].
        apply Z.leb_le in H1. apply Z.ltb_lt in H2.
        rewrite (HPk q), (HPk (row + k * n + (q - dst))).
        rewrite in_block_true by lia.
        rewrite in_block_false by lia.
        unfold image_sum. rewrite for_lt_snoc by lia. reflexivity.
      * rewrite (HPk q), Hin. reflexivity.
Qed.

Variables (xs_exp xs_all topl : Z) (M : mem).

Hypothesis nimg_pos : 1 <= nimg.
Hypothesis topl_nonneg : 0 <= topl.
Hypothesis tables_apart :
  xs_exp + (topl + 1) * n <= xs_all
  \/ xs_all + (topl + 1) * (nimg * n) <= xs_exp.

Lemma fold_spec :
  let nmx := nimg * n in
  let R := _cartesian_components_fold xs_exp xs_all n nimg nmx topl M in
  (forall i, 0 <= i < n ->
     R (xs_exp + i)
     = if topl =? 0
       then image_sum M xs_all n i (M (xs_all + i)) 1 nimg
       else M (xs_all + topl * nmx + i)) /\
  (forall l i, 1 <= l <= topl -> 0 <= i < n ->
     R (xs_exp + l * n + i)
     = image_sum M (xs_all + l * nmx) n i (M (xs_exp + l * n + i)) 1 nimg) /\
  (forall q, q < xs_exp \/ xs_exp + (topl + 1) * n <= q -> R q = M q).
Proof.
  intros nmx R. subst R. unfold _cartesian_components_fold.
  set (body := fun (l : Z) (M0 : mem) =>
    let px0 := xs_all + l * nmx in
    let M1 := for_lt 0 n (fun i M1 => upd M1 (xs_exp + i) (M1 (px0 + i)%Z)) M0 in
    for_lt 1 nimg (fun m M1 =>
      let px1 := xs_all + l * nmx + m * n in
      for_lt 0 n (fun i M1 =>
        upd M1 (xs_exp + l * n + i)
            (M1 (xs_exp + l * n + i)%Z + M1 (px1 + i)%Z)%dbl) M1) M1).
  change (for_le 0 topl body M) with (for_lt 0 (topl + 1) body M).
  assert (Hnmx : n <= nmx).
  { unfold nmx. replace n with (1 * n) at 1 by lia.
    apply Z.mul_le_mono_nonneg_r; lia. }
  pose (P := fun (k : Z) (Mk : mem) =>
    (forall q, q < xs_exp \/ xs_exp + (topl + 1) * n <= q -> Mk q = M q) /\
    (forall q, xs_exp + Z.max k 1 * n <= q -> Mk q = M q) /\
    (k = 0 -> forall q, Mk q = M q) /\
    (1 <= k -> forall i, 0 <= i < n ->
       Mk (xs_exp + i)
       = if k - 1 =? 0
         then image_sum M xs_all n i (M (xs_all + i)) 1 nimg
         else M (xs_all + (k - 1) * nmx + i)) /\
    (forall l i, 1 <= l < k -> 0 <= i < n ->
       Mk (xs_exp + l * n + i)
       = image_sum M (xs_all + l * nmx) n i (M (xs_exp + l * n + i)) 1 nimg)).
  assert (HP : P (topl + 1) (for_lt 0 (topl + 1) body M)).
  { apply for_lt_invariant; [lia | |].
    - unfold P. repeat split; try reflexivity; intros; lia.
    - intros k Mk Hk (Hfr & Hfut & Hzero & Hrow0 & Hrows).
      assert (Tk : (k + 1) * nmx <= (topl + 1) * nmx)
        by (apply Z.mul_le_mono_nonneg_r; lia).
      assert (Tk0 : 0 <= k * nmx) by (apply Z.mul_nonneg_nonneg; lia).
      assert (Tn : (k + 1) * n <= (topl + 1) * n)
        by (apply Z.mul_le_mono_nonneg_r; lia).
      assert (Tn0 : 0 <= k * n) by (apply Z.mul_nonneg_nonneg; lia).
      assert (Tn1 : 0 <= topl * n) by (apply Z.mul_nonneg_nonneg; lia).
      assert (Tm : forall m, 1 <= m < nimg -> (m + 1) * n <= nmx)
        by (intros m Hm; unfold nmx; apply Z.mul_le_mono_nonneg_r; lia).
      assert (Tm0 : forall m, 1 <= m -> n <= m * n)
        by (intros m Hm; replace n with (1 * n) at 1 by lia;
            apply Z.mul_le_mono_nonneg_r; lia).
      (* the memory on the rows of [xs_all] is the one of the start *)
      assert (Hsrc : forall q, xs_all <= q < xs_all + (topl + 1) * nmx ->
                Mk q = M q).
      { intros q Hq. apply Hfr. fold nmx in tables_apart. lia. }
      unfold body. cbv zeta.
      set (Ma := for_lt 0 n (fun i M1 =>
                   upd M1 (xs_exp + i) (M1 (xs_all + k * nmx + i)%Z)) Mk).
      assert (HMa : forall q, Ma q = if (xs_exp <=? q) && (q <? xs_exp + n)
                                     then Mk (xs_all + k * nmx + (q - xs_exp))
                                     else Mk q).
      { intros q. unfold Ma.
        apply (@store_block_spec n xs_exp
                 (fun M1 i => M1 (xs_all + k * nmx + i)) Mk).
        intros Mj i Hi Hag. apply Hag. fold nmx in tables_apart. lia. }
      pose proof (@fold_images_row (xs_exp + k * n) (xs_all + k * nmx) Ma)
        as Hb.
      replace (fun (m : Z) (M1 : mem) =>
                 for_lt 0 n (fun i M2 =>
                   upd M2 (xs_exp + k * n + i)
                       (M2 (xs_exp + k * n + i)%Z
                        + M2 (xs_all + k * nmx + m * n + i)%Z)%dbl) M1)
        with (fun (m : Z) (M0 : mem) =>
                 for_lt 0 n (fun i M0 =>
                   upd M0 (xs_exp + k * n + i)
                       (M0 (xs_exp + k * n + i)%Z
                        + M0 (xs_all + k * nmx + m * n + i)%Z)%dbl) M0)
        by reflexivity.
      assert (Hd : xs_exp + k * n + n <= xs_all + k * nmx
                   \/ xs_all + k * nmx + Z.max nimg 1 * n <= xs_exp + k * n).
      { fold nmx in tables_apart. replace (Z.max nimg 1) with nimg by lia.
        fold nmx. lia. }
      specialize (Hb Hd).
      set (Mb := for_lt 1 nimg (fun m M0 =>
                   for_lt 0 n (fun i M0 =>
                     upd M0 (xs_exp + k * n + i)
                         (M0 (xs_exp + k * n + i)%Z
                          + M0 (xs_all + k * nmx + m * n + i)%Z)%dbl) M0) Ma)
        in *.
      (* the sums of the images read the rows of [xs_all] *)
      assert (Hsum : forall i acc, 0 <= i < n ->
                image_sum Ma (xs_all + k * nmx) n i acc 1 nimg
                = image_sum M (xs_all + k * nmx) n i acc 1 nimg).
      { intros i acc Hi. apply image_sum_ext. intros m Hm.
        pose proof (Tm m Hm). pose proof (Tm0 m ltac:(lia)).
        rewrite HMa, in_block_false by (fold nmx in tables_apart; lia).
        apply Hsrc. lia. }
      unfold P. split; [| split; [| split; [| split]]].
      + intros q Hq. rewrite Hb, in_block_false by lia.
        rewrite HMa, in_block_false by lia. apply Hfr; exact Hq.
      + intros q Hq.
        assert (Z.max k 1 * n <= Z.max (k + 1) 1 * n)
          by (apply Z.mul_le_mono_nonneg_r; lia).
        assert (n <= Z.max (k + 1) 1 * n)
          by (replace n with (1 * n) at 1 by lia;
              apply Z.mul_le_mono_nonneg_r; lia).
        assert ((k + 1) * n <= Z.max (k + 1) 1 * n)
          by (apply Z.mul_le_mono_nonneg_r; lia).
        rewrite Hb, in_block_false by lia.
        rewrite HMa, in_block_false by lia. apply Hfut. lia.
      + intros Hk0. lia.
      + intros _ i Hi. replace (k + 1 - 1) with k by lia.
        destruct (Z.eq_dec k 0) as [-> | Hk1].
        * cbn [Z.eqb]. rewrite Hb.
          rewrite in_block_true by lia.
          replace (xs_exp + i - (xs_exp + 0 * n)) with i by lia.
          rewrite HMa, in_block_true by lia.
          replace (xs_exp + i - xs_exp) with i by lia.
          rewrite Hsum by exact Hi.
          rewrite Hsrc by lia.
          replace (xs_all + 0 * nmx) with xs_all by lia. reflexivity.
        * replace (k =? 0) with false by (symmetry; apply Z.eqb_neq; exact Hk1).
          assert (n <= k * n)
            by (replace n with (1 * n) at 1 by lia;
                apply Z.mul_le_mono_nonneg_r; lia).
          rewrite Hb, in_block_false by lia.
          rewrite HMa, in_block_true by lia.
          replace (xs_exp + i - xs_exp) with i by lia.
          apply Hsrc. lia.
      + intros l i Hl Hi.
        destruct (Z.eq_dec l k) as [-> | Hne].
        * assert (n <= k * n)
            by (replace n with (1 * n) at 1 by lia;
                apply Z.mul_le_mono_nonneg_r; lia).
          rewrite Hb, in_block_true by lia.
          replace (xs_exp + k * n + i - (xs_exp + k * n)) with i by lia.
          rewrite Hsum by exact Hi. f_equal.
          rewrite HMa, in_block_false by lia.
          apply Hfut. replace (Z.max k 1) with k by lia. lia.
        * assert ((l + 1) * n <= k * n)
            by (apply Z.mul_le_mono_nonneg_r; lia).
          assert (n <= l * n)
            by (replace n with (1 * n) at 1 by lia;
                apply Z.mul_le_mono_nonneg_r; lia).
          rewrite Hb, in_block_false by lia.
          rewrite HMa, in_block_false by lia.
          apply Hrows; lia. }
  destruct HP as (Hfr & _ & _ & Hrow0 & Hrows).
  split; [| split].
  - intros i Hi. specialize (Hrow0 ltac:(lia) i Hi).
    replace (topl + 1 - 1) with topl in Hrow0 by lia. exact Hrow0.
  - intros l i Hl Hi. apply Hrows; lia.
  - exact Hfr.
Qed.

End FoldImages.

(** X22: when the scratch row [gridx] does not overlap the rows of the
    table, the power rows are built one from the other: [gridx[i]] holds
    [x0xi + i*dx], and the element [i] of the row of the power [l] is the
    element [i] of the row 0 multiplied [l] times by [gridx[i]]; the
    row 0 and everything outside [gridx] and the rows 1..topl stay as
    they were. *)
Theorem cartesian_components_power_rows (xs_all gridx nmx topl : Z)
    (x0xi dx : double) (M : mem) :
  0 <= nmx -> 0 <= topl ->
  gridx + nmx <= xs_all \/ xs_all + (topl + 1) * nmx <= gridx ->
  let R := _cartesian_components_powers xs_all gridx nmx topl x0xi dx M in
  (forall i, 0 <= i < nmx -> R (gridx + i) = (x0xi + of_int i * dx)%dbl) /\
  (forall l i, 0 <= l <= topl -> 0 <= i < nmx ->
     R (xs_all + l * nmx + i)
     = dtimes (Z.to_nat l) (M (xs_all + i)) (x0xi + of_int i * dx)%dbl) /\
  (forall q, (q < gridx \/ gridx + nmx <= q) ->
             (q < xs_all + nmx \/ xs_all + (topl + 1) * nmx <= q) ->
     R q = M q).
Proof.
  intros H1 H2 H3.
  exact (@powers_spec xs_all gridx nmx topl x0xi dx M H1 H2 H3).
Qed.

Lemma cartesian_components_power_rows_witness :
  let M := fun _ : Z => Fin 1 in
  let R := _cartesian_components_powers 0 10 2 1 (Fin 0) (Fin 1) M in
  (forall i, 0 <= i < 2 -> R (10 + i) = (Fin 0 + of_int i * Fin 1)%dbl) /\
  (forall l i, 0 <= l <= 1 -> 0 <= i < 2 ->
     R (0 + l * 2 + i)
     = dtimes (Z.to_nat l) (M (0 + i)) (Fin 0 + of_int i * Fin 1)%dbl) /\
  (forall q, (q < 10 \/ 10 + 2 <= q) ->
             (q < 0 + 2 \/ 0 + (1 + 1) * 2 <= q) ->
     R q = M q).
Proof.
  cbv zeta.
  apply (@cartesian_components_power_rows 0 10 2 1 (Fin 0) (Fin 1)
           (fun _ => Fin 1)); lia.
Defined.

(** X23: what the loop over the images leaves in the cell table of a
    periodic axis, for tables that do not overlap and at least one
    image.  The row of the power [l >= 1] is its content from before the
    loop plus the images [m = 1 .. nimg-1] of the row [l] of [xs_all]: the
    image 0 is not part of it.  The row 0 holds the sum of all images of
    the row 0 of [xs_all] when [topl = 0], and the image 0 of the row
    [topl] when [topl >= 1], because line 181 stores the image 0 of
    every power at [xs_exp[i]].  Nothing outside the cell table is
    changed. *)
Theorem cartesian_components_fold_rows (n nimg xs_exp xs_all topl : Z)
    (M : mem) :
  0 <= n -> 1 <= nimg -> 0 <= topl ->
  xs_exp + (topl + 1) * n <= xs_all
  \/ xs_all + (topl + 1) * (nimg * n) <= xs_exp ->
  let nmx := nimg * n in
  let R := _cartesian_components_fold xs_exp xs_all n nimg nmx topl M in
  (forall i, 0 <= i < n ->
     R (xs_exp + i)
     = if topl =? 0
       then image_sum M xs_all n i (M (xs_all + i)) 1 nimg
       else M (xs_all + topl * nmx + i)) /\
  (forall l i, 1 <= l <= topl -> 0 <= i < n ->
     R (xs_exp + l * n + i)
     = image_sum M (xs_all + l * nmx) n i (M (xs_exp + l * n + i)) 1 nimg) /\
  (forall q, q < xs_exp \/ xs_exp + (topl + 1) * n <= q -> R q = M q).
Proof.
  intros H1 H2 H3 H4.
  exact (@fold_spec n nimg H1 xs_exp xs_all topl M H2 H3 H4).
Qed.

Lemma cartesian_components_fold_rows_witness :
  let M := fun _ : Z => Fin 1 in
  let nmx := 2 * 2 in
  let R := _cartesian_components_fold 0 10 2 2 nmx 1 M in
  (forall i, 0 <= i < 2 ->
     R (0 + i)
     = if 1 =? 0
       then image_sum M 10 2 i (M (10 + i)) 1 2
       else M (10 + 1 * nmx + i)) /\
  (forall l i, 1 <= l <= 1 -> 0 <= i < 2 ->
     R (0 + l * 2 + i)
     = image_sum M (10 + l * nmx) 2 i (M (0 + l * 2 + i)) 1 2) /\
  (forall q, q < 0 \/ 0 + (1 + 1) * 2 <= q -> R q = M q).
Proof.
  cbv zeta.
  apply (@cartesian_components_fold_rows 2 2 0 10 1 (fun _ => Fin 1)); lia.
Defined.

(** ** The tables of one axis as a whole *)

Lemma slices_open_images (n : Z) (x_frac cutoff h : double) (s : axis_slice) :
  _cartesian_components_slices false n x_frac cutoff h = Some s ->
  nimg0 s = 0 /\ nimg1 s = 1.
Proof.
  unfold _cartesian_components_slices. cbv zeta.
  destruct (to_int (dfloor _)); [| discriminate].
  destruct (to_int (dceil _)); [| discriminate].
  intros H. injection H as <-. split; reflexivity.
Qed.

Lemma images_added_rows (M : mem) (row n i nimg : Z) (f : Z -> double) :
  0 <= n -> 0 <= i < n ->
  (forall j, 0 <= j < nimg * n -> M (row + j) = f j) ->
  1 <= nimg ->
  image_sum M row n i (M (row + i)) 1 nimg = images_added f n i nimg.
Proof.
  intros Hn Hi Hf Hnimg. unfold image_sum, images_added.
  assert (T0 : n <= nimg * n).
  { replace n with (1 * n) at 1 by lia.
    apply Z.mul_le_mono_nonneg_r; lia. }
  rewrite (Hf i) by lia.
  apply for_lt_ext. intros m acc Hm.
  assert (T1 : 0 <= m * n) by (apply Z.mul_nonneg_nonneg; lia).
  assert (T2 : (m + 1) * n <= nimg * n)
    by (apply Z.mul_le_mono_nonneg_r; lia).
  replace (row + m * n + i) with (row + (m * n + i)) by lia.
  rewrite Hf by lia. reflexivity.
Qed.

Section AxisTables.

Variables (xs_exp : Z) (a0 xi xij aij : double) (n : Z)
          (x_frac cutoff h : double) (cache : Z) (M : mem).

Hypothesis n_pos : 0 < n.

(** [_cartesian_components] on an axis that is not periodic: the table,
    and the memory that the call leaves alone. *)
Lemma open_axis_spec (topl : Z) (s : axis_slice) (g : Z) :
  0 <= topl ->
  cache + n <= xs_exp \/ xs_exp + (topl + 1) * n <= cache ->
  _cartesian_components_slices false n x_frac cutoff h = Some s ->
  to_int (x_frac * of_int n)%dbl = Some g ->
  exists M' : mem,
    _cartesian_components xs_exp a0 xi xij aij false n topl
      x_frac cutoff h cache M
    = Some (s, M') /\
    (forall l i, 0 <= l <= topl -> 0 <= i < n ->
       M' (xs_exp + l * n + i) = open_axis_table a0 xi xij aij n g l i) /\
    (0 <= g < n ->
     forall q, q < xs_exp \/ xs_exp + (topl + 1) * n <= q ->
               q < cache \/ cache + n <= q ->
       M' q = M q).
Proof.
  intros Htopl Hapart Hs Hg. unfold _cartesian_components.
  rewrite Hs, Hg. cbv zeta.
  destruct (@slices_open_images n x_frac cutoff h s Hs) as [E0 E1]. rewrite E0, E1.
  change (1 - 0) with 1. rewrite Z.mul_1_l.
  set (dx := (a0 / of_int n)%dbl).
  set (x0xij := (a0 * of_int 0 + dx * of_int g - xij)%dbl).
  pose proof (@gaussians_spec aij x0xij dx xs_exp g n M) as Hgs.
  cbv zeta in Hgs. destruct Hgs as [Hgv Hgf].
  set (M1 := _cartesian_components_gaussians xs_exp g n aij x0xij dx M) in *.
  assert (Tn : n <= (topl + 1) * n).
  { replace n with (1 * n) at 1 by lia.
    apply Z.mul_le_mono_nonneg_r; lia. }
  destruct (0 <? topl) eqn:Ht.
  - apply Z.ltb_lt in Ht.
    pose proof (@powers_spec xs_exp cache n topl (a0 * of_int 0 - xi)%dbl dx
                  M1 ltac:(lia) Htopl Hapart) as Hp.
    cbv zeta in Hp. destruct Hp as (_ & Hrows & Hpf).
    eexists. split; [reflexivity |]. split.
    + intros l i Hl Hi. rewrite Hrows, Hgv by lia. reflexivity.
    + intros Hgr q Hq1 Hq2. rewrite Hpf by lia. apply Hgf. lia.
  - apply Z.ltb_ge in Ht.
    eexists. split; [reflexivity |]. split.
    + intros l i Hl Hi. replace l with 0 by lia.
      rewrite Z.mul_0_l, Z.add_0_r, Hgv by lia. reflexivity.
    + intros Hgr q Hq1 Hq2. apply Hgf. lia.
Qed.

(** X24: the table of an axis that is not periodic, in the operations of
    the code.  When the conversions to [int] are defined (finite
    arguments inside the range of [int]) and the scratch
    row at [cache] does not overlap the table, the call returns with one
    image, and the element [i] of the row of the power [l] is the
    element [i] of the recurrence of the Gaussians, started at
    [g = (int)(x_frac * n)] with [x0xij = g*dx - xij], multiplied [l]
    times by the grid position [(0 - xi) + i*dx], where [dx = a / n];
    this for every grid point of the cell and every power up to [topl].
    When [g] is a grid point of the cell, nothing outside the table and
    the scratch row is changed. *)
Theorem cartesian_components_open_axis (topl : Z) (s : axis_slice) (g : Z) :
  0 <= topl ->
  cache + n <= xs_exp \/ xs_exp + (topl + 1) * n <= cache ->
  conversions_defined false n x_frac cutoff h ->
  _cartesian_components_slices false n x_frac cutoff h = Some s ->
  to_int (x_frac * of_int n)%dbl = Some g ->
  exists M' : mem,
    _cartesian_components xs_exp a0 xi xij aij false n topl
      x_frac cutoff h cache M
    = Some (s, M') /\
    nimg s = 1 /\
    (forall l i, 0 <= l <= topl -> 0 <= i < n ->
       M' (xs_exp + l * n + i) = open_axis_table a0 xi xij aij n g l i) /\
    (0 <= g < n ->
     forall q, q < xs_exp \/ xs_exp + (topl + 1) * n <= q ->
               q < cache \/ cache + n <= q ->
       M' q = M q).
Proof.
  intros Htopl Hapart _ Hs Hg.
  destruct (@open_axis_spec topl s g Htopl Hapart Hs Hg) as (M' & E & Hv & Hf).
  exists M'. split; [exact E |]. split; [| split; assumption].
  destruct (@slices_open_images n x_frac cutoff h s Hs) as [E0 E1]. unfold nimg. lia.
Qed.

(** X25: the table of a periodic axis for [topl = 0], in the operations
    of the code.  When the conversions to [int] are defined (finite
    arguments inside the range of [int]), there is at
    least one image and the cell table does not overlap the row [xs_all]
    of all images, the element [i] of the cell table is the sum, image
    after image, of the elements [m*n + i] of the recurrence of the
    Gaussians over the [nimg * n] grid points of the images, started at
    the index [g = (int)(x_frac * n)] of that row with
    [x0xij = a*nimg0 + dx*g - xij].  When [g] is an index of the row,
    nothing outside the cell table and the row is changed. *)
Theorem cartesian_components_periodic_axis (s : axis_slice) (g : Z) :
  conversions_defined true n x_frac cutoff h ->
  _cartesian_components_slices true n x_frac cutoff h = Some s ->
  to_int (x_frac * of_int n)%dbl = Some g ->
  1 <= nimg s ->
  xs_exp + n <= cache + nimg s * n
  \/ cache + nimg s * n + nimg s * n <= xs_exp ->
  let dx := (a0 / of_int n)%dbl in
  let x0xij := (a0 * of_int (nimg0 s) + dx * of_int g - xij)%dbl in
  exists M' : mem,
    _cartesian_components xs_exp a0 xi xij aij true n 0
      x_frac cutoff h cache M
    = Some (s, M') /\
    (forall i, 0 <= i < n ->
       M' (xs_exp + i)
       = images_added (gaussian_row aij x0xij dx g) n i (nimg s)) /\
    (0 <= g < nimg s * n ->
     forall q, q < xs_exp \/ xs_exp + n <= q ->
               q < cache + nimg s * n
               \/ cache + nimg s * n + nimg s * n <= q ->
       M' q = M q).
Proof.
  intros _ Hs Hg Hnimg Hapart dx x0xij. unfold _cartesian_components.
  rewrite Hs, Hg. cbv zeta. fold (nimg s). fold dx. fold x0xij.
  set (nmx := nimg s * n) in *.
  pose proof (@gaussians_spec aij x0xij dx (cache + nmx) g nmx M) as Hgs.
  cbv zeta in Hgs. destruct Hgs as [Hgv Hgf].
  set (M1 := _cartesian_components_gaussians (cache + nmx) g nmx
               aij x0xij dx M) in *.
  change (0 <? 0) with false. cbv iota.
  pose proof (@fold_spec n (nimg s) ltac:(lia) xs_exp (cache + nmx) 0 M1
                Hnimg ltac:(lia)) as Hfold.
  cbv zeta in Hfold. fold nmx in Hfold.
  destruct (Hfold ltac:(lia)) as (Hrow0 & _ & Hff).
  eexists. split; [reflexivity |]. split.
  - intros i Hi. rewrite Hrow0 by exact Hi. cbn [Z.eqb].
    apply images_added_rows; [lia | exact Hi | | exact Hnimg].
    intros j Hj. apply Hgv. fold nmx in Hj. lia.
  - intros Hgr q Hq1 Hq2. rewrite Hff by lia. apply Hgf. lia.
Qed.

End AxisTables.

Lemma slices_open_example :
  _cartesian_components_slices false 2 (Fin 0) (Fin 1) (Fin 1)
  = Some {| nimg0 := 0; nimg1 := 1; nx0 := 0; nx1 := 2 |}.
Proof.
  rewrite slices_value. cbv zeta. f_equal.
  replace (Zfloor ((0 - 1 * 1) * IZR 2)) with (-2)
    by (symmetry; apply Zfloor_eq; cbn; lra).
  replace (Zceil ((0 + 1 * 1) * IZR 2)) with 2
    by (symmetry; apply Zceil_eq; cbn; lra).
  reflexivity.
Qed.

Lemma slices_periodic_example :
  _cartesian_components_slices true 2 (Fin 0) (Fin 1) (Fin 1)
  = Some {| nimg0 := -1; nimg1 := 1; nx0 := 0; nx1 := 0 |}.
Proof.
  rewrite slices_value. cbv zeta.
  replace (Zfloor (0 - 1 * 1)) with (-1) by (symmetry; apply Zfloor_eq; lra).
  replace (Zceil (0 + 1 * 1)) with 1 by (symmetry; apply Zceil_eq; lra).
  replace (Zfloor ((0 - 1 * 1) * IZR 2)) with (-2)
    by (symmetry; apply Zfloor_eq; cbn; lra).
  replace (Zceil ((0 + 1 * 1) * IZR 2)) with 2
    by (symmetry; apply Zceil_eq; cbn; lra).
  reflexivity.
Qed.

Lemma conversions_defined_example (periodic : bool) :
  conversions_defined periodic 2 (Fin 0) (Fin 1) (Fin 1).
Proof.
  unfold conversions_defined, of_int. cbv zeta.
  cbn [dadd dsub dneg dmul dfloor dceil].
  replace (Zfloor (0 + - (1 * 1))) with (-1) by (symmetry; apply Zfloor_eq; lra).
  replace (Zceil (0 + 1 * 1)) with 1 by (symmetry; apply Zceil_eq; lra).
  replace (Zfloor ((0 + - (1 * 1)) * IZR 2)) with (-2)
    by (symmetry; apply Zfloor_eq; cbn; lra).
  replace (Zceil ((0 + 1 * 1) * IZR 2)) with 2
    by (symmetry; apply Zceil_eq; cbn; lra).
  replace (0 * IZR 2)%R with (IZR 0) by (cbn; lra).
  rewrite !to_int32_small by lia.
  repeat split; discriminate.
Qed.

Lemma to_int_zero_example : to_int (Fin 0 * of_int 2)%dbl = Some 0.
Proof.
  unfold of_int. cbn [dmul].
  replace (0 * IZR 2)%R with (IZR 0) by (cbn; lra).
  apply to_int_IZR.
Qed.

Lemma cartesian_components_open_axis_witness :
  exists M' : mem,
    _cartesian_components 0 (Fin 1) (Fin 0) (Fin 0) (Fin 1) false 2 1
      (Fin 0) (Fin 1) (Fin 1) 10 (fun _ => Fin 0)
    = Some ({| nimg0 := 0; nimg1 := 1; nx0 := 0; nx1 := 2 |}, M') /\
    nimg {| nimg0 := 0; nimg1 := 1; nx0 := 0; nx1 := 2 |} = 1 /\
    (forall l i, 0 <= l <= 1 -> 0 <= i < 2 ->
       M' (0 + l * 2 + i)
       = open_axis_table (Fin 1) (Fin 0) (Fin 0) (Fin 1) 2 0 l i) /\
    (0 <= 0 < 2 ->
     forall q, q < 0 \/ 0 + (1 + 1) * 2 <= q -> q < 10 \/ 10 + 2 <= q ->
       M' q = Fin 0).
Proof.
  apply (@cartesian_components_open_axis 0 (Fin 1) (Fin 0) (Fin 0) (Fin 1) 2
           (Fin 0) (Fin 1) (Fin 1) 10 (fun _ => Fin 0) ltac:(lia) 1
           {| nimg0 := 0; nimg1 := 1; nx0 := 0; nx1 := 2 |} 0).
  - lia.
  - lia.
  - exact (conversions_defined_example false).
  - exact slices_open_example.
  - exact to_int_zero_example.
Defined.

Lemma cartesian_components_periodic_axis_witness :
  let s := {| nimg0 := -1; nimg1 := 1; nx0 := 0; nx1 := 0 |} in
  let dx := (Fin 1 / of_int 2)%dbl in
  let x0xij := (Fin 1 * of_int (nimg0 s) + dx * of_int 0 - Fin 0)%dbl in
  exists M' : mem,
    _cartesian_components 0 (Fin 1) (Fin 0) (Fin 0) (Fin 1) true 2 0
      (Fin 0) (Fin 1) (Fin 1) 10 (fun _ => Fin 0)
    = Some (s, M') /\
    (forall i, 0 <= i < 2 ->
       M' (0 + i)
       = images_added (gaussian_row (Fin 1) x0xij dx 0) 2 i (nimg s)) /\
    (0 <= 0 < nimg s * 2 ->
     forall q, q < 0 \/ 0 + 2 <= q ->
               q < 10 + nimg s * 2 \/ 10 + nimg s * 2 + nimg s * 2 <= q ->
       M' q = Fin 0).
Proof.
  cbv zeta.
  apply (@cartesian_components_periodic_axis 0 (Fin 1) (Fin 0) (Fin 0)
           (Fin 1) 2 (Fin 0) (Fin 1) (Fin 1) 10 (fun _ => Fin 0) ltac:(lia)
           {| nimg0 := -1; nimg1 := 1; nx0 := 0; nx1 := 0 |} 0).
  - exact (conversions_defined_example true).
  - exact slices_periodic_example.
  - exact to_int_zero_example.
  - unfold nimg. cbn [nimg0 nimg1]. lia.
  - unfold nimg. cbn [nimg0 nimg1]. lia.
Defined.
(** ** The contraction engine as a whole *)

Lemma slices_open_in_mesh (n : Z) (x_frac cutoff h : double) (s : axis_slice) :
  0 <= n ->
  _cartesian_components_slices false n x_frac cutoff h = Some s ->
  0 <= nx0 s <= n /\ 0 <= nx1 s <= n.
Proof.
  intros Hn. unfold _cartesian_components_slices. cbv zeta.
  destruct (to_int (dfloor _)) as [v0 |]; [| discriminate].
  destruct (to_int (dceil _)) as [v1 |]; [| discriminate].
  intros H. injection H as <-. cbn [nx0 nx1].
  split; apply MAXz_MINz_clamp; exact Hn.
Qed.

Lemma zdot_values (M : mem) (pweightz pz lo hi : Z) (u v : Z -> double) :
  (forall i, lo <= i < hi ->
     M (pweightz + i) = u i /\ M (pz + i) = v i) ->
  zdot M pweightz pz lo hi
  = for_lt lo hi (fun i val => (val + u i * v i)%dbl) (Fin 0).
Proof.
  intros H. unfold zdot. apply for_lt_ext. intros i val Hi.
  destruct (H i Hi) as [-> ->]. reflexivity.
Qed.

Section OpenCell.

Variables (out floorl topl : Z) (ai aj fac log_prec : double)
          (dimension : Z) (G : grid) (cache : Z) (envs : CINTEnvVars)
          (M : mem).

(** The centres of the two shells and of the pair on the axis [k], and
    the cutoff radius, as lines 202-210 compute them. *)
Let ric (k : Z) : double := env envs (ri envs + k).
Let rjc (k : Z) : double := env envs (rj envs + k).
Let rij (k : Z) : double := ((ai * ric k + aj * rjc k) / (ai + aj))%dbl.
Let cutoff : double := gto_rcut (ai + aj)%dbl topl fac log_prec.

Let N := Z.of_nat (List.length (cart_triples floorl topl)).

Variables (sx sy sz : axis_slice) (gx gy gz : Z).

Hypothesis open_axes : dimension <= 0.
Hypothesis mesh_pos : 0 < mesh G 0 /\ 0 < mesh G 1 /\ 0 < mesh G 2.
Hypothesis topl_nonneg : 0 <= topl.
Hypothesis out_below_cache : out + N <= cache.
Hypothesis slice_x :
  _cartesian_components_slices false (mesh G 0)
    (rij 0 * lat_b G 0)%dbl cutoff (lat_b G 0) = Some sx.
Hypothesis slice_y :
  _cartesian_components_slices false (mesh G 1)
    (rij 1 * lat_b G 4)%dbl cutoff (lat_b G 4) = Some sy.
Hypothesis slice_z :
  _cartesian_components_slices false (mesh G 2)
    (rij 2 * lat_b G 8)%dbl cutoff (lat_b G 8) = Some sz.
Hypothesis nearest_x :
  to_int (rij 0 * lat_b G 0 * of_int (mesh G 0))%dbl = Some gx.
Hypothesis nearest_y :
  to_int (rij 1 * lat_b G 4 * of_int (mesh G 1))%dbl = Some gy.
Hypothesis nearest_z :
  to_int (rij 2 * lat_b G 8 * of_int (mesh G 2))%dbl = Some gz.
Hypothesis nearest_in_cell :
  0 <= gx < mesh G 0 /\ 0 <= gy < mesh G 1 /\ 0 <= gz < mesh G 2.
Hypothesis slices_ordered : nx0 sx <= nx1 sx /\ nx0 sy <= nx1 sy.

(** X26: [GTOnumint_3d_orth] on a lattice without periodic axes
    ([dimension <= 0]), in the operations of the code.  For a positive
    mesh and a result block below the cache, when the conversions to
    [int] of the three calls of [_cartesian_components] are defined
    (finite arguments inside the range of [int]), the
    grid point nearest to the centre of the pair is in the cell on every
    axis, and the grid slices of the x and y axes are ordered (every
    call of [dgemm_] has [K >= 0]): the call returns, and [out[n]] for
    the triple number [n], (lx, ly, lz), is the sum over the grid slice
    of the z axis of the products of the table of the z axis with the
    contraction of the y axis, itself the sum over the grid slice of the
    y axis of the products of the table of the y axis with [fac] times
    the sum over the grid slice of the x axis of the weights times the
    table of the x axis; the three tables are those of
    [_cartesian_components], recurrence and powers.  Nothing below [out]
    and nothing between the block and the cache changes. *)
Theorem GTOnumint_3d_orth_open_cell :
  conversions_defined false (mesh G 0) (rij 0 * lat_b G 0)%dbl cutoff
    (lat_b G 0) ->
  conversions_defined false (mesh G 1) (rij 1 * lat_b G 4)%dbl cutoff
    (lat_b G 4) ->
  conversions_defined false (mesh G 2) (rij 2 * lat_b G 8)%dbl cutoff
    (lat_b G 8) ->
  exists M' : mem,
    GTOnumint_3d_orth
      {| arg_out := out; arg_floorl := floorl; arg_topl := topl;
         arg_ai := ai; arg_aj := aj; arg_fac := fac;
         arg_log_prec := log_prec; arg_dimension := dimension;
         arg_grid := G; arg_cache := cache |} envs M
    = Some M' /\
    (forall n lx ly lz,
       nth_error (cart_triples floorl topl) n = Some (lx, ly, lz) ->
       M' (out + Z.of_nat n)
       = open_cell_value fac (mesh G) (weights G)
           (open_axis_table (lat_a G 0) (ric 0) (rij 0) (ai + aj)%dbl
                            (mesh G 0) gx)
           (open_axis_table (lat_a G 4) (ric 1) (rij 1) (ai + aj)%dbl
                            (mesh G 1) gy)
           (open_axis_table (lat_a G 8) (ric 2) (rij 2) (ai + aj)%dbl
                            (mesh G 2) gz)
           sx sy sz lx ly lz) /\
    (forall q, q < out \/ out + N <= q < cache -> M' q = M q).
Proof.
  intros _ _ _.
  destruct mesh_pos as (Hm0 & Hm1 & Hm2).
  destruct nearest_in_cell as (Hgx & Hgy & Hgz).
  destruct slices_ordered as (Hox & Hoy).
  unfold GTOnumint_3d_orth.
  cbn [arg_out arg_floorl arg_topl arg_ai arg_aj arg_fac arg_log_prec
       arg_dimension arg_grid arg_cache].
  cbv zeta.
  replace (1 <=? dimension) with false by (symmetry; apply Z.leb_gt; lia).
  replace (2 <=? dimension) with false by (symmetry; apply Z.leb_gt; lia).
  replace (3 <=? dimension) with false by (symmetry; apply Z.leb_gt; lia).
  fold (ric 0) (ric 1) (ric 2) (rjc 0) (rjc 1) (rjc 2).
  fold (rij 0) (rij 1) (rij 2). fold cutoff.
  set (L := GTOnumint_3d_orth_layout topl (mesh G) cache).
  set (m0 := mesh G 0) in *. set (m1 := mesh G 1) in *.
  set (m2 := mesh G 2) in *.
  assert (Hxs : xs_exp L = cache) by reflexivity.
  assert (Hys : ys_exp L = cache + (topl + 1) * m0) by reflexivity.
  assert (Hzs : zs_exp L = cache + (topl + 1) * m0 + (topl + 1) * m1)
    by reflexivity.
  assert (Hwy : weightyz L = zs_exp L + (topl + 1) * m2) by reflexivity.
  assert (Hwz : weightz L = weightyz L + (topl + 1) * (m1 * m2))
    by reflexivity.
  assert (S0 : m0 <= (topl + 1) * m0)
    by (replace m0 with (1 * m0) at 1 by lia;
        apply Z.mul_le_mono_nonneg_r; lia).
  assert (S1 : m1 <= (topl + 1) * m1)
    by (replace m1 with (1 * m1) at 1 by lia;
        apply Z.mul_le_mono_nonneg_r; lia).
  assert (S2 : m2 <= (topl + 1) * m2)
    by (replace m2 with (1 * m2) at 1 by lia;
        apply Z.mul_le_mono_nonneg_r; lia).
  assert (S3 : 0 < m1 * m2) by (apply Z.mul_pos_pos; lia).
  assert (S4 : m1 * m2 <= (topl + 1) * (m1 * m2))
    by (replace (m1 * m2) with (1 * (m1 * m2)) at 1 by lia;
        apply Z.mul_le_mono_nonneg_r; lia).
  destruct (@open_axis_spec (xs_exp L) (lat_a G 0) (ric 0) (rij 0)
              (ai + aj)%dbl m0 (rij 0 * lat_b G 0)%dbl cutoff (lat_b G 0)
              (zs_exp L + (topl + 1) * m2) M Hm0 topl sx gx
              topl_nonneg ltac:(lia) slice_x nearest_x)
    as (M1 & E1 & V1 & F1).
  rewrite E1.
  destruct (@open_axis_spec (ys_exp L) (lat_a G 4) (ric 1) (rij 1)
              (ai + aj)%dbl m1 (rij 1 * lat_b G 4)%dbl cutoff (lat_b G 4)
              (zs_exp L + (topl + 1) * m2) M1 Hm1 topl sy gy
              topl_nonneg ltac:(lia) slice_y nearest_y)
    as (M2 & E2 & V2 & F2).
  rewrite E2.
  destruct (@open_axis_spec (zs_exp L) (lat_a G 8) (ric 2) (rij 2)
              (ai + aj)%dbl m2 (rij 2 * lat_b G 8)%dbl cutoff (lat_b G 8)
              (zs_exp L + (topl + 1) * m2) M2 Hm2 topl sz gz
              topl_nonneg ltac:(lia) slice_z nearest_z)
    as (M3 & E3 & V3 & F3).
  rewrite E3.
  specialize (F1 Hgx). specialize (F2 Hgy). specialize (F3 Hgz).
  destruct (@slices_open_images m0 _ _ _ sx slice_x) as [Ix0 Ix1].
  destruct (@slices_open_images m1 _ _ _ sy slice_y) as [Iy0 Iy1].
  destruct (@slices_open_images m2 _ _ _ sz slice_z) as [Iz0 Iz1].
  unfold nimg. rewrite Ix0, Ix1, Iy0, Iy1, Iz0, Iz1. change (1 - 0) with 1.
  destruct (@slices_open_in_mesh m0 _ _ _ sx ltac:(lia) slice_x)
    as [Wx0 Wx1].
  destruct (@slices_open_in_mesh m1 _ _ _ sy ltac:(lia) slice_y)
    as [Wy0 Wy1].
  destruct (@slices_open_in_mesh m2 _ _ _ sz ltac:(lia) slice_z)
    as [Wz0 Wz1].
  set (X := open_axis_table (lat_a G 0) (ric 0) (rij 0) (ai + aj)%dbl m0 gx).
  set (Y := open_axis_table (lat_a G 4) (ric 1) (rij 1) (ai + aj)%dbl m1 gy).
  set (Zt := open_axis_table (lat_a G 8) (ric 2) (rij 2) (ai + aj)%dbl m2 gz).
  fold X in V1. fold Y in V2. fold Zt in V3.
  (* the three tables after the three calls *)
  assert (TX : forall l i, 0 <= l <= topl -> 0 <= i < m0 ->
            M3 (xs_exp L + l * m0 + i) = X l i).
  { intros l i Hl Hi.
    assert ((l + 1) * m0 <= (topl + 1) * m0)
      by (apply Z.mul_le_mono_nonneg_r; lia).
    assert (0 <= l * m0) by (apply Z.mul_nonneg_nonneg; lia).
    rewrite F3, F2 by lia. apply V1; assumption. }
  assert (TY : forall l i, 0 <= l <= topl -> 0 <= i < m1 ->
            M3 (ys_exp L + l * m1 + i) = Y l i).
  { intros l i Hl Hi.
    assert ((l + 1) * m1 <= (topl + 1) * m1)
      by (apply Z.mul_le_mono_nonneg_r; lia).
    assert (0 <= l * m1) by (apply Z.mul_nonneg_nonneg; lia).
    rewrite F3 by lia. apply V2; assumption. }
  assert (FM3 : forall q, q < cache -> M3 q = M q).
  { intros q Hq. rewrite F3, F2, F1 by lia. reflexivity. }
  eexists. split; [reflexivity |].
  (* the three stages *)
  set (W := weights G).
  set (M4 := GTOnumint_3d_orth_x fac topl (mesh G) W L 1 (nx0 sx) (nx1 sx) M3).
  set (M5 := GTOnumint_3d_orth_y topl (mesh G) L 1 (nx0 sy) (nx1 sy) M4).
  pose proof (@x_dgemm_block fac topl (mesh G) W cache M3 topl_nonneg
                ltac:(fold m0; lia) Hm1 Hm2 (nx0 sx) (nx1 sx) D0 M3
                ltac:(fold m0; lia) ltac:(reflexivity)) as HX.
  cbv zeta in HX. fold L m0 m1 m2 in HX.
  change (dgemm_NN_weights W (m1 * m2) (topl + 1) (nx1 sx - nx0 sx) fac
            (nx0 sx * (m1 * m2)) (m1 * m2) (xs_exp L + nx0 sx) m0 D0
            (weightyz L) (m1 * m2) M3) with M4 in HX.
  destruct HX as [HXo HXi].
  pose proof (@y_one_image_spec topl (mesh G) cache M4 topl_nonneg
                ltac:(fold m1; lia) Hm2 (nx0 sy) (nx1 sy) ltac:(lia)
                ltac:(fold m1; lia)) as HY.
  fold L m1 m2 in HY. fold M5 in HY. destruct HY as [HYo HYi].
  pose proof (@z_stage_spec out floorl topl (mesh G) L 1 (nx0 sz) (nx1 sz) M5)
    as HZ.
  cbv zeta in HZ. cbn [Z.eqb Pos.eqb] in HZ. fold m2 N in HZ.
  specialize (HZ ltac:(lia) ltac:(lia) ltac:(lia) ltac:(lia)).
  destruct HZ as [HZi HZo].
  split.
  - intros n lx ly lz Hnth. rewrite (HZi n lx ly lz Hnth).
    pose proof (nth_error_In _ _ Hnth) as Hin.
    apply cart_triples_in in Hin.
    destruct Hin as (Hlx & Hly & Hlz & Hsum).
    unfold open_cell_value. cbv zeta. fold m1 m2.
    apply zdot_values. intros i Hi. split.
    + replace (weightz L + (lx * (topl + 1) + ly) * m2 + i)
        with (weightz L + lx * (topl + 1) * m2 + ly * m2 + i) by lia.
      rewrite HYi by lia. unfold y_contraction. fold m1 m2.
      apply dsum_ext. intros t Ht.
      assert (Hcol : 0 <= (nx0 sy + t) * m2 + i < m1 * m2).
      { assert ((nx0 sy + t + 1) * m2 <= m1 * m2)
          by (apply Z.mul_le_mono_nonneg_r; lia).
        assert (0 <= (nx0 sy + t) * m2)
          by (apply Z.mul_nonneg_nonneg; lia).
        lia. }
      replace (weightyz L + lx * (m1 * m2) + (nx0 sy + t) * m2 + i)
        with (weightyz L + lx * (m1 * m2) + ((nx0 sy + t) * m2 + i)) by lia.
      rewrite HXi by lia. rewrite dne_D0, D0_add.
      assert ((ly + 1) * m1 <= (topl + 1) * m1)
        by (apply Z.mul_le_mono_nonneg_r; lia).
      assert (0 <= ly * m1) by (apply Z.mul_nonneg_nonneg; lia).
      assert (0 <= (topl + 1) * m0) by (apply Z.mul_nonneg_nonneg; lia).
      rewrite HXo by lia. rewrite TY by lia.
      f_equal. f_equal.
      unfold x_contraction. fold m0 m1 m2.
      apply dsum_ext. intros t' Ht'. rewrite TX by lia. reflexivity.
    + assert ((lz + 1) * m2 <= (topl + 1) * m2)
        by (apply Z.mul_le_mono_nonneg_r; lia).
      assert (0 <= lz * m2) by (apply Z.mul_nonneg_nonneg; lia).
      assert (0 <= (topl + 1) * (m1 * m2))
        by (apply Z.mul_nonneg_nonneg; lia).
      rewrite HYo, HXo by lia.
      apply V3; lia.
  - intros q Hq. rewrite HZo by lia.
    assert (0 <= (topl + 1) * m0) by (apply Z.mul_nonneg_nonneg; lia).
    assert (0 <= (topl + 1) * m1) by (apply Z.mul_nonneg_nonneg; lia).
    assert (0 <= (topl + 1) * (m1 * m2)) by (apply Z.mul_nonneg_nonneg; lia).
    rewrite HYo, HXo by lia. apply FM3. lia.
Qed.

End OpenCell.

(** The input of the example: two primitives of exponent 1 at the middle
    of the cell [grid_open]; with [log_prec = -1] the cutoff radius is 2
    and covers the cell. *)
Lemma open_example_cutoff :
  gto_rcut (Fin 1 + Fin 1)%dbl 0 (Fin 1) (Fin (-1)) = Fin 2.
Proof.
  cbn [dadd]. rewrite gto_rcut_value by lra.
  rewrite Reqb_false by lra. rewrite Rabs_R1, ln_1.
  rewrite Rltb_true by lra. f_equal.
  replace ((0 - (-1 - 7)) / (1 + 1))%R with (2 * 2)%R by lra.
  apply sqrt_square. lra.
Qed.

Lemma open_example_slice :
  _cartesian_components_slices false 2
    ((Fin 1 * Fin 1 + Fin 1 * Fin 1) / (Fin 1 + Fin 1) * Fin (1 / 2))%dbl
    (gto_rcut (Fin 1 + Fin 1)%dbl 0 (Fin 1) (Fin (-1))) (Fin (1 / 2))
  = Some {| nimg0 := 0; nimg1 := 1; nx0 := 0; nx1 := 2 |}.
Proof.
  rewrite open_example_cutoff. cbn [dadd dmul ddiv].
  rewrite Reqb_false by lra. cbn [dmul].
  rewrite slices_value. cbv zeta.
  replace (Zfloor (((1 * 1 + 1 * 1) / (1 + 1) * (1 / 2) - 2 * (1 / 2))
                   * IZR 2)) with (-1)
    by (symmetry; apply Zfloor_eq; cbn; lra).
  replace (Zceil (((1 * 1 + 1 * 1) / (1 + 1) * (1 / 2) + 2 * (1 / 2))
                  * IZR 2)) with 3
    by (symmetry; apply Zceil_eq; cbn; lra).
  reflexivity.
Qed.

Lemma open_example_conversions :
  conversions_defined false 2
    ((Fin 1 * Fin 1 + Fin 1 * Fin 1) / (Fin 1 + Fin 1) * Fin (1 / 2))%dbl
    (gto_rcut (Fin 1 + Fin 1)%dbl 0 (Fin 1) (Fin (-1))) (Fin (1 / 2)).
Proof.
  rewrite open_example_cutoff. unfold conversions_defined, of_int.
  cbn [dadd dmul ddiv]. rewrite Reqb_false by lra. cbv zeta.
  cbn [dadd dsub dneg dmul dfloor dceil].
  split; [intros H; discriminate H |].
  replace (Zfloor (((1 * 1 + 1 * 1) / (1 + 1) * (1 / 2) + - (2 * (1 / 2)))
                   * IZR 2)) with (-1)
    by (symmetry; apply Zfloor_eq; cbn; lra).
  replace (Zceil (((1 * 1 + 1 * 1) / (1 + 1) * (1 / 2) + 2 * (1 / 2))
                  * IZR 2)) with 3
    by (symmetry; apply Zceil_eq; cbn; lra).
  replace ((1 * 1 + 1 * 1) / (1 + 1) * (1 / 2) * IZR 2)%R with (IZR 1)
    by (cbn; lra).
  rewrite !to_int32_small by lia.
  repeat split; discriminate.
Qed.

Lemma open_example_nearest :
  to_int ((Fin 1 * Fin 1 + Fin 1 * Fin 1) / (Fin 1 + Fin 1) * Fin (1 / 2)
          * of_int 2)%dbl = Some 1.
Proof.
  unfold of_int. cbn [dadd dmul ddiv]. rewrite Reqb_false by lra.
  cbn [dmul].
  replace ((1 * 1 + 1 * 1) / (1 + 1) * (1 / 2) * IZR 2)%R with (IZR 1)
    by (cbn; lra).
  apply to_int_IZR.
Qed.

Lemma GTOnumint_3d_orth_open_cell_witness :
  let s := {| nimg0 := 0; nimg1 := 1; nx0 := 0; nx1 := 2 |} in
  let rij := ((Fin 1 * Fin 1 + Fin 1 * Fin 1) / (Fin 1 + Fin 1))%dbl in
  let T := open_axis_table (Fin 2) (Fin 1) rij (Fin 1 + Fin 1)%dbl 2 1 in
  exists M' : mem,
    GTOnumint_3d_orth
      {| arg_out := 0; arg_floorl := 0; arg_topl := 0;
         arg_ai := Fin 1; arg_aj := Fin 1; arg_fac := Fin 1;
         arg_log_prec := Fin (-1); arg_dimension := 0;
         arg_grid := grid_open; arg_cache := 1 |} envs_s11 (fun _ => Fin 0)
    = Some M' /\
    (forall n lx ly lz,
       nth_error (cart_triples 0 0) n = Some (lx, ly, lz) ->
       M' (0 + Z.of_nat n)
       = open_cell_value (Fin 1) mesh_222 (fun _ => Fin 1) T T T s s s
                         lx ly lz) /\
    (forall q,
       q < 0 \/ 0 + Z.of_nat (List.length (cart_triples 0 0)) <= q < 1 ->
       M' q = Fin 0).
Proof.
  cbv zeta.
  apply (@GTOnumint_3d_orth_open_cell 0 0 0 (Fin 1) (Fin 1) (Fin 1) (Fin (-1))
           0 grid_open 1 envs_s11 (fun _ => Fin 0)
           {| nimg0 := 0; nimg1 := 1; nx0 := 0; nx1 := 2 |}
           {| nimg0 := 0; nimg1 := 1; nx0 := 0; nx1 := 2 |}
           {| nimg0 := 0; nimg1 := 1; nx0 := 0; nx1 := 2 |} 1 1 1).
  - lia.
  - repeat split; reflexivity.
  - lia.
  - vm_compute. congruence.
  - exact open_example_slice.
  - exact open_example_slice.
  - exact open_example_slice.
  - exact open_example_nearest.
  - exact open_example_nearest.
  - exact open_example_nearest.
  - repeat split; apply Z.leb_le || apply Z.ltb_lt; reflexivity.
  - split; apply Z.leb_le; reflexivity.
  - exact open_example_conversions.
  - exact open_example_conversions.
  - exact open_example_conversions.
Defined.

(** ** The contraction over the primitives *)

Lemma Rsum_zero (k : nat) (f : Z -> R) :
  (forall t, 0 <= t < Z.of_nat k -> f t = 0%R) -> Rsum k f = 0%R.
Proof.
  induction k as [| k IH]; intros H; [reflexivity |].
  cbn [Rsum]. rewrite IH by (intros t Ht; apply H; lia).
  rewrite H by lia. lra.
Qed.

Lemma Rsum_snoc (t : Z) (f : Z -> R) :
  0 <= t -> Rsum (Z.to_nat (t + 1)) f = (Rsum (Z.to_nat t) f + f t)%R.
Proof.
  intros Ht.
  replace (Z.to_nat (t + 1)) with (Datatypes.S (Z.to_nat t)) by lia.
  cbn [Rsum]. rewrite Z2Nat.id by lia. reflexivity.
Qed.

Section LoopContraction.

Variable orth : orth_args -> CINTEnvVars -> mem -> mem.
Variables (fac log_prec : double) (dimension : Z) (G : grid).
Variables (envs : CINTEnvVars) (cache : Z) (M1 : mem).
Variables (ec : Z -> R) (gv : Z -> Z -> Z -> R).

Let L := GTOnumint1e_loop_layout envs cache.
Let len := len_g1d L.
Let i_ctr := x_ctr envs 0.
Let j_ctr := x_ctr envs 1.
Let i_prim := bas_ (bas envs) NPRIM_OF (shls envs 0).
Let j_prim := bas_ (bas envs) NPRIM_OF (shls envs 1).
Let ci := bas_ (bas envs) PTR_COEFF (shls envs 0).
Let cj := bas_ (bas envs) PTR_COEFF (shls envs 1).
Let fac1 := (fac * CINTcommon_fac_sp (i_l envs)
             * CINTcommon_fac_sp (j_l envs))%dbl.
Let pass (ip jp : Z) : bool := negb (screened envs L M1 ip jp).

(** The contraction with the coefficients of the first shell, for the
    primitive [jp] of the second. *)
Let inner (jp ni k : Z) : R :=
  Rsum (Z.to_nat i_prim) (fun ip =>
    if pass ip jp then (gv ip jp k * ec (ci + ip + i_prim * ni)%Z)%R
    else 0%R).

Hypothesis len_nonneg : 0 <= len.
Hypothesis i_ctr_nonneg : 0 <= i_ctr.
Hypothesis j_ctr_nonneg : 0 <= j_ctr.
Hypothesis i_prim_nonneg : 0 <= i_prim.
Hypothesis j_prim_nonneg : 0 <= j_prim.
Hypothesis env_finite : forall q, env envs q = Fin (ec q).
Hypothesis orth_stores :
  forall ip jp Mk, 0 <= ip < i_prim -> 0 <= jp < j_prim ->
    let A := loop_orth_args fac log_prec dimension G envs L M1 ip jp in
    (forall k, 0 <= k < len -> orth A envs Mk (g L + k) = Fin (gv ip jp k)) /\
    (forall q, q < g L \/ g L + len <= q < cache_rest L ->
       orth A envs Mk q = Mk q).

Lemma loop_layout_facts :
  gctrj L = cache /\
  gctri L = gctrj L + len * i_ctr * j_ctr /\
  g L = gctri L + len * i_ctr /\
  log_iprim_max L = g L + len /\
  log_jprim_max L = log_iprim_max L + i_prim /\
  cache_rest L = log_jprim_max L + j_prim.
Proof.
  unfold len, L, GTOnumint1e_loop_layout.
  cbn [gctrj gctri g log_iprim_max log_jprim_max cache_rest len_g1d].
  fold i_ctr j_ctr i_prim j_prim. repeat split; lia.
Qed.

Lemma screening_stable (Mk : mem) (ip jp : Z) :
  0 <= ip < i_prim -> 0 <= jp < j_prim ->
  (forall q, g L + len <= q < cache_rest L -> Mk q = M1 q) ->
  prim_logcc L Mk ip jp = prim_logcc L M1 ip jp /\
  screened envs L Mk ip jp = screened envs L M1 ip jp.
Proof.
  intros Hip Hjp Hlog.
  destruct loop_layout_facts as (_ & _ & _ & F4 & F5 & F6).
  assert (E : prim_logcc L Mk ip jp = prim_logcc L M1 ip jp).
  { unfold prim_logcc. rewrite !Hlog by lia. reflexivity. }
  split; [exact E |]. unfold screened. rewrite E. reflexivity.
Qed.

Lemma ip_loop_contract (jp : Z) (Mk : mem) :
  0 <= jp < j_prim ->
  (forall q, g L + len <= q < cache_rest L -> Mk q = M1 q) ->
  let r := for_lt 0 i_prim
             (loop_ip_body orth fac1 log_prec dimension G envs L jp)
             (true, Mk) in
  (forall q, q < gctri L \/ g L + len <= q < cache_rest L ->
     snd r q = Mk q) /\
  (fst r = true -> forall ip, 0 <= ip < i_prim -> pass ip jp = false) /\
  (fst r = false ->
   forall ni k, 0 <= ni < i_ctr -> 0 <= k < len ->
     snd r (gctri L + ni * len + k) = Fin (inner jp ni k)).
Proof.
  intros Hjp Hlog. cbv zeta.
  destruct loop_layout_facts as (F1 & F2 & F3 & F4 & F5 & F6).
  assert (Tic : 0 <= len * i_ctr) by (apply Z.mul_nonneg_nonneg; lia).
  pose (P := fun (t : Z) (st : bool * mem) =>
    (forall q, q < gctri L \/ g L + len <= q < cache_rest L ->
       snd st q = Mk q) /\
    (fst st = true -> forall ip, 0 <= ip < t -> pass ip jp = false) /\
    (fst st = false ->
     forall ni k, 0 <= ni < i_ctr -> 0 <= k < len ->
       snd st (gctri L + ni * len + k)
       = Fin (Rsum (Z.to_nat t) (fun ip =>
                if pass ip jp
                then (gv ip jp k * ec (ci + ip + i_prim * ni)%Z)%R
                else 0%R)))).
  assert (HP : P i_prim
            (for_lt 0 i_prim
               (loop_ip_body orth fac1 log_prec dimension G envs L jp)
               (true, Mk))).
  { apply for_lt_invariant; [lia | |].
    - unfold P. cbn [fst snd]. split; [reflexivity |].
      split; [intros _ ip Hip; lia | discriminate].
    - intros t [ie Mt] Ht (Hfr & Htrue & Hfalse). cbn [fst snd] in *.
      assert (Hlogt : forall q, g L + len <= q < cache_rest L -> Mt q = M1 q).
      { intros q Hq. rewrite Hfr by lia. apply Hlog. exact Hq. }
      destruct (@screening_stable Mt t jp ltac:(lia) Hjp Hlogt) as [Elog Escr].
      unfold loop_ip_body. rewrite Escr, Elog.
      destruct (screened envs L M1 t jp) eqn:Hs.
      + (* the pair is skipped *)
        unfold P. cbn [fst snd]. split; [exact Hfr |]. split.
        * intros He ip Hip. destruct (Z.eq_dec ip t) as [-> | Hne].
          -- unfold pass. rewrite Hs. reflexivity.
          -- apply Htrue; [exact He | lia].
        * intros He ni k Hni Hk. rewrite Hfalse by assumption.
          rewrite Rsum_snoc by lia. unfold pass at 3. rewrite Hs.
          cbn [negb]. f_equal. lra.
      + (* the pair is computed and contracted *)
        destruct (@orth_stores t jp Mt ltac:(lia) Hjp) as [Hov Hof].
        unfold loop_orth_args in Hov, Hof. cbv zeta in Hov, Hof.
        fold fac1 in Hov, Hof.
        set (Mo := orth _ envs Mt) in *.
        pose proof (@plain_prim_to_ctr_spec (gctri L) (len_g1d L) (g L) i_prim
                      i_ctr (env envs) (ci + t) ie Mo len_nonneg i_ctr_nonneg
                      ltac:(fold len; lia)) as Hp.
        cbv zeta in Hp. fold len in Hp. destruct Hp as [Hpv Hpf].
        set (Mp := plain_prim_to_ctr (gctri L) (len_g1d L) (g L) i_prim i_ctr
                     (env envs) (ci + t) ie Mo) in *.
        unfold P. cbn [fst snd]. split; [| split; [discriminate |]].
        * intros q Hq. rewrite Hpf.
          -- rewrite Hof by lia. apply Hfr. exact Hq.
          -- assert (i_ctr * len = len * i_ctr) by lia. lia.
        * intros _ ni k Hni Hk. rewrite Hpv by assumption.
          rewrite Rsum_snoc by lia. unfold pass at 2. rewrite Hs.
          cbn [negb]. rewrite Hov by exact Hk. rewrite env_finite.
          assert (Tni : (ni + 1) * len <= i_ctr * len)
            by (apply Z.mul_le_mono_nonneg_r; lia).
          assert (Tni0 : 0 <= ni * len) by (apply Z.mul_nonneg_nonneg; lia).
          destruct ie.
          -- cbn [dmul]. f_equal.
             rewrite Rsum_zero; [lra |].
             intros ip Hip. rewrite Htrue by (try reflexivity; lia).
             reflexivity.
          -- rewrite Hof by lia. rewrite Hfalse by (try reflexivity; lia).
             cbn [dne dmul dadd].
             destruct (Reqb (ec (ci + t + i_prim * ni)) 0) eqn:Hz;
               cbn [negb].
             ++ f_equal. unfold Reqb in Hz.
                destruct (Req_dec_T (ec (ci + t + i_prim * ni)) 0) as [E0 | E0];
                  [| discriminate].
                rewrite E0. lra.
             ++ reflexivity. }
  destruct HP as (H1 & H2 & H3). split; [exact H1 |]. split; [exact H2 |].
  intros He ni k Hni Hk. apply H3; assumption.
Qed.

Lemma jp_loop_contract :
  let r := for_lt 0 j_prim
             (loop_jp_body orth fac1 log_prec dimension G envs L)
             (true, M1) in
  (forall q, q < gctrj L \/ g L + len <= q < cache_rest L ->
     snd r q = M1 q) /\
  (fst r = true ->
   forall ip jp, 0 <= ip < i_prim -> 0 <= jp < j_prim -> pass ip jp = false) /\
  (fst r = false ->
   forall nj ni k, 0 <= nj < j_ctr -> 0 <= ni < i_ctr -> 0 <= k < len ->
     snd r (gctrj L + (nj * i_ctr + ni) * len + k)
     = Fin (Rsum (Z.to_nat j_prim) (fun jp =>
              (inner jp ni k * ec (cj + jp + j_prim * nj)%Z)%R))).
Proof.
  cbv zeta.
  destruct loop_layout_facts as (F1 & F2 & F3 & F4 & F5 & F6).
  assert (Tic : 0 <= i_ctr * len) by (apply Z.mul_nonneg_nonneg; lia).
  assert (Tjc : 0 <= j_ctr * (i_ctr * len))
    by (apply Z.mul_nonneg_nonneg; lia).
  assert (Egi : gctri L = gctrj L + j_ctr * (i_ctr * len)) by lia.
  pose (Q := fun (t : Z) (st : bool * mem) =>
    (forall q, q < gctrj L \/ g L + len <= q < cache_rest L ->
       snd st q = M1 q) /\
    (fst st = true ->
     forall ip jp, 0 <= ip < i_prim -> 0 <= jp < t -> pass ip jp = false) /\
    (fst st = false ->
     forall nj ni k, 0 <= nj < j_ctr -> 0 <= ni < i_ctr -> 0 <= k < len ->
       snd st (gctrj L + (nj * i_ctr + ni) * len + k)
       = Fin (Rsum (Z.to_nat t) (fun jp =>
                (inner jp ni k * ec (cj + jp + j_prim * nj)%Z)%R)))).
  assert (HQ : Q j_prim
            (for_lt 0 j_prim
               (loop_jp_body orth fac1 log_prec dimension G envs L)
               (true, M1))).
  { apply for_lt_invariant; [lia | |].
    - unfold Q. cbn [fst snd]. split; [reflexivity |].
      split; [intros _ ip jp Hip Hjp; lia | discriminate].
    - intros t [je Mt] Ht (Hfr & Htrue & Hfalse). cbn [fst snd] in *.
      assert (Hlogt : forall q, g L + len <= q < cache_rest L -> Mt q = M1 q)
        by (intros q Hq; apply Hfr; right; exact Hq).
      pose proof (@ip_loop_contract t Mt ltac:(lia) Hlogt) as Hin.
      cbv zeta in Hin. unfold loop_jp_body. fold i_prim.
      destruct (for_lt 0 i_prim
                  (loop_ip_body orth fac1 log_prec dimension G envs L t)
                  (true, Mt)) as [ie Mi].
      cbn [fst snd] in Hin. destruct Hin as (Hifr & Hitrue & Hifalse).
      (* the block of the contraction (nj, ni) in the two buffers *)
      assert (Hblk : forall nj ni k,
                0 <= nj < j_ctr -> 0 <= ni < i_ctr -> 0 <= k < len ->
                0 <= ni * len + k < i_ctr * len /\
                gctrj L + (nj * i_ctr + ni) * len + k
                = gctrj L + nj * (i_ctr * len) + (ni * len + k) /\
                gctrj L + nj * (i_ctr * len) + (ni * len + k) < gctri L).
      { intros nj ni k Hnj Hni Hk.
        assert ((ni + 1) * len <= i_ctr * len)
          by (apply Z.mul_le_mono_nonneg_r; lia).
        assert (0 <= ni * len) by (apply Z.mul_nonneg_nonneg; lia).
        assert ((nj + 1) * (i_ctr * len) <= j_ctr * (i_ctr * len))
          by (apply Z.mul_le_mono_nonneg_r; lia).
        assert (0 <= nj * (i_ctr * len)) by (apply Z.mul_nonneg_nonneg; lia).
        split; [lia |]. split; [ring | lia]. }
      destruct ie; cbn [negb].
      + (* no primitive pair of this [jp] passes *)
        specialize (Hitrue eq_refl).
        unfold Q. cbn [fst snd]. split; [| split].
        * intros q Hq. rewrite Hifr by lia. apply Hfr. exact Hq.
        * intros He ip jp Hip Hjp'. destruct (Z.eq_dec jp t) as [-> | Hne].
          -- apply Hitrue. exact Hip.
          -- apply Htrue; [exact He | exact Hip | lia].
        * intros He nj ni k Hnj Hni Hk.
          destruct (Hblk nj ni k Hnj Hni Hk) as (_ & E & Hlt).
          rewrite Hifr by lia. rewrite Hfalse by assumption.
          rewrite Rsum_snoc by lia. f_equal.
          assert (E0 : inner t ni k = 0%R).
          { unfold inner. apply Rsum_zero.
            intros ip Hip. rewrite Hitrue by lia. reflexivity. }
          rewrite E0. lra.
      + (* the contraction with the coefficients of the second shell *)
        specialize (Hifalse eq_refl).
        pose proof (@plain_prim_to_ctr_spec (gctrj L) (i_ctr * len_g1d L)
                      (gctri L) j_prim j_ctr (env envs) (cj + t) je Mi
                      ltac:(fold len; lia) j_ctr_nonneg
                      ltac:(fold len; lia)) as Hp.
        cbv zeta in Hp. fold len in Hp. destruct Hp as [Hpv Hpf].
        fold j_prim cj.
        set (Mj := plain_prim_to_ctr (gctrj L) (i_ctr * len_g1d L) (gctri L)
                     j_prim j_ctr (env envs) (cj + t) je Mi) in *.
        unfold Q. cbn [fst snd]. split; [| split; [discriminate |]].
        * intros q Hq. rewrite Hpf by lia. rewrite Hifr by lia.
          apply Hfr. exact Hq.
        * intros _ nj ni k Hnj Hni Hk.
          destruct (Hblk nj ni k Hnj Hni Hk) as (Hi & E & Hlt).
          rewrite E, Hpv by assumption.
          rewrite Rsum_snoc by lia. rewrite env_finite.
          replace (gctri L + (ni * len + k)) with (gctri L + ni * len + k)
            by lia.
          rewrite Hifalse by assumption.
          destruct je.
          -- cbn [dmul]. f_equal.
             rewrite Rsum_zero; [lra |].
             intros jp Hjp'.
             assert (E0 : inner jp ni k = 0%R).
             { unfold inner. apply Rsum_zero.
               intros ip Hip. rewrite Htrue by (try reflexivity; lia).
               reflexivity. }
             rewrite E0. lra.
          -- rewrite Hifr by lia. rewrite <- E.
             rewrite Hfalse by (try reflexivity; assumption).
             cbn [dne dmul dadd].
             destruct (Reqb (ec (cj + t + j_prim * nj)) 0) eqn:Hz;
               cbn [negb].
             ++ f_equal. unfold Reqb in Hz.
                destruct (Req_dec_T (ec (cj + t + j_prim * nj)) 0) as [E0 | E0];
                  [| discriminate].
                rewrite E0. lra.
             ++ reflexivity. }
  destruct HQ as (H1 & H2 & H3). split; [exact H1 |]. split; [exact H2 |].
  intros He nj ni k Hnj Hni Hk. apply H3; assumption.
Qed.

End LoopContraction.

(** X27: [GTOnumint1e_loop] contracts the primitive values with the
    coefficients of the two shells, in exact arithmetic on finite
    values.  For an engine that stores the finite values [gv ip jp k],
    [0 <= k < len_g1d], in [g] and leaves the rest of the cache below
    its own scratch alone, the block number [nj*i_ctr + ni] of [gctrj],
    which the recurrence call number [nj*i_ctr + ni] reads, holds at the
    element [k] the sum over the primitive pairs (ip, jp) that pass the
    screening of [gv ip jp k * ci[ip + i_prim*ni] * cj[jp + j_prim*nj]]
    whenever the function returns 1; the skipped zero coefficients and
    the flags [iempty] and [jempty] lose no term.  The result is the
    memory with these blocks after the [i_ctr*j_ctr] recurrence calls. *)
Theorem GTOnumint1e_loop_contracts
    (orth : orth_args -> CINTEnvVars -> mem -> mem)
    (vrr2d : Z -> Z -> Z -> CINTEnvVars -> mem -> mem)
    (out : Z) (fac log_prec : double) (dimension : Z) (G : grid)
    (envs : CINTEnvVars) (cache : Z) (M : mem)
    (ec : Z -> R) (gv : Z -> Z -> Z -> R) :
  let L := GTOnumint1e_loop_layout envs cache in
  let M1 := log_prim_tables envs L M in
  let i_ctr := x_ctr envs 0 in
  let j_ctr := x_ctr envs 1 in
  let i_prim := bas_ (bas envs) NPRIM_OF (shls envs 0) in
  let j_prim := bas_ (bas envs) NPRIM_OF (shls envs 1) in
  let pass := fun ip jp => negb (screened envs L M1 ip jp) in
  0 <= len_g1d L -> 0 <= i_ctr -> 0 <= j_ctr ->
  0 <= i_prim -> 0 <= j_prim ->
  (forall q, env envs q = Fin (ec q)) ->
  (forall ip jp Mk, 0 <= ip < i_prim -> 0 <= jp < j_prim ->
     let A := loop_orth_args fac log_prec dimension G envs L M1 ip jp in
     (forall k, 0 <= k < len_g1d L ->
        orth A envs Mk (g L + k) = Fin (gv ip jp k)) /\
     (forall q, q < g L \/ g L + len_g1d L <= q < cache_rest L ->
        orth A envs Mk q = Mk q)) ->
  let r := GTOnumint1e_loop orth vrr2d out fac log_prec dimension G envs
                            cache M in
  exists Mc : mem,
    snd r = (if fst r
             then for_lt 0 (i_ctr * j_ctr) (fun n M =>
                    vrr2d (out + n * nf envs) (gctrj L + n * len_g1d L)
                          (cache_rest L) envs M) Mc
             else Mc) /\
    (forall q, q < cache \/ g L + len_g1d L <= q < cache_rest L ->
       Mc q = M1 q) /\
    (fst r = true ->
     forall nj ni k, 0 <= nj < j_ctr -> 0 <= ni < i_ctr ->
       0 <= k < len_g1d L ->
       Mc (gctrj L + (nj * i_ctr + ni) * len_g1d L + k)
       = Fin (contracted envs ec pass (fun ip jp => gv ip jp k) nj ni)).
Proof.
  intros L M1 i_ctr j_ctr i_prim j_prim pass H1 H2 H3 H4 H5 Henv Horth r.
  pose proof (@jp_loop_contract orth fac log_prec dimension G envs cache M1
                ec gv H1 H2 H3 H4 H5 Henv Horth) as HJ.
  cbv zeta in HJ. fold L in HJ. fold M1 in HJ.
  subst r. unfold GTOnumint1e_loop. cbv zeta.
  fold L. fold M1. fold i_ctr j_ctr.
  destruct (for_lt 0 (bas_ (bas envs) NPRIM_OF (shls envs 1))
              (loop_jp_body orth
                 (fac * CINTcommon_fac_sp (i_l envs)
                  * CINTcommon_fac_sp (j_l envs))%dbl
                 log_prec dimension G envs L) (true, M1)) as [je Mc].
  cbn [fst snd] in *. destruct HJ as (Hfr & _ & Hval).
  exists Mc. split; [destruct je; reflexivity |]. split.
  - intros q Hq. apply Hfr. destruct Hq; [left | right]; [| assumption].
    change (gctrj L) with cache. assumption.
  - intros He. destruct je; [discriminate |].
    intros nj ni k Hnj Hni Hk. rewrite Hval by (try reflexivity; assumption).
    reflexivity.
Qed.

Lemma orth_ones_stores (A : orth_args) (envs : CINTEnvVars) (Mk : mem) :
  orth_ones A envs Mk (arg_out A) = Fin 1 /\
  (forall q, q <> arg_out A -> orth_ones A envs Mk q = Mk q).
Proof.
  unfold orth_ones. split; [apply upd_same |].
  intros q Hq. apply upd_other. exact Hq.
Qed.

Lemma GTOnumint1e_loop_contracts_witness :
  let vrr2d := fun (_ _ _ : Z) (_ : CINTEnvVars) (M : mem) => M in
  let M := fun _ : Z => Fin 0 in
  let L := GTOnumint1e_loop_layout envs_s11 0 in
  let M1 := log_prim_tables envs_s11 L M in
  let pass := fun ip jp => negb (screened envs_s11 L M1 ip jp) in
  let r := GTOnumint1e_loop orth_ones vrr2d 0 (Fin 1) (Fin 0) 0 grid_222
                            envs_s11 0 M in
  exists Mc : mem,
    snd r = (if fst r
             then for_lt 0 (x_ctr envs_s11 0 * x_ctr envs_s11 1) (fun n M =>
                    vrr2d (0 + n * nf envs_s11) (gctrj L + n * len_g1d L)
                          (cache_rest L) envs_s11 M) Mc
             else Mc) /\
    (forall q, q < 0 \/ g L + len_g1d L <= q < cache_rest L ->
       Mc q = M1 q) /\
    (fst r = true ->
     forall nj ni k, 0 <= nj < x_ctr envs_s11 1 -> 0 <= ni < x_ctr envs_s11 0 ->
       0 <= k < len_g1d L ->
       Mc (gctrj L + (nj * x_ctr envs_s11 0 + ni) * len_g1d L + k)
       = Fin (contracted envs_s11 (fun _ => 1%R) pass
                         (fun _ _ => 1%R) nj ni)).
Proof.
  cbv zeta.
  apply (@GTOnumint1e_loop_contracts orth_ones
           (fun (_ _ _ : Z) (_ : CINTEnvVars) (M : mem) => M)
           0 (Fin 1) (Fin 0) 0 grid_222 envs_s11 0 (fun _ => Fin 0)
           (fun _ => 1%R) (fun _ _ _ => 1%R)).
  - apply Z.leb_le. reflexivity.
  - apply Z.leb_le. reflexivity.
  - apply Z.leb_le. reflexivity.
  - apply Z.leb_le. reflexivity.
  - apply Z.leb_le. reflexivity.
  - intros q. reflexivity.
  - intros ip jp Mk Hip Hjp A. subst A.
    match goal with
    | |- context [orth_ones ?a] =>
        destruct (@orth_ones_stores a envs_s11 Mk) as [Hv Hf]
    end.
    change (len_g1d (GTOnumint1e_loop_layout envs_s11 0)) with 1.
    split.
    + intros k Hk. replace k with 0 by lia. rewrite Z.add_0_r. exact Hv.
    + intros q Hq. apply Hf.
      change (q <> g (GTOnumint1e_loop_layout envs_s11 0)). lia.
Defined.
